(** * Mask reconstruction of cellpose/models.py

    A shallow embedding of [CellposeModel._compute_masks] and of the
    iteration budget chosen by [CellposeModel._run_cp]
    (src/cellpose/models.py), together with the properties of the label
    grid they produce.  The later parts cover the entry points
    ([Evaluation]: [CellposeModel.eval], [SizeModel.eval],
    [Cellpose.eval]), the bookkeeping of [SizeModel.train] ([Training]),
    the mask stage of [_run_cp] ([RunCp]) and the model files and
    [CellposeModel.__init__] ([Construction]).

    Conventions.  A 2-D numpy array is a list of rows ([Np.grid]); floating
    point samples are idealised as rationals ([Q]), label values and pixel
    indices are integers ([Z]).  The numpy, scipy.ndimage, skimage and
    fastremap routines that decide a property have executable models in
    the modules [Np], [Fancy], [Ndimage], [Skimage] and [Fastremap]; the
    mask sanitizer of cellpose.utils is modelled in [Utils]; the remaining
    routines of dynamics, transforms, utils, sklearn and cv2 are fields of
    the record [Models.collaborators].  Arrays of one call are taken to
    have one spatial shape, as numpy's broadcasting requires. *)

From Stdlib Require Import List ZArith QArith Qround Qabs Bool Lia Arith.
From Stdlib Require Import Permutation Finite.
From Stdlib Require String DecimalString.
Import ListNotations.
Local Open Scope Z_scope.

(* ================================================================== *)
(** ** numpy arrays *)
(* ================================================================== *)

Module Np.

Definition grid (A : Type) := list (list A).

(** [x > t], the comparison numpy applies pointwise. *)
Definition Qgtb (x t : Q) : bool := negb (Qle_bool x t).

Definition inside (Ly Lx : nat) (y x : Z) : bool :=
  (0 <=? y) && (y <? Z.of_nat Ly) && (0 <=? x) && (x <? Z.of_nat Lx).

(** Read with a default outside the array (the border value of the
    morphology routines); numpy's own index rule is [index] below. *)
Definition get {A} (d : A) (g : grid A) (y x : Z) : A :=
  if (0 <=? y) && (0 <=? x)
  then nth (Z.to_nat x) (nth (Z.to_nat y) g []) d
  else d.

Definition tabulate {A} (Ly Lx : nat) (f : Z -> Z -> A) : grid A :=
  map (fun y => map (fun x => f (Z.of_nat y) (Z.of_nat x)) (seq 0 Lx))
      (seq 0 Ly).

Definition nrows {A} (g : grid A) : nat := length g.
Definition ncols {A} (g : grid A) : nat := length (hd [] g).

(** [rect Ly Lx g]: [g] has shape (Ly, Lx). *)
Definition rect {A} (Ly Lx : nat) (g : grid A) : Prop :=
  length g = Ly /\ Forall (fun r => length r = Lx) g.

Definition zeros {A} (z : A) (Ly Lx : nat) : grid A :=
  repeat (repeat z Lx) Ly.

Definition map2 {A B C} (f : A -> B -> C) (a : grid A) (b : grid B)
  : grid C :=
  map (fun rs => map (fun ab => f (fst ab) (snd ab))
                     (combine (fst rs) (snd rs)))
      (combine a b).

(** [np.any] *)
Definition any (m : grid bool) : bool := existsb (existsb (fun b => b)) m.

(** [np.nonzero] of a 2-D boolean array: coordinates in row-major order. *)
Definition nonzero_row (y : Z) (r : list bool) : list (Z * Z) :=
  flat_map (fun xb : nat * bool =>
              if snd xb then [(y, Z.of_nat (fst xb))] else [])
           (combine (seq 0 (length r)) r).

Definition nonzero (m : grid bool) : list (Z * Z) :=
  flat_map (fun yr : nat * list bool =>
              nonzero_row (Z.of_nat (fst yr)) (snd yr))
           (combine (seq 0 (length m)) m).

(** numpy's rule for one integer index into an axis of length [n]:
    negative indices count from the end, anything else out of range is an
    IndexError ([None]). *)
Definition index (n : nat) (i : Z) : option nat :=
  if (0 <=? i) && (i <? Z.of_nat n) then Some (Z.to_nat i)
  else if (- Z.of_nat n <=? i) && (i <? 0) then Some (Z.to_nat (Z.of_nat n + i))
  else None.

Lemma get_outside_neg {A} (d : A) g y x :
  y < 0 \/ x < 0 -> get d g y x = d.
Proof.
  intros H. unfold get.
  destruct (0 <=? y) eqn:Hy; destruct (0 <=? x) eqn:Hx; simpl; auto; lia.
Qed.

Lemma nth_map_seq {A} (f : nat -> A) d n k :
  (k < n)%nat -> nth k (map f (seq 0 n)) d = f k.
Proof.
  intros Hk.
  rewrite (nth_indep _ d (f 0%nat)) by (rewrite length_map, length_seq; lia).
  rewrite map_nth. rewrite seq_nth by lia. reflexivity.
Qed.

Lemma inside_spec Ly Lx y x :
  inside Ly Lx y x = true <->
  (0 <= y < Z.of_nat Ly /\ 0 <= x < Z.of_nat Lx).
Proof.
  unfold inside. repeat rewrite andb_true_iff.
  rewrite !Z.leb_le, !Z.ltb_lt. lia.
Qed.

Lemma inside_false Ly Lx y x :
  inside Ly Lx y x = false <->
  (y < 0 \/ Z.of_nat Ly <= y \/ x < 0 \/ Z.of_nat Lx <= x).
Proof.
  pose proof (inside_spec Ly Lx y x) as H.
  destruct (inside Ly Lx y x).
  - split; [discriminate|]. intros. assert (true = true) as E by reflexivity.
    apply H in E. lia.
  - split; [|reflexivity]. intros _.
    destruct (Z_lt_dec y 0); [lia|].
    destruct (Z_le_dec (Z.of_nat Ly) y); [lia|].
    destruct (Z_lt_dec x 0); [lia|].
    destruct (Z_le_dec (Z.of_nat Lx) x); [lia|].
    assert (false = true) as E by (apply H; lia). discriminate.
Qed.

Lemma get_tabulate {A} (d : A) Ly Lx f y x :
  inside Ly Lx y x = true -> get d (tabulate Ly Lx f) y x = f y x.
Proof.
  intros H. apply inside_spec in H. unfold get, tabulate.
  destruct (Z.leb_spec 0 y); [|lia]. destruct (Z.leb_spec 0 x); [|lia].
  simpl.
  rewrite (nth_map_seq _ [] Ly) by lia.
  rewrite (nth_map_seq _ d Lx) by lia.
  rewrite !Z2Nat.id by lia. reflexivity.
Qed.

Lemma get_tabulate_outside {A} (d : A) Ly Lx f y x :
  inside Ly Lx y x = false -> get d (tabulate Ly Lx f) y x = d.
Proof.
  intros H. apply inside_false in H. unfold get, tabulate.
  destruct (Z.leb_spec 0 y); simpl; auto.
  destruct (Z.leb_spec 0 x); simpl; auto.
  destruct (Z_lt_dec y (Z.of_nat Ly)).
  - rewrite (nth_map_seq _ [] Ly) by lia.
    apply nth_overflow. rewrite length_map, length_seq. lia.
  - rewrite (nth_overflow _ []) by (rewrite length_map, length_seq; lia).
    destruct (Z.to_nat x); reflexivity.
Qed.

Lemma get_tabulate_if {A} (d : A) Ly Lx f y x :
  get d (tabulate Ly Lx f) y x = if inside Ly Lx y x then f y x else d.
Proof.
  destruct (inside Ly Lx y x) eqn:H.
  - now apply get_tabulate.
  - now apply get_tabulate_outside.
Qed.

Lemma tabulate_ext {A} Ly Lx (f g : Z -> Z -> A) :
  (forall y x, inside Ly Lx y x = true -> f y x = g y x) ->
  tabulate Ly Lx f = tabulate Ly Lx g.
Proof.
  intros H. unfold tabulate.
  apply map_ext_in. intros y Hy. apply in_seq in Hy.
  apply map_ext_in. intros x Hx. apply in_seq in Hx.
  apply H. apply inside_spec. lia.
Qed.

Lemma tabulate_get {A} (d : A) Ly Lx f :
  tabulate Ly Lx (get d (tabulate Ly Lx f)) = tabulate Ly Lx f.
Proof.
  apply tabulate_ext. intros y x H. now apply get_tabulate.
Qed.

Lemma rect_tabulate {A} Ly Lx (f : Z -> Z -> A) :
  rect Ly Lx (tabulate Ly Lx f).
Proof.
  unfold rect, tabulate. split.
  - now rewrite length_map, length_seq.
  - apply Forall_forall. intros r Hr. apply in_map_iff in Hr.
    destruct Hr as [y [<- _]]. now rewrite length_map, length_seq.
Qed.

End Np.

(* ================================================================== *)
(** ** Counting the elements of a list that satisfy a test *)
(* ================================================================== *)

Section Counting.
Context {A : Type}.

Definition count_if (f : A -> bool) (l : list A) : nat :=
  length (filter f l).

Lemma count_if_le f l : (count_if f l <= length l)%nat.
Proof.
  unfold count_if. induction l as [|a l IH]; simpl; [lia|].
  destruct (f a); simpl; lia.
Qed.

Lemma count_if_mono f g l :
  (forall a, In a l -> f a = true -> g a = true) ->
  (count_if f l <= count_if g l)%nat.
Proof.
  unfold count_if. induction l as [|a l IH]; simpl; intros H; [lia|].
  assert (IH' : (length (filter f l) <= length (filter g l))%nat)
    by (apply IH; intros; apply H; auto).
  destruct (f a) eqn:Fa.
  - rewrite (H a (or_introl eq_refl) Fa). simpl. lia.
  - destruct (g a); simpl; lia.
Qed.

Lemma count_if_strict f g l :
  (forall a, In a l -> f a = true -> g a = true) ->
  (exists a, In a l /\ f a = false /\ g a = true) ->
  (count_if f l < count_if g l)%nat.
Proof.
  induction l as [|a l IH]; intros H [b [Hin [Fb Gb]]]; [destruct Hin|].
  assert (Hl : forall a0, In a0 l -> f a0 = true -> g a0 = true)
    by (intros; apply H; simpl; auto).
  pose proof (count_if_mono f g l Hl) as Hm.
  unfold count_if in *. simpl.
  destruct Hin as [<- | Hin].
  - rewrite Fb, Gb. simpl. lia.
  - assert (IH' : (length (filter f l) < length (filter g l))%nat)
      by (apply IH; [assumption | exists b; auto]).
    destruct (f a) eqn:Fa.
    + rewrite (H a (or_introl eq_refl) Fa). simpl. lia.
    + destruct (g a); simpl; lia.
Qed.

Lemma count_if_full f l :
  (length l <= count_if f l)%nat -> forall a, In a l -> f a = true.
Proof.
  unfold count_if. induction l as [|a l IH]; simpl; intros H b Hb;
    [destruct Hb|].
  pose proof (count_if_le f l) as Hle. unfold count_if in Hle.
  destruct (f a) eqn:Fa; simpl in H.
  - destruct Hb as [<- | Hb]; [assumption | apply IH; [lia | assumption]].
  - lia.
Qed.
End Counting.

(* ================================================================== *)
(** ** scipy.ndimage: region growing and binary morphology *)
(* ================================================================== *)

Module Ndimage.
Import Np.

(** The cross-shaped structuring element (connectivity 1), the default of
    [ndimage.label], [binary_dilation], [binary_erosion]. *)
Definition neighbours4 (y x : Z) : list (Z * Z) :=
  [(y - 1, x); (y + 1, x); (y, x - 1); (y, x + 1)].

Definition adjacent4 (y' x' y x : Z) : Prop :=
  Z.abs (y - y') + Z.abs (x - x') = 1.

Definition touches (d : bool) (R : grid bool) (y x : Z) : bool :=
  existsb (fun q => get d R (fst q) (snd q)) (neighbours4 y x).

Lemma touches_spec d R y x :
  touches d R y x = true <->
  exists y' x', adjacent4 y' x' y x /\ get d R y' x' = true.
Proof.
  unfold touches, neighbours4, adjacent4. simpl.
  rewrite !orb_true_iff. split.
  - intros [H|[H|[H|[H|H]]]]; try discriminate;
      [exists (y-1), x | exists (y+1), x | exists y, (x-1) | exists y, (x+1)];
      split; auto; lia.
  - intros [y' [x' [Ha Hg]]].
    assert (C : (y' = y - 1 /\ x' = x) \/ (y' = y + 1 /\ x' = x) \/
                (y' = y /\ x' = x - 1) \/ (y' = y /\ x' = x + 1)) by lia.
    destruct C as [[-> ->]|[[-> ->]|[[-> ->]|[-> ->]]]]; auto.
Qed.

(** All pixel coordinates of an (Ly, Lx) array. *)
Definition coords (Ly Lx : nat) : list (Z * Z) :=
  list_prod (map Z.of_nat (seq 0 Ly)) (map Z.of_nat (seq 0 Lx)).

Lemma in_coords Ly Lx y x :
  In (y, x) (coords Ly Lx) <-> inside Ly Lx y x = true.
Proof.
  unfold coords. rewrite in_prod_iff, !in_map_iff, inside_spec. split.
  - intros [[a [<- Ha]] [b [<- Hb]]]. apply in_seq in Ha, Hb. lia.
  - intros [Hy Hx]. split;
      [exists (Z.to_nat y) | exists (Z.to_nat x)];
      (split; [lia | apply in_seq; lia]).
Qed.

Lemma length_coords Ly Lx : length (coords Ly Lx) = (Ly * Lx)%nat.
Proof.
  unfold coords. now rewrite length_prod, !length_map, !length_seq.
Qed.

Section Flood.
Variables (Ly Lx : nat) (allowed seed : grid bool).

(** One sweep: a pixel of [allowed] joins the region when it is in it
    already or touches it. *)
Definition grow (R : grid bool) : grid bool :=
  tabulate Ly Lx (fun y x =>
    get false allowed y x && (get false R y x || touches false R y x)).

Definition flood_start : grid bool :=
  tabulate Ly Lx (fun y x => get false allowed y x && get false seed y x).

(** Sweeps are repeated once per pixel, which is enough to close the
    region (see [flood_stable]). *)
Definition flood : grid bool := Nat.iter (Ly * Lx) grow flood_start.

(** The pixels joined to a seed by a 4-connected path inside [allowed]. *)
Inductive connected : Z -> Z -> Prop :=
| conn_seed y x :
    inside Ly Lx y x = true ->
    get false allowed y x = true -> get false seed y x = true ->
    connected y x
| conn_step y' x' y x :
    connected y' x' -> adjacent4 y' x' y x ->
    inside Ly Lx y x = true -> get false allowed y x = true ->
    connected y x.

Definition region (R : grid bool) : Prop :=
  (exists f, R = tabulate Ly Lx f) /\
  (forall y x, get false R y x = true -> get false allowed y x = true).

Definition pixels (R : grid bool) : nat :=
  count_if (fun p => get false R (fst p) (snd p)) (coords Ly Lx).

Lemma region_inside R y x :
  region R -> get false R y x = true -> inside Ly Lx y x = true.
Proof.
  intros [[f ->] _] H. rewrite get_tabulate_if in H.
  destruct (inside Ly Lx y x); [reflexivity | discriminate].
Qed.

Lemma region_start : region flood_start.
Proof.
  split; [eexists; reflexivity|]. intros y x H.
  unfold flood_start in H. rewrite get_tabulate_if in H.
  destruct (inside Ly Lx y x); [|discriminate].
  now apply andb_true_iff in H.
Qed.

Lemma region_grow R : region (grow R).
Proof.
  split; [eexists; reflexivity|]. intros y x H.
  unfold grow in H. rewrite get_tabulate_if in H.
  destruct (inside Ly Lx y x); [|discriminate].
  now apply andb_true_iff in H.
Qed.

Lemma region_iter k : region (Nat.iter k grow flood_start).
Proof. destruct k; simpl; [apply region_start | apply region_grow]. Qed.

Lemma grow_keeps R y x :
  region R -> get false R y x = true -> get false (grow R) y x = true.
Proof.
  intros HR H. unfold grow.
  rewrite get_tabulate by (eapply region_inside; eauto).
  destruct HR as [_ Hsub]. rewrite (Hsub _ _ H), H. reflexivity.
Qed.

Lemma grow_stable_or_larger R :
  region R -> grow R = R \/ (pixels R < pixels (grow R))%nat.
Proof.
  intros HR.
  destruct (forallb (fun p => Bool.eqb (get false (grow R) (fst p) (snd p))
                                       (get false R (fst p) (snd p)))
                    (coords Ly Lx)) eqn:E.
  - left. rewrite forallb_forall in E.
    destruct HR as [[f Hf] _].
    rewrite Hf at 2. unfold grow at 1.
    apply tabulate_ext. intros y x Hin.
    specialize (E (y, x) (proj2 (in_coords _ _ _ _) Hin)). simpl in E.
    apply Bool.eqb_prop in E. unfold grow in E.
    rewrite get_tabulate in E by assumption. rewrite E, Hf.
    now rewrite get_tabulate.
  - right. apply count_if_strict.
    + intros [y x] _ H. simpl in *. now apply grow_keeps.
    + assert (exists p, In p (coords Ly Lx) /\
                Bool.eqb (get false (grow R) (fst p) (snd p))
                         (get false R (fst p) (snd p)) = false) as [p [Hp Hd]].
      { clear HR. induction (coords Ly Lx) as [|q l IH]; simpl in E;
          [discriminate|].
        apply andb_false_iff in E. destruct E as [E|E].
        - exists q. split; [left; reflexivity | assumption].
        - destruct (IH E) as [p [Hp Hd]]. exists p. split; [right|]; auto. }
      exists p. split; [assumption|].
      destruct (get false R (fst p) (snd p)) eqn:G.
      * rewrite (grow_keeps R _ _ HR G) in Hd. discriminate.
      * destruct (get false (grow R) (fst p) (snd p)); [auto | discriminate].
Qed.

Lemma iter_progress k :
  let R := Nat.iter k grow flood_start in
  grow R = R \/ (k <= pixels R)%nat.
Proof.
  induction k as [|k IH]; simpl; [right; lia|].
  simpl in IH. destruct IH as [St | Hk].
  - left. now rewrite St.
  - destruct (grow_stable_or_larger _ (region_iter k)) as [St | Hlt].
    + left. now rewrite St.
    + right. lia.
Qed.

Lemma flood_stable : grow flood = flood.
Proof.
  unfold flood. destruct (iter_progress (Ly * Lx)) as [St | Hfull];
    [assumption|].
  set (R := Nat.iter (Ly * Lx) grow flood_start) in *.
  pose proof (region_iter (Ly * Lx)) as HR. fold R in HR.
  unfold pixels in Hfull. rewrite <- length_coords in Hfull.
  pose proof (count_if_full _ _ Hfull) as Hall.
  destruct HR as [[f Hf] Hsub].
  rewrite Hf at 2. unfold grow. apply tabulate_ext. intros y x Hin.
  specialize (Hall (y, x) (proj2 (in_coords _ _ _ _) Hin)). simpl in Hall.
  rewrite (Hsub _ _ Hall), Hall. simpl.
  rewrite Hf in Hall. now rewrite get_tabulate in Hall.
Qed.

Lemma iter_keeps k j y x :
  get false (Nat.iter k grow flood_start) y x = true ->
  get false (Nat.iter (j + k) grow flood_start) y x = true.
Proof.
  intros H. induction j as [|j IH]; simpl; [assumption|].
  apply grow_keeps; [apply region_iter | assumption].
Qed.

Lemma flood_sound k y x :
  get false (Nat.iter k grow flood_start) y x = true -> connected y x.
Proof.
  revert y x. induction k as [|k IH]; simpl; intros y x H.
  - unfold flood_start in H. rewrite get_tabulate_if in H.
    destruct (inside Ly Lx y x) eqn:Hin; [|discriminate].
    apply andb_true_iff in H. destruct H. now apply conn_seed.
  - unfold grow in H. rewrite get_tabulate_if in H.
    destruct (inside Ly Lx y x) eqn:Hin; [|discriminate].
    apply andb_true_iff in H. destruct H as [Ha H].
    apply orb_true_iff in H. destruct H as [H|H]; [now apply IH|].
    apply touches_spec in H. destruct H as [y' [x' [Hadj Hg]]].
    eapply conn_step; eauto.
Qed.

Lemma flood_complete y x : connected y x -> get false flood y x = true.
Proof.
  induction 1 as [y x Hin Ha Hs | y' x' y x _ IH Hadj Hin Ha].
  - unfold flood. rewrite <- (Nat.add_0_r (Ly * Lx)).
    apply iter_keeps. simpl. unfold flood_start.
    rewrite get_tabulate by assumption. now rewrite Ha, Hs.
  - rewrite <- flood_stable. unfold grow.
    rewrite get_tabulate by assumption. rewrite Ha. simpl.
    apply orb_true_iff. right. apply touches_spec. eauto.
Qed.

Lemma flood_spec y x : get false flood y x = true <-> connected y x.
Proof. split; [apply flood_sound | apply flood_complete]. Qed.
End Flood.

(** *** Binary morphology

    [binary_dilation], [binary_erosion] and [binary_opening] with the
    default cross-shaped structuring element; [bv] is [border_value], the
    value read outside the array, and the sweep is repeated [iterations]
    times.  Opening is erosion followed by dilation, each with the same
    number of iterations and the same border value. *)

Definition dilate_step (bv : bool) (Ly Lx : nat) (g : grid bool) : grid bool :=
  tabulate Ly Lx (fun y x => get bv g y x || touches bv g y x).

Definition erode_step (bv : bool) (Ly Lx : nat) (g : grid bool) : grid bool :=
  tabulate Ly Lx (fun y x =>
    get bv g y x &&
    forallb (fun q => get bv g (fst q) (snd q)) (neighbours4 y x)).

Definition binary_dilation (g : grid bool) (bv : bool) (iterations : nat)
  : grid bool :=
  Nat.iter iterations (dilate_step bv (nrows g) (ncols g)) g.

Definition binary_erosion (g : grid bool) (bv : bool) (iterations : nat)
  : grid bool :=
  Nat.iter iterations (erode_step bv (nrows g) (ncols g)) g.

Definition binary_opening (g : grid bool) (bv : bool) (iterations : nat)
  : grid bool :=
  binary_dilation (binary_erosion g bv iterations) bv iterations.

Lemma rect_zeros {A} (z : A) Ly Lx : rect Ly Lx (zeros z Ly Lx).
Proof.
  unfold rect, zeros. split; [apply repeat_length|].
  apply Forall_forall. intros r Hr. apply repeat_spec in Hr. subst.
  apply repeat_length.
Qed.

Lemma get_rect {A} (d : A) Ly Lx g y x :
  rect Ly Lx g -> inside Ly Lx y x = false -> get d g y x = d.
Proof.
  intros [HL HF] H. apply inside_false in H. unfold get.
  destruct (Z.leb_spec 0 y); simpl; auto.
  destruct (Z.leb_spec 0 x); simpl; auto.
  destruct (Z_lt_dec y (Z.of_nat Ly)).
  - apply nth_overflow.
    assert (Hin : In (nth (Z.to_nat y) g []) g) by (apply nth_In; lia).
    rewrite Forall_forall in HF. rewrite (HF _ Hin). lia.
  - rewrite (nth_overflow g) by lia. destruct (Z.to_nat x); reflexivity.
Qed.

Lemma get_zeros {A} (d z : A) Ly Lx y x :
  inside Ly Lx y x = true -> get d (zeros z Ly Lx) y x = z.
Proof.
  intros H. apply inside_spec in H. unfold get, zeros.
  destruct (Z.leb_spec 0 y); [|lia]. destruct (Z.leb_spec 0 x); [|lia].
  simpl.
  assert (E : nth (Z.to_nat y) (repeat (repeat z Lx) Ly) [] = repeat z Lx).
  { apply (repeat_spec Ly). apply nth_In. rewrite repeat_length. lia. }
  rewrite E. apply (repeat_spec Lx). apply nth_In. rewrite repeat_length. lia.
Qed.

Lemma shape_zeros {A} (z : A) Ly Lx :
  (0 < Ly)%nat -> nrows (zeros z Ly Lx) = Ly /\ ncols (zeros z Ly Lx) = Lx.
Proof.
  intros H. unfold nrows, ncols, zeros. rewrite repeat_length. split; auto.
  destruct Ly; [lia|]. simpl. apply repeat_length.
Qed.

(** Distance of a pixel to the nearest edge of the image. *)
Definition edge_distance (Ly Lx : nat) (y x : Z) : Z :=
  Z.min (Z.min y (Z.of_nat Ly - 1 - y)) (Z.min x (Z.of_nat Lx - 1 - x)).

Lemma rect_dilate_iter k Ly Lx g :
  rect Ly Lx g -> rect Ly Lx (Nat.iter k (dilate_step true Ly Lx) g).
Proof. destruct k; simpl; [auto | intros _; apply rect_tabulate]. Qed.

Definition near_edge (Ly Lx : nat) (k : nat) (y x : Z) : bool :=
  if inside Ly Lx y x then edge_distance Ly Lx y x <? Z.of_nat k else true.

Lemma near_edge_true Ly Lx k y x :
  near_edge Ly Lx k y x = true <->
  (~ (0 <= y < Z.of_nat Ly /\ 0 <= x < Z.of_nat Lx) \/
   edge_distance Ly Lx y x < Z.of_nat k).
Proof.
  unfold near_edge. destruct (inside Ly Lx y x) eqn:E.
  - apply inside_spec in E. rewrite Z.ltb_lt. tauto.
  - apply inside_false in E. split; [intros _; left; lia | reflexivity].
Qed.

(** [k] dilations of the empty image against a set border mark exactly the
    pixels that lie less than [k] pixels from an edge. *)
Lemma dilate_from_border k Ly Lx y x :
  get true (Nat.iter k (dilate_step true Ly Lx) (zeros false Ly Lx)) y x =
  near_edge Ly Lx k y x.
Proof.
  revert y x. induction k as [|k IH]; intros y x.
  - simpl. unfold near_edge. destruct (inside Ly Lx y x) eqn:Hin.
    + rewrite get_zeros by assumption. apply inside_spec in Hin.
      unfold edge_distance. symmetry. apply Z.ltb_ge. lia.
    + apply (get_rect _ Ly Lx); [apply rect_zeros | assumption].
  - rewrite Nat.iter_succ. unfold dilate_step at 1. rewrite get_tabulate_if.
    destruct (inside Ly Lx y x) eqn:Hin;
      [|unfold near_edge; now rewrite Hin].
    unfold touches, neighbours4. cbn [existsb fst snd].
    rewrite !IH. apply inside_spec in Hin.
    apply Bool.eq_iff_eq_true.
    rewrite !orb_true_iff, !near_edge_true.
    unfold edge_distance. split; [|lia].
    intros [H|[H|[H|[H|[H|H]]]]]; try discriminate; lia.
Qed.

End Ndimage.

(* ================================================================== *)
(** ** skimage.filters *)
(* ================================================================== *)

Module Skimage.
Import Np Ndimage.

(** [image > t], pointwise. *)
Definition gt_mask (image : grid Q) (t : Q) : grid bool :=
  map (map (fun v => Qgtb v t)) image.

(** Modelled from the spec: [filters.apply_hysteresis_threshold] belongs to
    scikit-image and is not under src/.  "Pixels above high seed a region;
    pixels above low connected to a seed are included": the components of
    [image > low] (4-connectivity, the default of [ndimage.label]) that
    hold a pixel of [image > high].  As in the library, [low] is first
    clipped so that it does not exceed [high]. *)
Definition apply_hysteresis_threshold (image : grid Q) (low high : Q)
  : grid bool :=
  let low := if Qle_bool low high then low else high in
  let mask_low := gt_mask image low in
  let mask_high := gt_mask image high in
  flood (nrows image) (ncols image) mask_low mask_high.

(** The same region in the words of the specification: a pixel above
    [high] is a seed, and a pixel above [low] next to a pixel of the region
    belongs to it. *)
Inductive hysteresis_region (Ly Lx : nat) (image : grid Q) (low high : Q)
  : Z -> Z -> Prop :=
| hr_seed y x :
    inside Ly Lx y x = true -> (high < get 0%Q image y x)%Q ->
    hysteresis_region Ly Lx image low high y x
| hr_grow y' x' y x :
    hysteresis_region Ly Lx image low high y' x' -> adjacent4 y' x' y x ->
    inside Ly Lx y x = true -> (low < get 0%Q image y x)%Q ->
    hysteresis_region Ly Lx image low high y x.

Lemma Qgtb_true v t : Qgtb v t = true <-> (t < v)%Q.
Proof.
  unfold Qgtb. rewrite negb_true_iff. split.
  - intros H. apply Qnot_le_lt. intros C. apply Qle_bool_iff in C. congruence.
  - intros H. destruct (Qle_bool v t) eqn:E; [|reflexivity].
    apply Qle_bool_iff in E. exfalso. apply (Qlt_not_le _ _ H E).
Qed.

Lemma get_map {A B} (f : A -> B) (d : A) (d' : B) Ly Lx g y x :
  rect Ly Lx g -> inside Ly Lx y x = true ->
  get d' (map (map f) g) y x = f (get d g y x).
Proof.
  intros [HL HF] H. apply inside_spec in H. unfold get.
  destruct (Z.leb_spec 0 y); [|lia]. destruct (Z.leb_spec 0 x); [|lia].
  simpl. change (@nil B) with (map f []). rewrite map_nth.
  assert (Hin : In (nth (Z.to_nat y) g []) g) by (apply nth_In; lia).
  rewrite Forall_forall in HF. specialize (HF _ Hin).
  rewrite (nth_indep _ d' (f d)).
  - apply map_nth.
  - rewrite length_map, HF. lia.
Qed.

Lemma get_gt_mask Ly Lx image t y x :
  rect Ly Lx image -> inside Ly Lx y x = true ->
  (get false (gt_mask image t) y x = true <-> (t < get 0%Q image y x)%Q).
Proof.
  intros HR Hin. unfold gt_mask.
  rewrite (get_map _ 0%Q false Ly Lx) by assumption. apply Qgtb_true.
Qed.

Lemma rect_shape {A} Ly Lx (g : grid A) y x :
  rect Ly Lx g -> inside Ly Lx y x = true -> nrows g = Ly /\ ncols g = Lx.
Proof.
  intros [HL HF] H. apply inside_spec in H. unfold nrows, ncols.
  split; [assumption|]. destruct g as [|r g]; simpl in *; [lia|].
  now inversion HF.
Qed.

(** The executable threshold marks exactly the region of the
    specification, whenever [low <= high]. *)
Lemma hysteresis_refines Ly Lx image low high y x :
  rect Ly Lx image -> (low <= high)%Q -> inside Ly Lx y x = true ->
  (get false (apply_hysteresis_threshold image low high) y x = true <->
   hysteresis_region Ly Lx image low high y x).
Proof.
  intros HR Hle Hin. unfold apply_hysteresis_threshold.
  destruct (rect_shape _ _ _ _ _ HR Hin) as [-> ->].
  assert (E : Qle_bool low high = true) by now apply Qle_bool_iff.
  rewrite E. rewrite flood_spec. clear Hin. split.
  - induction 1 as [y x Hi Ha Hs | y' x' y x _ IH Hadj Hi Ha].
    + apply hr_seed; [assumption|].
      apply (get_gt_mask Ly Lx) in Hs; assumption.
    + eapply hr_grow; eauto. apply (get_gt_mask Ly Lx) in Ha; assumption.
  - induction 1 as [y x Hi Hs | y' x' y x _ IH Hadj Hi Ha].
    + apply conn_seed; [assumption| |].
      * apply (get_gt_mask Ly Lx); auto. eapply Qle_lt_trans; eauto.
      * apply (get_gt_mask Ly Lx); assumption.
    + eapply conn_step; eauto. apply (get_gt_mask Ly Lx); assumption.
Qed.

End Skimage.

(* ================================================================== *)
(** ** fastremap *)
(* ================================================================== *)

Module Fastremap.
Import Np.

Fixpoint lookup (k : Z) (tbl : list (Z * Z)) : option Z :=
  match tbl with
  | [] => None
  | (k', w) :: tbl' => if k =? k' then Some w else lookup k tbl'
  end.

(** Modelled from the spec: [fastremap.renumber] is a third-party routine,
    not under src/.  "Renumber remaining labels to a dense contiguous
    sequence with no gaps ... not necessarily original numeric order": one
    pass over the array in memory order with a remap table that starts as
    {0: 0} (zero is preserved); a value met for the first time receives
    the next unused id, counted from 1.  The state is the table and the
    next id. *)
Fixpoint renumber_from (tbl : list (Z * Z)) (next : Z) (l : list Z)
  : list Z * (list (Z * Z) * Z) :=
  match l with
  | [] => ([], (tbl, next))
  | v :: l' =>
      match lookup v tbl with
      | Some w =>
          let '(out, st) := renumber_from tbl next l' in (w :: out, st)
      | None =>
          let '(out, st) := renumber_from ((v, next) :: tbl) (next + 1) l' in
          (next :: out, st)
      end
  end.

Definition renumber_list (l : list Z) : list Z :=
  fst (renumber_from [(0, 0)] 1 l).

(** The same pass over a 2-D array stored row by row. *)
Fixpoint renumber_rows (tbl : list (Z * Z)) (next : Z) (g : grid Z)
  : grid Z :=
  match g with
  | [] => []
  | r :: g' =>
      let '(out, (tbl', next')) := renumber_from tbl next r in
      out :: renumber_rows tbl' next' g'
  end.

Definition renumber (g : grid Z) : grid Z := renumber_rows [(0, 0)] 1 g.

(** Table invariant: ids handed out so far are [0 .. next-1], each to one
    key, and 0 is mapped to 0. *)
Record table_ok (tbl : list (Z * Z)) (next : Z) : Prop := {
  tbl_range : forall k w, lookup k tbl = Some w -> 0 <= w < next;
  tbl_inj : forall k k' w,
      lookup k tbl = Some w -> lookup k' tbl = Some w -> k = k';
  tbl_zero : lookup 0 tbl = Some 0
}.

Lemma table_ok_init : table_ok [(0, 0)] 1.
Proof.
  split.
  - intros k w. simpl. destruct (k =? 0); [|discriminate].
    intros E. inversion E. lia.
  - intros k k' w. simpl.
    destruct (Z.eqb_spec k 0); [|discriminate].
    destruct (Z.eqb_spec k' 0); [|discriminate]. congruence.
  - reflexivity.
Qed.

Lemma table_ok_insert tbl next v :
  table_ok tbl next -> lookup v tbl = None ->
  table_ok ((v, next) :: tbl) (next + 1).
Proof.
  intros [Hr Hi Hz] Hv. split.
  - intros k w. simpl. destruct (Z.eqb_spec k v).
    + intros E. inversion E. subst.
      specialize (Hr 0 0 Hz). lia.
    + intros E. specialize (Hr _ _ E). lia.
  - intros k k' w. simpl.
    destruct (Z.eqb_spec k v); destruct (Z.eqb_spec k' v); intros E E'.
    + congruence.
    + inversion E. subst. specialize (Hr _ _ E'). lia.
    + inversion E'. subst. specialize (Hr _ _ E). lia.
    + eapply Hi; eauto.
  - cbn [lookup]. destruct (Z.eqb_spec 0 v); [|assumption].
    subst. congruence.
Qed.

Lemma renumber_from_app tbl next l1 l2 :
  renumber_from tbl next (l1 ++ l2) =
  let '(o1, (t1, n1)) := renumber_from tbl next l1 in
  let '(o2, st) := renumber_from t1 n1 l2 in
  (o1 ++ o2, st).
Proof.
  revert tbl next. induction l1 as [|v l1 IH]; intros tbl next; simpl.
  - destruct (renumber_from tbl next l2). reflexivity.
  - destruct (lookup v tbl).
    + rewrite IH. destruct (renumber_from tbl next l1) as [o1 [t1 n1]].
      destruct (renumber_from t1 n1 l2). reflexivity.
    + rewrite IH.
      destruct (renumber_from ((v, next) :: tbl) (next + 1) l1)
        as [o1 [t1 n1]].
      destruct (renumber_from t1 n1 l2). reflexivity.
Qed.

Lemma concat_renumber_rows tbl next g :
  concat (renumber_rows tbl next g) =
  fst (renumber_from tbl next (concat g)).
Proof.
  revert tbl next. induction g as [|r g IH]; intros tbl next; simpl;
    [reflexivity|].
  rewrite renumber_from_app.
  destruct (renumber_from tbl next r) as [o1 [t1 n1]]. simpl.
  rewrite IH. destruct (renumber_from t1 n1 (concat g)). reflexivity.
Qed.

Lemma length_renumber_from tbl next l :
  length (fst (renumber_from tbl next l)) = length l.
Proof.
  revert tbl next. induction l as [|v l IH]; intros tbl next; simpl;
    [reflexivity|].
  destruct (lookup v tbl).
  - specialize (IH tbl next).
    destruct (renumber_from tbl next l). simpl in *. now rewrite IH.
  - specialize (IH ((v, next) :: tbl) (next + 1)).
    destruct (renumber_from ((v, next) :: tbl) (next + 1) l).
    simpl in *. now rewrite IH.
Qed.

Lemma lengths_renumber_rows tbl next g :
  map (@length Z) (renumber_rows tbl next g) = map (@length Z) g.
Proof.
  revert tbl next. induction g as [|r g IH]; intros tbl next; simpl;
    [reflexivity|].
  pose proof (length_renumber_from tbl next r) as HL.
  destruct (renumber_from tbl next r) as [o1 [t1 n1]]. simpl in *.
  now rewrite HL, IH.
Qed.

Lemma concat_renumber g : concat (renumber g) = renumber_list (concat g).
Proof. apply concat_renumber_rows. Qed.

(** What one pass establishes. *)
Lemma renumber_from_spec l : forall tbl next,
  table_ok tbl next ->
  forall out tbl' next', renumber_from tbl next l = (out, (tbl', next')) ->
  table_ok tbl' next' /\ next <= next' /\
  (forall k w, lookup k tbl = Some w -> lookup k tbl' = Some w) /\
  Forall2 (fun v w => lookup v tbl' = Some w) l out /\
  (forall w, next <= w < next' -> In w out).
Proof.
  induction l as [|v l IH]; intros tbl next Hok out tbl' next' E; simpl in E.
  - inversion E; subst.
    split; [assumption|]. split; [lia|]. split; [auto|].
    split; [constructor|]. intros; lia.
  - destruct (lookup v tbl) as [w|] eqn:Lv.
    + destruct (renumber_from tbl next l) as [o [t n]] eqn:R.
      inversion E; subst.
      destruct (IH _ _ Hok _ _ _ R) as [Hok' [Hle [Hext [HF Hon]]]].
      split; [assumption|]. split; [assumption|]. split; [assumption|].
      split; [constructor; auto|].
      intros w' Hw'. right. now apply Hon.
    + destruct (renumber_from ((v, next) :: tbl) (next + 1) l)
        as [o [t n]] eqn:R.
      inversion E; subst.
      pose proof (table_ok_insert _ _ _ Hok Lv) as Hok1.
      destruct (IH _ _ Hok1 _ _ _ R) as [Hok' [Hle [Hext [HF Hon]]]].
      split; [assumption|]. split; [lia|]. split; [|split].
      * intros k w Hk. apply Hext. cbn [lookup].
        destruct (Z.eqb_spec k v); [subst; congruence | assumption].
      * constructor; [|assumption]. apply Hext. cbn [lookup].
        now rewrite Z.eqb_refl.
      * intros w Hw. destruct (Z.eq_dec w next) as [->|Hne];
          [left; reflexivity | right; apply Hon; lia].
Qed.

(** Largest value of a label array (0 for the empty array). *)
Definition max_label (L : list Z) : Z := fold_right Z.max 0 L.

(** The distinct positive labels of a label array. *)
Definition positive_labels (L : list Z) : list Z :=
  nodup Z.eq_dec (filter (fun v => 0 <? v) L).

Lemma max_label_ge L v : In v L -> v <= max_label L.
Proof.
  induction L as [|a L IH]; simpl; intros H; [destruct H|].
  destruct H as [->|H]; [lia | specialize (IH H); lia].
Qed.

Lemma max_label_le L b :
  0 <= b -> (forall v, In v L -> v <= b) -> max_label L <= b.
Proof.
  intros Hb. induction L as [|a L IH]; simpl; intros H; [assumption|].
  assert (a <= b) by (apply H; auto).
  assert (max_label L <= b) by (apply IH; intros; apply H; auto). lia.
Qed.

Lemma max_label_nonneg L : 0 <= max_label L.
Proof. induction L; simpl; lia. Qed.

Lemma length_interval (l : list Z) (K : Z) :
  0 <= K -> NoDup l -> (forall v, In v l <-> 1 <= v <= K) ->
  Z.of_nat (length l) = K.
Proof.
  intros HK Hnd Hin.
  assert (P : Permutation l (map Z.of_nat (seq 1 (Z.to_nat K)))).
  { apply NoDup_Permutation; [assumption | |].
    - apply Finite.Injective_map_NoDup; [|apply seq_NoDup].
      intros a b. apply Nat2Z.inj.
    - intros v. rewrite Hin, in_map_iff. split.
      + intros Hv. exists (Z.to_nat v). split; [lia|]. apply in_seq. lia.
      + intros [n [<- Hn]]. apply in_seq in Hn. lia. }
  rewrite (Permutation_length P), length_map, length_seq. lia.
Qed.

(** A label array is dense when 0 is its only non-positive value, every
    integer from 1 to its maximum occurs in it, and that maximum is the
    number of distinct positive labels. *)
Definition dense (L : list Z) : Prop :=
  (forall v, In v L -> 0 <= v) /\
  (forall k, 1 <= k <= max_label L -> In k L) /\
  max_label L = Z.of_nat (length (positive_labels L)).

Lemma dense_of_range (L : list Z) (K : Z) :
  0 <= K -> (forall v, In v L -> 0 <= v <= K) ->
  (forall w, 1 <= w <= K -> In w L) -> dense L.
Proof.
  intros HK Hr Hon.
  assert (Hmax : max_label L = K).
  { apply Z.le_antisymm.
    - apply max_label_le; [assumption|]. intros v Hv. apply Hr in Hv. lia.
    - destruct (Z.eq_dec K 0) as [->|Hne]; [apply max_label_nonneg|].
      apply max_label_ge. apply Hon. lia. }
  repeat split.
  - intros v Hv. apply Hr in Hv. lia.
  - intros k Hk. apply Hon. lia.
  - rewrite Hmax. symmetry. apply length_interval; [assumption | |].
    + apply NoDup_nodup.
    + intros v. unfold positive_labels. rewrite nodup_In, filter_In.
      rewrite Z.ltb_lt. split.
      * intros [Hv Hp]. apply Hr in Hv. lia.
      * intros Hv. split; [apply Hon; assumption | lia].
Qed.

Lemma renumber_list_dense l : dense (renumber_list l).
Proof.
  unfold renumber_list.
  destruct (renumber_from [(0, 0)] 1 l) as [out [tbl' next']] eqn:R.
  destruct (renumber_from_spec l _ _ table_ok_init _ _ _ R)
    as [Hok [Hle [_ [HF Hon]]]]. simpl.
  apply (dense_of_range out (next' - 1)); [lia | |].
  - intros v Hv.
    assert (exists k, lookup k tbl' = Some v) as [k Hk].
    { clear -HF Hv. induction HF as [|a b l o Hab _ IH]; [destruct Hv|].
      destruct Hv as [<-|Hv]; [eauto | auto]. }
    apply (tbl_range _ _ Hok) in Hk. lia.
  - intros w Hw. apply Hon. lia.
Qed.

(** *** Renumbering a renumbered array changes nothing *)

(** Arrays in which every new value is the next unused id. *)
Fixpoint canon (next : Z) (l : list Z) : Prop :=
  match l with
  | [] => True
  | v :: l' =>
      (0 <= v < next /\ canon next l') \/ (v = next /\ canon (next + 1) l')
  end.

Definition id_table (tbl : list (Z * Z)) (next : Z) : Prop :=
  forall v, lookup v tbl =
            if (0 <=? v) && (v <? next) then Some v else None.


Lemma renumber_canon_id l : forall tbl next,
  id_table tbl next -> 0 <= next -> canon next l ->
  fst (renumber_from tbl next l) = l.
Proof.
  induction l as [|v l IH]; intros tbl next Hid Hn Hc; simpl; [reflexivity|].
  simpl in Hc. rewrite (Hid v). destruct Hc as [[Hv Hc]|[-> Hc]].
  - destruct (Z.leb_spec 0 v); [|lia]. destruct (Z.ltb_spec v next); [|lia].
    simpl. specialize (IH _ _ Hid Hn Hc).
    destruct (renumber_from tbl next l). simpl in *. now rewrite IH.
  - destruct (Z.ltb_spec next next); [lia|]. rewrite andb_false_r.
    assert (Hid' : id_table ((next, next) :: tbl) (next + 1)).
    { intros v. cbn [lookup]. rewrite (Hid v).
      destruct (Z.eqb_spec v next) as [->|Hne].
      - destruct (Z.leb_spec 0 next); [|lia].
        destruct (Z.ltb_spec next (next + 1)); [reflexivity | lia].
      - destruct (Z.leb_spec 0 v); simpl; [|reflexivity].
        destruct (Z.ltb_spec v next); destruct (Z.ltb_spec v (next + 1));
          try reflexivity; lia. }
    specialize (IH _ _ Hid' ltac:(lia) Hc).
    destruct (renumber_from ((next, next) :: tbl) (next + 1) l).
    simpl in *. now rewrite IH.
Qed.

Lemma id_table_init : id_table [(0, 0)] 1.
Proof.
  intros v. cbn [lookup]. destruct (Z.eqb_spec v 0) as [->|Hne];
    [reflexivity|].
  destruct (Z.leb_spec 0 v); simpl; [|reflexivity].
  destruct (Z.ltb_spec v 1); [lia | reflexivity].
Qed.


End Fastremap.

(* ================================================================== *)
(** ** Exceptions and integer-array indexing *)
(* ================================================================== *)

Inductive exn : Type := IndexError | ValueError.

Inductive result (A : Type) : Type :=
| Ok (a : A)
| Raise (e : exn).
Arguments Ok {A} a.
Arguments Raise {A} e.

Definition rbind {A B} (r : result A) (k : A -> result B) : result B :=
  match r with
  | Ok a => k a
  | Raise e => Raise e
  end.

Module Fancy.
Import Np.

Fixpoint set_nth {A} (n : nat) (v : A) (l : list A) : list A :=
  match l, n with
  | [], _ => []
  | _ :: t, O => v :: t
  | h :: t, S k => h :: set_nth k v t
  end.

(** [a[i]] on a flat array. *)
Definition take {A} (d : A) (a : list A) (i : Z) : result A :=
  match index (length a) i with
  | Some n => Ok (nth n a d)
  | None => Raise IndexError
  end.

(** [a[i] = v] on a flat array. *)
Definition put {A} (a : list A) (i : Z) (v : A) : result (list A) :=
  match index (length a) i with
  | Some n => Ok (set_nth n v a)
  | None => Raise IndexError
  end.

(** [a[idx]] with an integer index array. *)
Fixpoint gather {A} (d : A) (a : list A) (idx : list Z) : result (list A) :=
  match idx with
  | [] => Ok []
  | i :: idx' =>
      rbind (take d a i) (fun v =>
      rbind (gather d a idx') (fun vs => Ok (v :: vs)))
  end.

(** [a[idx] = vals]: the assignments are made in order, so the last one
    to an index wins; a single value is broadcast, any other length
    mismatch is a ValueError. *)
Fixpoint scatter_zip {A} (a : list A) (iv : list (Z * A)) : result (list A) :=
  match iv with
  | [] => Ok a
  | (i, v) :: iv' => rbind (put a i v) (fun a' => scatter_zip a' iv')
  end.

Definition broadcast {A I} (idx : list I) (vals : list A)
  : result (list (I * A)) :=
  if Nat.eqb (length vals) (length idx) then Ok (combine idx vals)
  else match vals with
       | [v] => Ok (map (fun i => (i, v)) idx)
       | _ => Raise ValueError
       end.

Definition scatter {A} (a : list A) (idx : list Z) (vals : list A)
  : result (list A) :=
  rbind (broadcast idx vals) (scatter_zip a).

(** The same for a 2-D array indexed by a pair of index arrays. *)
Definition take2 {A} (d : A) (g : grid A) (yx : Z * Z) : result A :=
  rbind (take [] g (fst yx)) (fun row => take d row (snd yx)).

Definition put2 {A} (g : grid A) (yx : Z * Z) (v : A) : result (grid A) :=
  match index (length g) (fst yx) with
  | Some n =>
      rbind (put (nth n g []) (snd yx) v) (fun row => Ok (set_nth n row g))
  | None => Raise IndexError
  end.

Fixpoint gather2 {A} (d : A) (g : grid A) (idx : list (Z * Z))
  : result (list A) :=
  match idx with
  | [] => Ok []
  | i :: idx' =>
      rbind (take2 d g i) (fun v =>
      rbind (gather2 d g idx') (fun vs => Ok (v :: vs)))
  end.

Fixpoint scatter2_zip {A} (g : grid A) (iv : list ((Z * Z) * A))
  : result (grid A) :=
  match iv with
  | [] => Ok g
  | (i, v) :: iv' => rbind (put2 g i v) (fun g' => scatter2_zip g' iv')
  end.

Definition scatter2 {A} (g : grid A) (idx : list (Z * Z)) (vals : list A)
  : result (grid A) :=
  rbind (broadcast idx vals) (scatter2_zip g).

Lemma length_set_nth {A} n (v : A) l : length (set_nth n v l) = length l.
Proof.
  revert n. induction l as [|h t IH]; intros [|n]; simpl; auto.
Qed.

Lemma nth_set_nth {A} n m (v d : A) l :
  (n < length l)%nat ->
  nth m (set_nth n v l) d = if Nat.eqb m n then v else nth m l d.
Proof.
  revert n m. induction l as [|h t IH]; intros [|n] [|m] H; simpl in *;
    try lia; auto.
  apply IH. lia.
Qed.

Lemma index_inside n i :
  0 <= i < Z.of_nat n -> index n i = Some (Z.to_nat i).
Proof.
  intros H. unfold index.
  destruct (Z.leb_spec 0 i); [|lia]. destruct (Z.ltb_spec i (Z.of_nat n));
    [reflexivity | lia].
Qed.

Lemma index_some n i k : index n i = Some k -> (k < n)%nat.
Proof.
  unfold index.
  destruct (Z.leb_spec 0 i); destruct (Z.ltb_spec i (Z.of_nat n)); simpl;
    try (intros E; inversion E; lia);
    destruct (Z.leb_spec (- Z.of_nat n) i); destruct (Z.ltb_spec i 0);
    simpl; intros E; inversion E; lia.
Qed.

End Fancy.

(* ================================================================== *)
(** ** cellpose.utils: the mask sanitizer *)
(* ================================================================== *)

Module Utils.
Import Np Ndimage.

Definition background (g : grid Z) : grid bool :=
  map (map (fun v => v =? 0)) g.

Definition on_border (Ly Lx : nat) : grid bool :=
  tabulate Ly Lx (fun y x =>
    (y =? 0) || (y =? Z.of_nat Ly - 1) || (x =? 0) || (x =? Z.of_nat Lx - 1)).

Definition single (Ly Lx : nat) (y0 x0 : Z) : grid bool :=
  tabulate Ly Lx (fun y x => (y =? y0) && (x =? x0)).

(** The labels of the pixels that touch the pixel set [C]. *)
Definition enclosing_labels (g : grid Z) (C : grid bool) : list Z :=
  nodup Z.eq_dec
    (flat_map (fun p : Z * Z =>
                 let v := get 0 g (fst p) (snd p) in
                 if negb (v =? 0) && touches false C (fst p) (snd p)
                 then [v] else [])
              (coords (nrows g) (ncols g))).

(** Modelled from the spec: [utils.fill_holes_and_remove_small_masks] is
    not under src/.  Step (1), "fill topologically interior holes within
    each labeled region (a hole is a background-labeled pixel set fully
    enclosed by one foreground label)"; "boundary-connected background is
    never a hole".  A background pixel that is not joined to the image
    border through background takes the label of the region around its
    background component when that component touches exactly one label. *)
Definition fill_holes (g : grid Z) : grid Z :=
  let Ly := nrows g in
  let Lx := ncols g in
  let bg := background g in
  let outside := flood Ly Lx bg (on_border Ly Lx) in
  tabulate Ly Lx (fun y x =>
    let v := get 0 g y x in
    if (v =? 0) && negb (get false outside y x) then
      match enclosing_labels g (flood Ly Lx bg (single Ly Lx y x)) with
      | [l] => l
      | _ => 0
      end
    else v).

Definition pixel_count (v : Z) (l : list Z) : Z :=
  Z.of_nat (count_if (Z.eqb v) l).

Definition keep_label (min_size : Z) (l : list Z) (v : Z) : Z :=
  if negb (v =? 0) && (pixel_count v l <? min_size) then 0 else v.

(** Modelled from the spec: step (2), "discard any instance whose pixel
    count is below min_size (a value of -1 disables this filter)". *)
Definition remove_small (min_size : Z) (g : grid Z) : grid Z :=
  map (map (keep_label min_size (concat g))) g.

(** Modelled from the spec: steps (1) and (2) "in this fixed order". *)
Definition fill_holes_and_remove_small_masks (masks : grid Z) (min_size : Z)
  : grid Z :=
  remove_small min_size (fill_holes masks).


Lemma map_map_id {A} (f : A -> A) (g : grid A) :
  (forall v, In v (concat g) -> f v = v) -> map (map f) g = g.
Proof.
  induction g as [|r g IH]; simpl; intros H; [reflexivity|].
  f_equal.
  - rewrite <- (map_id r) at 2. apply map_ext_in. intros v Hv.
    apply H. apply in_or_app. now left.
  - apply IH. intros v Hv. apply H. apply in_or_app. now right.
Qed.








End Utils.

(* ================================================================== *)
(** ** The cleanup at the end of [_compute_masks] (lines 794-795) *)
(* ================================================================== *)

Module Cleanup.
Import Np.

(** [mask = utils.fill_holes_and_remove_small_masks(mask, min_size)]
    followed by [fastremap.renumber(mask, in_place=True)] on a 2-D label
    array. *)
Definition sanitize (mask : grid Z) (min_size : Z) : grid Z :=
  Fastremap.renumber (Utils.fill_holes_and_remove_small_masks mask min_size).

Lemma grid_eq_of_concat {A} (a b : grid A) :
  map (@length A) a = map (@length A) b -> concat a = concat b -> a = b.
Proof.
  revert b. induction a as [|r a IH]; intros [|s b] HL HC; simpl in *;
    try discriminate; [reflexivity|].
  inversion HL as [[Hrs Hab]].
  assert (r = s /\ concat a = concat b) as [-> HC'].
  { clear IH HL Hab. revert s Hrs HC.
    induction r as [|x r IHr]; intros [|y s] Hrs HC; simpl in *;
      try discriminate; [auto|].
    inversion Hrs. inversion HC. subst.
    destruct (IHr s) as [-> E]; auto. }
  f_equal. now apply IH.
Qed.




End Cleanup.

(* ================================================================== *)
(** ** cellpose.models *)
(* ================================================================== *)

Module Models.
Import Np.

(** A 2-D flow field [dP]: the pair of its components [dP[0]] (along y)
    and [dP[1]] (along x). *)
Definition vfield : Type := (grid Q * grid Q)%type.

(** The label array handed to the cleanup: 2-D, or 0-d when numpy is
    asked for [np.zeros(None)] (an alias of [np.zeros(())]). *)
Inductive ndarray : Type :=
| Scalar (v : Z)
| Matrix (g : grid Z).

Definition np_zeros (shape : option (nat * nat)) : ndarray :=
  match shape with
  | None => Scalar 0
  | Some (h, w) => Matrix (zeros 0 h w)
  end.

(** A neighbourhood radius given exactly: a rational, or the square root
    of a rational ([np.sqrt(2)]). *)
Inductive radius : Type :=
| Exact (q : Q)
| Sqrt (q : Q).

(** Calls to the collaborators that advect and cluster. *)
Inductive event : Type :=
| EvFollowFlows (niter : option Q)
| EvGetMasks
| EvDBSCAN (eps : radius) (min_samples : Z)
| EvLabel (connectivity : Z).

(** Arrays that are updated in place live in a store; [calls] records the
    collaborator calls in the order they are made. *)
Record state : Type := {
  heap : nat -> vfield;
  next_loc : nat;
  calls : list event
}.

(** Computations that read and write the store and may raise; the store
    survives an exception. *)
Definition M (A : Type) : Type := state -> result A * state.

Definition ret {A} (a : A) : M A := fun s => (Ok a, s).

Definition bind {A B} (c : M A) (k : A -> M B) : M B :=
  fun s => match c s with
           | (Ok a, s') => k a s'
           | (Raise e, s') => (Raise e, s')
           end.

Definition lift {A} (r : result A) : M A := fun s => (r, s).

Definition emit (e : event) : M unit :=
  fun s => (Ok tt, {| heap := heap s; next_loc := next_loc s;
                      calls := calls s ++ [e] |}).

Definition read (l : nat) : M vfield := fun s => (Ok (heap s l), s).

Definition alloc (v : vfield) : M nat :=
  fun s => (Ok (next_loc s),
            {| heap := fun l => if Nat.eqb l (next_loc s) then v else heap s l;
               next_loc := S (next_loc s);
               calls := calls s |}).

(** [a op= ...]: the array at [l] is overwritten. *)
Definition update (l : nat) (f : vfield -> vfield) : M unit :=
  fun s => (Ok tt,
            {| heap := fun l' =>
                 if Nat.eqb l' l then f (heap s l) else heap s l';
               next_loc := next_loc s;
               calls := calls s |}).

Notation "x <- c ;; k" := (bind c (fun x => k))
  (at level 61, c at next level, right associativity).
Notation "c ;;; k" := (bind c (fun _ => k))
  (at level 61, right associativity).

(** *** Pointwise array arithmetic *)

Definition mul_mask (v : vfield) (mask : grid bool) : vfield :=
  let f := fun (a : Q) (m : bool) => (a * (if m then 1 else 0))%Q in
  (map2 f (fst v) mask, map2 f (snd v) mask).

Definition div_scalar (v : vfield) (c : Q) : vfield :=
  (map (map (fun a => a / c)%Q) (fst v), map (map (fun a => a / c)%Q) (snd v)).

Definition mul_grid (v : vfield) (d : grid Q) : vfield :=
  (map2 Qmult (fst v) d, map2 Qmult (snd v) d).

(** [a[mask]]: the selected entries in row-major order. *)
Definition select {A} (a : grid A) (mask : grid bool) : list A :=
  flat_map (fun rm : list A * list bool =>
              flat_map (fun am : A * bool => if snd am then [fst am] else [])
                       (combine (fst rm) (snd rm)))
           (combine a mask).

(** [dst[m] = src[m]] and [dst[m] = c] for arrays of one shape. *)
Definition assign_where (m src dst : grid bool) : grid bool :=
  tabulate (nrows dst) (ncols dst) (fun y x =>
    if get false m y x then get false src y x else get false dst y x).

Definition assign_const (m : grid bool) (c : bool) (dst : grid bool)
  : grid bool :=
  tabulate (nrows dst) (ncols dst) (fun y x =>
    if get false m y x then c else get false dst y x).

(** [np.rint]: round to the nearest integer, halves to the even one. *)
Definition rint (q : Q) : Z :=
  let f := Qfloor q in
  let r := (q - inject_Z f)%Q in
  if Qgtb (1 # 2) r then f
  else if Qgtb r (1 # 2) then f + 1
  else if Z.even f then f else f + 1.

(** [np.reshape(a, n)] and [a.shape = (Ly, Lx)]. *)
Definition flatten {A} (g : grid A) (n : nat) : result (list A) :=
  if Nat.eqb (length (concat g)) n then Ok (concat g) else Raise ValueError.

Fixpoint chunks {A} (rows width : nat) (l : list A) : grid A :=
  match rows with
  | O => []
  | S k => firstn width l :: chunks k width (skipn width l)
  end.

Definition reshape2 {A} (l : list A) (Ly Lx : nat) : result (grid A) :=
  if Nat.eqb (length l) (Ly * Lx) then Ok (chunks Ly Lx l)
  else Raise ValueError.

Fixpoint map_result {A B} (f : A -> result B) (l : list A)
  : result (list B) :=
  match l with
  | [] => Ok []
  | a :: l' =>
      rbind (f a) (fun b => rbind (map_result f l') (fun bs => Ok (b :: bs)))
  end.

(** *** The iteration budget of [_run_cp] (line 628)

    [niter = 200 if do_3D else (1 / rescale * 200)] *)
Definition niter (do_3D : bool) (rescale : Q) : Q :=
  if do_3D then 200%Q else (1 / rescale * 200)%Q.

(** *** The seed mask (lines 668-671) *)
Definition seed_mask (skel : bool) (dist : grid Q) (dist_threshold : Q)
  : grid bool :=
  if skel
  then Skimage.apply_hysteresis_threshold dist (dist_threshold - 1)%Q
                                          dist_threshold
  else Skimage.gt_mask dist dist_threshold.

(** *** The divergence of the flow (lines 718-728) *)

(** [pad = 1] *)
Definition pad : Z := 1.

Definition flat_index (Lx : Z) (yx : Z * Z) : Z := fst yx * Lx + snd yx.

(** The flat indices read from [Ty] and from [Tx] for the pixel (Y, X), in
    the order of line 727-728; their weights are 1, 8, -8, -1. *)
Definition stencil_taps_y (Lx Y X : Z) : list Z :=
  [(Y + 2) * Lx + X; (Y + 1) * Lx + X; (Y - 1) * Lx + X; (Y - 2) * Lx + X].

Definition stencil_taps_x (Lx Y X : Z) : list Z :=
  [Y * Lx + X + 2; Y * Lx + X + 1; Y * Lx + X - 1; Y * Lx + X - 2].

Definition padded_size (Ly Lx : Z) : nat :=
  Z.to_nat ((Ly + 2 * pad) * (Lx + 2 * pad)).

(** [T = np.zeros((Ly+2*pad)*(Lx+2*pad))] followed by
    [T[Y*Lx+X] = np.reshape(comp, Ly*Lx)[Y*Lx+X]]. *)
Definition padded_buffer (comp : grid Q) (Ly Lx : nat) (YX : list (Z * Z))
  : result (list Q) :=
  let idx := map (flat_index (Z.of_nat Lx)) YX in
  rbind (flatten comp (Ly * Lx)) (fun flat =>
  rbind (Fancy.gather 0%Q flat idx) (fun vals =>
  Fancy.scatter (repeat 0%Q (padded_size (Z.of_nat Ly) (Z.of_nat Lx)))
                idx vals)).

Definition stencil (Tx Ty : list Q) (Lx : Z) (yx : Z * Z) : result Q :=
  rbind (Fancy.gather 0%Q Ty (stencil_taps_y Lx (fst yx) (snd yx))) (fun ty =>
  rbind (Fancy.gather 0%Q Tx (stencil_taps_x Lx (fst yx) (snd yx))) (fun tx =>
  match ty, tx with
  | [a; b; c; d], [e; f; g; h] =>
      Ok (a + 8 * b - 8 * c - d + e + 8 * f - 8 * g - h)%Q
  | _, _ => Raise ValueError
  end)).

Definition divergence (mask : grid bool) (dP : vfield) (Ly Lx : nat)
  : result (list Q) :=
  let YX := nonzero mask in
  let idx := map (flat_index (Z.of_nat Lx)) YX in
  rbind (padded_buffer (snd dP) Ly Lx YX) (fun Tx =>
  rbind (padded_buffer (fst dP) Ly Lx YX) (fun Ty =>
  rbind (map_result (stencil Tx Ty (Z.of_nat Lx)) YX) (fun vals =>
  Fancy.scatter (repeat 0%Q (Ly * Lx)) idx vals))).

(** *** Border correction of the skeleton (lines 754-767) *)
Definition border_band (skelmask : grid bool) : grid bool :=
  Ndimage.binary_dilation (zeros false (nrows skelmask) (ncols skelmask))
                          true 5.

Definition border_correct (nclasses : Z) (bd : grid Q) (skelmask : grid bool)
  : grid bool :=
  let border_mask := zeros false (nrows skelmask) (ncols skelmask) in
  let border_px := border_mask in
  let border_mask := Ndimage.binary_dilation border_mask true 5 in
  let border_px := assign_where border_mask skelmask border_px in
  let border_px :=
    if nclasses =? 4
    then assign_const (Skimage.gt_mask bd (-1)%Q) false border_px
    else Ndimage.binary_opening border_px false 3 in
  assign_where border_mask border_px skelmask.

(** *** The cleanup (lines 794-795)

    Modelled from the spec: the sanitizer works on label grids "same shape
    as S"; an array of another rank is rejected (ValueError), as a rank
    mismatch is in the specification's error taxonomy. *)
Definition cleanup (mask : ndarray) (min_size : Z) : result ndarray :=
  match mask with
  | Matrix g => Ok (Matrix (Cleanup.sanitize g min_size))
  | Scalar _ => Raise ValueError
  end.

(** *** Collaborators

    Routines of dynamics, transforms, utils, sklearn, skimage.measure and
    cv2 that [_compute_masks] calls.  They are taken as functions of the
    values they receive and return fresh arrays. *)
Record collaborators : Type := {
  step : Type;
  follow_flows : vfield -> grid bool -> option Q -> bool -> bool -> bool ->
                 vfield * list (Z * Z) * list step;
  get_masks : vfield -> grid bool -> vfield -> option Q -> grid Z;
  dist_to_diam : list Q -> Q;
  diameters : grid bool -> bool -> Q * Q;
  normalize_field : vfield -> vfield;
  normalize99 : list Q -> list Q;
  DBSCAN : radius -> Z -> list (Q * Q) -> list Z;
  label : grid bool -> Z -> grid Z;
  resize_image : grid Z -> nat -> nat -> grid Z;
  cv2_resize : grid Q -> nat -> nat -> grid Q
}.

(** Keyword arguments of [_compute_masks]. *)
Record options : Type := {
  niter_opt : Q;
  dist_threshold : Q;
  diam_threshold : Q;
  flow_threshold : Q;
  interp : bool;
  cluster : bool;
  do_3D : bool;
  min_size : Z;
  resize : option (nat * nat);
  skel : bool;
  calc_trace : bool
}.

Section Pipeline.
Variable E : collaborators.
(** [self.nclasses] *)
Variable nclasses : Z.

(** Lines 674-687: the original algorithm. *)
Definition original_algorithm (dP : nat) (mask : grid bool)
    (p : option vfield) (o : options)
  : M (grid Z * vfield * list (step E)) :=
  ptr <- match p with
         | None =>
             v <- read dP ;;
             emit (EvFollowFlows (Some (niter_opt o))) ;;;
             let '(p, _, tr) :=
               follow_flows E (div_scalar (mul_mask v mask) 5) mask
                            (Some (niter_opt o)) (interp o) (skel o)
                            (calc_trace o) in
             ret (p, tr)
         | Some p => ret (p, [])
         end ;;
  flows <- read dP ;;
  emit EvGetMasks ;;;
  ret (get_masks E (fst ptr) mask flows
                 (if do_3D o then None else Some (flow_threshold o)),
       fst ptr, snd ptr).

(** Lines 691-698: mean diameter and clustering radius. *)
Definition estimate_diameter (dist : grid Q) (mask : grid bool)
    (skel : bool) : Q * radius :=
  if nclasses =? 4
  then (dist_to_diam E (map Qabs (select dist mask)), Exact (1 + 1 / 3))
  else (fst (diameters E mask skel), Sqrt 2).

(** Lines 743-748: density clustering of the landing coordinates. *)
Definition cluster_labels (eps : radius) (mask0 : grid Z)
    (inds : list (Z * Z)) (newinds : list (Q * Q)) : M (grid Z) :=
  emit (EvDBSCAN eps 3) ;;;
  let labels := DBSCAN E eps 3 newinds in
  lift (Fancy.scatter2 mask0 inds (map (fun k => k + 1) labels)).

(** Lines 750-770: labelling of the rounded landing points. *)
Definition skeleton_labels (dist bd : grid Q) (mask0 : grid Z)
    (inds : list (Z * Z)) (newinds : list (Q * Q)) : M (grid Z) :=
  let newinds := map (fun c => (rint (fst c), rint (snd c))) newinds in
  let skelmask := zeros false (nrows dist) (ncols dist) in
  skelmask <- lift (Fancy.scatter2 skelmask newinds [true]) ;;
  let skelmask := border_correct nclasses bd skelmask in
  emit (EvLabel 1) ;;;
  let LL := label E skelmask 1 in
  vals <- lift (Fancy.gather2 0 LL newinds) ;;
  lift (Fancy.scatter2 mask0 inds vals).

(** Lines 690-770: the new algorithm. *)
Definition new_algorithm (dP : nat) (dist bd : grid Q) (mask : grid bool)
    (o : options) : M (grid Z * vfield * list (step E)) :=
  let Ly := nrows mask in
  let Lx := ncols mask in
  let d_eps := estimate_diameter dist mask (skel o) in
  dP <- (v <- read dP ;; alloc v) ;;
  let cluster :=
    if Qle_bool (fst d_eps) (diam_threshold o) then true else cluster o in
  update dP (fun v => mul_mask v mask) ;;;
  dP <- (v <- read dP ;; alloc (normalize_field E v)) ;;
  v <- read dP ;;
  div <- lift (divergence mask v Ly Lx) ;;
  div <- lift (reshape2 (normalize99 E div) Ly Lx) ;;
  update dP (fun v => mul_grid v div) ;;;
  v <- read dP ;;
  emit (EvFollowFlows None) ;;;
  let pit := follow_flows E v mask None (interp o) (skel o) (calc_trace o) in
  let p := fst (fst pit) in
  let inds := snd (fst pit) in
  py <- lift (Fancy.gather2 0%Q (fst p) inds) ;;
  px <- lift (Fancy.gather2 0%Q (snd p) inds) ;;
  let newinds := combine py px in
  let mask0 := zeros 0 (nrows (fst p)) (ncols (fst p)) in
  mask <- (if cluster
           then cluster_labels (snd d_eps) mask0 inds newinds
           else skeleton_labels dist bd mask0 inds newinds) ;;
  ret (mask, p, snd pit).

(** Lines 776-784. *)
Definition resize_outputs (resize : option (nat * nat)) (mask : grid Z)
    (p : vfield) : grid Z * vfield :=
  match resize with
  | Some (h, w) =>
      let mask := resize_image E mask h w in
      let Ly := nrows mask in
      let Lx := ncols mask in
      (mask, (cv2_resize E (fst p) Lx Ly, cv2_resize E (snd p) Lx Ly))
  | None => (mask, p)
  end.

(** Lines 668-789: everything before the cleanup. *)
Definition labels_before_cleanup (dP : nat) (dist bd : grid Q)
    (p : option vfield) (o : options)
  : M (ndarray * vfield * list (step E)) :=
  let mask := seed_mask (skel o) dist (dist_threshold o) in
  if any mask then
    r <- (if negb (skel o)
          then original_algorithm dP mask p o
          else new_algorithm dP dist bd mask o) ;;
    let mp := resize_outputs (resize o) (fst (fst r)) (snd (fst r)) in
    ret (Matrix (fst mp), snd mp, snd r)
  else
    ret (np_zeros (resize o), (zeros 0%Q 1 1, zeros 0%Q 1 1), []).

(** [CellposeModel._compute_masks] *)
Definition _compute_masks (dP : nat) (dist bd : grid Q)
    (p : option vfield) (o : options)
  : M (ndarray * vfield * list (step E)) :=
  r <- labels_before_cleanup dP dist bd p o ;;
  mask <- lift (cleanup (fst (fst r)) (min_size o)) ;;
  ret (mask, snd (fst r), snd r).

End Pipeline.

(** *** A small instance of the collaborators

    A field in which no pixel moves: advection returns every foreground
    pixel at its own coordinates.  The other routines are the simplest
    ones of the right shape; the instance serves to run the pipeline on
    concrete inputs. *)
Definition still_positions (mask : grid bool) : vfield :=
  (tabulate (nrows mask) (ncols mask) (fun y _ => inject_Z y),
   tabulate (nrows mask) (ncols mask) (fun _ x => inject_Z x)).

Definition still : collaborators := {|
  step := unit;
  follow_flows := fun _ mask _ _ _ _ =>
    (still_positions mask, nonzero mask, []);
  get_masks := fun _ iscell _ _ =>
    tabulate (nrows iscell) (ncols iscell) (fun y _ =>
      if existsb (fun b => b) (nth (Z.to_nat y) iscell []) then 5 + 2 * y
      else 0);
  dist_to_diam := fun dt => fold_right Qplus 0%Q dt;
  diameters := fun _ _ => (20%Q, 0%Q);
  normalize_field := fun v => v;
  normalize99 := fun l => l;
  DBSCAN := fun _ _ X =>
    map (fun c => if Qle_bool (fst c) 0 then 0 else -1) X;
  label := fun g _ => map (map (fun b : bool => if b then 1 else 0)) g;
  resize_image := fun g _ _ => g;
  cv2_resize := fun g _ _ => g
|}.

Definition default_options : options := {|
  niter_opt := 200%Q;
  dist_threshold := 0%Q;
  diam_threshold := 12%Q;
  flow_threshold := (4 # 10)%Q;
  interp := true;
  cluster := false;
  do_3D := false;
  min_size := 15;
  resize := None;
  skel := false;
  calc_trace := false
|}.

Definition with_skel (o : options) (b : bool) : options := {|
  niter_opt := niter_opt o; dist_threshold := dist_threshold o;
  diam_threshold := diam_threshold o; flow_threshold := flow_threshold o;
  interp := interp o; cluster := cluster o; do_3D := do_3D o;
  min_size := min_size o; resize := resize o; skel := b;
  calc_trace := calc_trace o
|}.

Definition with_min_size (o : options) (m : Z) : options := {|
  niter_opt := niter_opt o; dist_threshold := dist_threshold o;
  diam_threshold := diam_threshold o; flow_threshold := flow_threshold o;
  interp := interp o; cluster := cluster o; do_3D := do_3D o;
  min_size := m; resize := resize o; skel := skel o;
  calc_trace := calc_trace o
|}.

Definition with_resize (o : options) (r : option (nat * nat)) : options := {|
  niter_opt := niter_opt o; dist_threshold := dist_threshold o;
  diam_threshold := diam_threshold o; flow_threshold := flow_threshold o;
  interp := interp o; cluster := cluster o; do_3D := do_3D o;
  min_size := min_size o; resize := r; skel := skel o;
  calc_trace := calc_trace o
|}.

Definition with_diam_threshold (o : options) (t : Q) : options := {|
  niter_opt := niter_opt o; dist_threshold := dist_threshold o;
  diam_threshold := t; flow_threshold := flow_threshold o;
  interp := interp o; cluster := cluster o; do_3D := do_3D o;
  min_size := min_size o; resize := resize o; skel := skel o;
  calc_trace := calc_trace o
|}.

(** A store holding one flow field, at location 0. *)
Definition store_of (dP : vfield) : state :=
  {| heap := fun _ => dP; next_loc := 1; calls := [] |}.

(** *** Notions used to state the properties *)

(** [keeps n0 c Q]: run in a store with at least [n0] locations, [c]
    leaves the arrays at the locations below [n0] as they were, frees
    nothing, and returns only values that satisfy [Q]. *)
Definition keeps (n0 : nat) {A} (c : M A) (Q : A -> Prop) : Prop :=
  forall s, (n0 <= next_loc s)%nat ->
    (n0 <= next_loc (snd (c s)))%nat /\
    (forall l, (l < n0)%nat -> heap (snd (c s)) l = heap s l) /\
    (forall a, fst (c s) = Ok a -> Q a).

(** The skeleton pixels that lie in the border band. *)
Definition band_pixels (Ly Lx : nat) (skelmask : grid bool) : grid bool :=
  tabulate Ly Lx (fun y x =>
    (Ndimage.edge_distance Ly Lx y x <? 5) && get false skelmask y x).


(** Whether density clustering is used in the new algorithm: the caller's
    flag, overridden when the estimated diameter does not exceed the
    threshold (lines 709-710). *)
Definition clustering_active (E : collaborators) (nclasses : Z)
    (dist : grid Q) (mask : grid bool) (o : options) : bool :=
  if Qle_bool (fst (estimate_diameter E nclasses dist mask (skel o)))
              (diam_threshold o)
  then true else cluster o.

(** The divergence in the words of the specification: the 5-point
    central-difference stencil over the flow restricted to the mask, read
    as zero outside the mask and outside the image. *)
Definition masked (mask : grid bool) (comp : grid Q) (y x : Z) : Q :=
  if get false mask y x then get 0%Q comp y x else 0%Q.

Definition spec_divergence (mask : grid bool) (dP : vfield) (Ly Lx : nat)
  : grid Q :=
  let Ty := masked mask (fst dP) in
  let Tx := masked mask (snd dP) in
  tabulate Ly Lx (fun y x =>
    if get false mask y x
    then (Ty (y + 2)%Z x + 8 * Ty (y + 1)%Z x - 8 * Ty (y - 1)%Z x
          - Ty (y - 2)%Z x
          + Tx y (x + 2)%Z + 8 * Tx y (x + 1)%Z - 8 * Tx y (x - 1)%Z
          - Tx y (x - 2)%Z)%Q
    else 0%Q).

End Models.

(* ================================================================== *)
(** ** Properties *)
(* ================================================================== *)

Import Np Models.

(** *** The iteration budget *)



(** *** The seed mask *)

Lemma threshold_band (t : Q) : (t - 1 <= t)%Q.
Proof.
  unfold Qminus. rewrite <- (Qplus_0_r t) at 2.
  apply Qplus_le_r. discriminate.
Qed.

(** C3: without [skel] the foreground mask is the pointwise comparison
    [dist > dist_threshold]; with [skel] it is the hysteresis threshold of
    [dist] with low = dist_threshold - 1 and high = dist_threshold: a
    pixel is foreground exactly when it lies in a region seeded by a pixel
    above high and grown through neighbouring pixels above low. *)
Theorem C3_seed_mask (dist : grid Q) (dist_threshold : Q) (Ly Lx : nat)
    (Hshape : rect Ly Lx dist) :
  seed_mask false dist dist_threshold =
    map (map (fun v => Qgtb v dist_threshold)) dist /\
  seed_mask true dist dist_threshold =
    Skimage.apply_hysteresis_threshold dist (dist_threshold - 1)%Q
                                       dist_threshold /\
  forall y x, inside Ly Lx y x = true ->
    (get false (seed_mask false dist dist_threshold) y x = true <->
     (dist_threshold < get 0%Q dist y x)%Q) /\
    (get false (seed_mask true dist dist_threshold) y x = true <->
     Skimage.hysteresis_region Ly Lx dist (dist_threshold - 1)%Q
                               dist_threshold y x).
Proof.
  split; [reflexivity|]. split; [reflexivity|].
  intros y x Hin. split.
  - apply (Skimage.get_gt_mask Ly Lx); assumption.
  - apply Skimage.hysteresis_refines; auto. apply threshold_band.
Qed.

Lemma C3_seed_mask_witness :
  let dist := [[1 # 2; -1 # 2; 3 # 2]; [-2; -1 # 2; -3 # 2]]%Q in
  seed_mask true dist 0 = [[true; true; true]; [false; true; false]] /\
  (get false (seed_mask true dist 0) 1 1 = true <->
   Skimage.hysteresis_region 2 3 dist (0 - 1)%Q 0 1 1).
Proof.
  split; [vm_compute; reflexivity|].
  refine (proj2 (proj2 (proj2 (C3_seed_mask _ 0%Q 2%nat 3%nat _))
                       1 1 eq_refl)).
  split; [reflexivity | repeat constructor].
Defined.

(** *** The mask sanitizer *)




(** *** Running the pipeline *)

Lemma bind_ok {A B} (c : M A) (k : A -> M B) s b s' :
  bind c k s = (Ok b, s') ->
  exists a s1, c s = (Ok a, s1) /\ k a s1 = (Ok b, s').
Proof.
  unfold bind. destruct (c s) as [[a|e] s1]; intros H.
  - exists a, s1. auto.
  - discriminate.
Qed.

Lemma lift_ok {A} (r : result A) s a s' :
  lift r s = (Ok a, s') -> r = Ok a /\ s' = s.
Proof. unfold lift. intros H. inversion H. auto. Qed.

Lemma ret_ok {A} (x : A) s a s' : ret x s = (Ok a, s') -> a = x /\ s' = s.
Proof. unfold ret. intros H. inversion H. auto. Qed.

(** With an empty seed mask nothing is computed: the store and the record
    of calls are untouched and the label array is [np.zeros(resize)]. *)
Lemma empty_mask_short_circuit E nclasses dP dist bd p o s :
  any (seed_mask (skel o) dist (dist_threshold o)) = false ->
  labels_before_cleanup E nclasses dP dist bd p o s =
  (Ok (np_zeros (resize o), (zeros 0%Q 1 1, zeros 0%Q 1 1), []), s).
Proof. intros H. unfold labels_before_cleanup. now rewrite H. Qed.

(** The cleanup leaves an all-zero grid as it is. *)
Lemma get_zeros_any {A} (z : A) Ly Lx y x : get z (zeros z Ly Lx) y x = z.
Proof.
  destruct (inside Ly Lx y x) eqn:H.
  - now apply Ndimage.get_zeros.
  - apply (Ndimage.get_rect z Ly Lx); [apply Ndimage.rect_zeros | assumption].
Qed.

Lemma map_const_seq {A} (a : A) n s :
  map (fun _ : nat => a) (seq s n) = repeat a n.
Proof.
  revert s. induction n as [|n IH]; intros s; simpl; [reflexivity|].
  now rewrite IH.
Qed.

Lemma tabulate_const {A} (z : A) Ly Lx :
  tabulate Ly Lx (fun _ _ => z) = zeros z Ly Lx.
Proof.
  unfold tabulate, zeros. rewrite (map_const_seq z Lx 0).
  apply map_const_seq.
Qed.

Lemma in_concat_zeros {A} (z v : A) Ly Lx :
  In v (concat (zeros z Ly Lx)) -> v = z.
Proof.
  intros H. apply in_concat in H. destruct H as [r [Hr Hv]].
  apply repeat_spec in Hr. subst r. now apply repeat_spec in Hv.
Qed.

Lemma flat_map_nil {A B} (f : A -> list B) l :
  (forall a, f a = []) -> flat_map f l = [].
Proof.
  intros H. induction l as [|a l IH]; simpl; [reflexivity|].
  now rewrite H, IH.
Qed.

Lemma fill_holes_zeros Ly Lx :
  Utils.fill_holes (zeros 0 Ly Lx) = zeros 0 Ly Lx.
Proof.
  destruct Ly as [|Ly]; [reflexivity|].
  unfold Utils.fill_holes. cbv zeta.
  destruct (Ndimage.shape_zeros 0 (S Ly) Lx ltac:(lia)) as [-> ->].
  transitivity (tabulate (S Ly) Lx (fun _ _ => 0)); [|apply tabulate_const].
  apply tabulate_ext. intros y x _.
  rewrite get_zeros_any.
  assert (E : forall C, Utils.enclosing_labels (zeros 0 (S Ly) Lx) C = []).
  { intros C. unfold Utils.enclosing_labels. rewrite flat_map_nil;
      [reflexivity|]. intros p. cbv zeta. now rewrite get_zeros_any. }
  rewrite E. destruct (_ && _); reflexivity.
Qed.

Lemma canon_zeros l : (forall v, In v l -> v = 0) -> Fastremap.canon 1 l.
Proof.
  induction l as [|a l IH]; intros H; simpl; [exact I|].
  left. split.
  - rewrite (H a (or_introl eq_refl)). lia.
  - apply IH. intros v Hv. apply H. now right.
Qed.

Lemma sanitize_zeros Ly Lx min_size :
  Cleanup.sanitize (zeros 0 Ly Lx) min_size = zeros 0 Ly Lx.
Proof.
  unfold Cleanup.sanitize, Utils.fill_holes_and_remove_small_masks.
  rewrite fill_holes_zeros.
  assert (E : Utils.remove_small min_size (zeros 0 Ly Lx) = zeros 0 Ly Lx).
  { unfold Utils.remove_small. apply Utils.map_map_id. intros v Hv.
    apply in_concat_zeros in Hv. now subst. }
  rewrite E. apply Cleanup.grid_eq_of_concat.
  - apply Fastremap.lengths_renumber_rows.
  - rewrite Fastremap.concat_renumber. unfold Fastremap.renumber_list.
    apply Fastremap.renumber_canon_id;
      [apply Fastremap.id_table_init | lia |].
    apply canon_zeros. intros v. apply in_concat_zeros.
Qed.

(** When a target shape is given, the empty-mask branch does return the
    all-zero grid of that shape, without calling a collaborator. *)
Lemma empty_mask_with_resize E nclasses dP dist bd p o s h w :
  any (seed_mask (skel o) dist (dist_threshold o)) = false ->
  resize o = Some (h, w) ->
  _compute_masks E nclasses dP dist bd p o s =
  (Ok (Matrix (zeros 0 h w), (zeros 0%Q 1 1, zeros 0%Q 1 1), []), s).
Proof.
  intros Hm Hr. unfold _compute_masks, bind.
  rewrite empty_mask_short_circuit by assumption. rewrite Hr.
  cbn [np_zeros fst snd cleanup lift]. now rewrite sanitize_zeros.
Qed.

(** C1 at the failing input: an all-background 2 x 2 field with the
    arguments [_run_cp] passes when [resample] is set ([resize = None]).
    The seed mask is empty and no collaborator is called (the state is
    returned as it was), but the label array handed to the cleanup is the
    0-d array [np.zeros(None)], not a 2 x 2 grid of zeros, and the call
    ends in the cleanup's ValueError. *)
Theorem C1_empty_mask_without_resize E nclasses dP bd p s :
  let dist := zeros 0%Q 2 2 in
  let o := default_options in
  any (seed_mask (skel o) dist (dist_threshold o)) = false /\
  labels_before_cleanup E nclasses dP dist bd p o s =
    (Ok (Scalar 0, (zeros 0%Q 1 1, zeros 0%Q 1 1), []), s) /\
  _compute_masks E nclasses dP dist bd p o s = (Raise ValueError, s).
Proof.
  intros dist o.
  assert (H : any (seed_mask (skel o) dist (dist_threshold o)) = false)
    by reflexivity.
  split; [exact H|]. split.
  - now rewrite empty_mask_short_circuit.
  - unfold _compute_masks, bind. now rewrite empty_mask_short_circuit.
Qed.

(** C2: every label grid returned by [_compute_masks] is dense: 0 is its
    only non-positive value, every integer from 1 to its maximum occurs,
    and the maximum is the number of distinct positive labels. *)
Theorem C2_returned_labels_dense E nclasses dP dist bd p o s mask pos tr s'
    (Hrun : _compute_masks E nclasses dP dist bd p o s
            = (Ok (mask, pos, tr), s')) :
  exists L, mask = Matrix L /\ Fastremap.dense (concat L).
Proof.
  unfold _compute_masks in Hrun.
  apply bind_ok in Hrun. destruct Hrun as [r [s1 [_ Hrun]]].
  apply bind_ok in Hrun. destruct Hrun as [m [s2 [Hc Hrun]]].
  apply lift_ok in Hc. destruct Hc as [Hc _].
  apply ret_ok in Hrun. destruct Hrun as [Hr _]. inversion Hr; subst.
  unfold cleanup in Hc. destruct (fst (fst r)) as [v|g]; [discriminate|].
  inversion Hc. eexists. split; [reflexivity|].
  unfold Cleanup.sanitize. rewrite Fastremap.concat_renumber.
  apply Fastremap.renumber_list_dense.
Qed.

Lemma C2_returned_labels_dense_witness :
  exists L, Matrix [[1; 1; 1]; [0; 0; 0]; [2; 2; 2]] = Matrix L /\
            Fastremap.dense (concat L).
Proof.
  eapply (C2_returned_labels_dense still 4 0%nat
            [[1; 1; -1]; [-1; -1; -1]; [2; -1; 3]]%Q
            [[0; 0; 0]; [0; 0; 0]; [0; 0; 0]]%Q None
            (with_min_size default_options (-1))
            (store_of ([[1; 2; 3]; [4; 5; 6]; [7; 8; 9]]%Q,
                       [[1; 0; 0]; [5; 0; 0]; [0; 0; 0]]%Q))).
  reflexivity.
Defined.

(** *** The divergence stencil *)

(** Whatever the pixel, the taps stay within what numpy accepts as an
    index into the buffer, so no IndexError is raised; a tap below zero is
    read from the end of the buffer. *)
Lemma stencil_taps_accepted (Ly Lx : nat) (Y X : Z) :
  inside Ly Lx Y X = true ->
  Forall (fun i => index (padded_size (Z.of_nat Ly) (Z.of_nat Lx)) i <> None)
         (stencil_taps_y (Z.of_nat Lx) Y X ++ stencil_taps_x (Z.of_nat Lx) Y X).
Proof.
  intros H. apply inside_spec in H.
  assert (Hn : Z.of_nat (padded_size (Z.of_nat Ly) (Z.of_nat Lx)) =
               (Z.of_nat Ly + 2) * (Z.of_nat Lx + 2)).
  { unfold padded_size, pad. rewrite Z2Nat.id by nia. ring. }
  assert (Hacc : forall i,
            - ((Z.of_nat Ly + 2) * (Z.of_nat Lx + 2)) <= i <
            (Z.of_nat Ly + 2) * (Z.of_nat Lx + 2) ->
            index (padded_size (Z.of_nat Ly) (Z.of_nat Lx)) i <> None).
  { intros i Hi. unfold index. rewrite Hn.
    destruct (Z.leb_spec 0 i); simpl.
    - destruct (Z.ltb_spec i ((Z.of_nat Ly + 2) * (Z.of_nat Lx + 2)));
        [discriminate | lia].
    - destruct (Z.leb_spec (- ((Z.of_nat Ly + 2) * (Z.of_nat Lx + 2))) i);
        [|lia].
      destruct (Z.ltb_spec i 0); [discriminate | lia]. }
  assert (P1 : 0 <= Y * Z.of_nat Lx) by nia.
  assert (P2 : Y * Z.of_nat Lx <= (Z.of_nat Ly - 1) * Z.of_nat Lx) by nia.
  assert (P3 : 0 <= Z.of_nat Ly * Z.of_nat Lx) by nia.
  unfold stencil_taps_y, stencil_taps_x. cbn [app].
  repeat constructor; apply Hacc; lia.
Qed.

(** In the top row the two upward taps are negative for every image
    width, and at the right edge the taps to the right land on the next
    row of the image. *)
Lemma stencil_taps_wrap (Lx X : Z) :
  0 <= X < Lx ->
  (0 - 1) * Lx + X < 0 /\ (0 - 2) * Lx + X < 0 /\
  0 * Lx + (Lx - 1) + 1 = flat_index Lx (1, 0).
Proof. unfold flat_index. cbn [fst snd]. lia. Qed.

(** C5 at the failing input.  The buffer is padded by one pixel
    ([pad = 1]), and the taps are computed with the stride of the unpadded
    image.  For the foreground pixel (0, 0) of a 3 x 3 image the upward
    taps are the flat indices -3 and -6, which numpy reads from the end of
    the 25-element buffer (positions 22 and 19).  For the pixel (0, 1) of a
    2 x 2 image the tap at X + 1 is flat index 2, the pixel (1, 0): with
    an x-flow of 5 at (1, 0) and 0 elsewhere the code returns the
    divergence 5 at (0, 0) and 40 at (0, 1), where the stencil of the
    specification, which reads zero outside the image, gives 0. *)
Theorem C5_stencil_taps_leave_the_padding :
  pad = 1 /\
  stencil_taps_y 3 0 0 = [6; 3; -3; -6] /\
  padded_size 3 3 = 25%nat /\
  index 25 (-3) = Some 22%nat /\ index 25 (-6) = Some 19%nat /\
  stencil_taps_x 2 0 1 = [3; 2; 0; -1] /\
  flat_index 2 (1, 0) = 2 /\
  divergence [[true; true]; [true; true]]
             ([[0; 0]; [0; 0]]%Q, [[0; 0]; [5; 0]]%Q) 2 2
  = Ok [5; 40; 0; -40]%Q /\
  spec_divergence [[true; true]; [true; true]]
                  ([[0; 0]; [0; 0]]%Q, [[0; 0]; [5; 0]]%Q) 2 2
  = [[0; 0]; [0; -40]]%Q.
Proof. repeat split; vm_compute; reflexivity. Qed.

(** *** The caller's flow field is left alone *)

Lemma keeps_ret n0 {A} (a : A) : keeps n0 (ret a) (fun _ => True).
Proof. intros s Hs. simpl. auto. Qed.

Lemma keeps_lift n0 {A} (r : result A) : keeps n0 (lift r) (fun _ => True).
Proof. intros s Hs. simpl. auto. Qed.

Lemma keeps_emit n0 e : keeps n0 (emit e) (fun _ => True).
Proof. intros s Hs. simpl. auto. Qed.

Lemma keeps_read n0 l : keeps n0 (read l) (fun _ => True).
Proof. intros s Hs. simpl. auto. Qed.

Lemma keeps_alloc n0 v : keeps n0 (alloc v) (fun l => (n0 <= l)%nat).
Proof.
  intros s Hs. simpl. split; [lia|]. split.
  - intros l Hl. destruct (Nat.eqb_spec l (next_loc s)); [lia | reflexivity].
  - intros a Ha. inversion Ha. lia.
Qed.

Lemma keeps_update n0 l f :
  (n0 <= l)%nat -> keeps n0 (update l f) (fun _ => True).
Proof.
  intros Hl s Hs. simpl. split; [lia|]. split; [|auto].
  intros l' Hl'. destruct (Nat.eqb_spec l' l); [lia | reflexivity].
Qed.

Lemma keeps_bind n0 {A B} (c : M A) (k : A -> M B) Q R :
  keeps n0 c Q -> (forall a, Q a -> keeps n0 (k a) R) ->
  keeps n0 (bind c k) R.
Proof.
  intros Hc Hk s Hs. destruct (Hc s Hs) as [Hn [Hh Hq]].
  unfold bind. destruct (c s) as [[a|e] s1] eqn:E; simpl in *.
  - destruct (Hk a (Hq a eq_refl) s1 Hn) as [Hn' [Hh' Hq']].
    split; [assumption|]. split; [|assumption].
    intros l Hl. rewrite Hh' by assumption. now apply Hh.
  - split; [assumption|]. split; [assumption|]. discriminate.
Qed.

Lemma keeps_weaken n0 {A} (c : M A) (Q R : A -> Prop) :
  keeps n0 c Q -> (forall a, Q a -> R a) -> keeps n0 c R.
Proof.
  intros Hc HQR s Hs. destruct (Hc s Hs) as [Hn [Hh Hq]].
  split; [assumption|]. split; [assumption|]. intros a Ha. auto.
Qed.

Ltac keeps_simple :=
  first [ apply keeps_ret | apply keeps_lift | apply keeps_emit
        | apply keeps_read ].

Ltac keeps_seq :=
  eapply keeps_bind; [keeps_simple | intros ? _].

Lemma keeps_copy n0 l (f : vfield -> vfield) :
  keeps n0 (v <- read l ;; alloc (f v)) (fun l' => (n0 <= l')%nat).
Proof. keeps_seq. apply keeps_alloc. Qed.

Lemma keeps_original E n0 dP mask p o :
  keeps n0 (original_algorithm E dP mask p o) (fun _ => True).
Proof.
  unfold original_algorithm.
  eapply keeps_bind with (Q := fun _ => True).
  - destruct p as [p|]; [apply keeps_ret|].
    keeps_seq. keeps_seq.
    destruct (follow_flows E _ _ _ _ _ _) as [[p inds] tr]. apply keeps_ret.
  - intros ptr _. keeps_seq. keeps_seq. apply keeps_ret.
Qed.

Lemma keeps_cluster E n0 eps mask0 inds newinds :
  keeps n0 (cluster_labels E eps mask0 inds newinds) (fun _ => True).
Proof. unfold cluster_labels. keeps_seq. apply keeps_lift. Qed.

Lemma keeps_skeleton E nclasses n0 dist bd mask0 inds newinds :
  keeps n0 (skeleton_labels E nclasses dist bd mask0 inds newinds)
        (fun _ => True).
Proof.
  unfold skeleton_labels. keeps_seq. keeps_seq. keeps_seq. apply keeps_lift.
Qed.

Lemma keeps_new E nclasses n0 dP dist bd mask o :
  keeps n0 (new_algorithm E nclasses dP dist bd mask o) (fun _ => True).
Proof.
  unfold new_algorithm.
  eapply keeps_bind; [apply (keeps_copy n0 dP (fun v => v))|].
  intros dP1 H1.
  eapply keeps_bind; [apply keeps_update; exact H1 | intros _ _].
  eapply keeps_bind; [apply keeps_copy|]. intros dP2 H2.
  keeps_seq. keeps_seq. keeps_seq.
  eapply keeps_bind; [apply keeps_update; exact H2 | intros _ _].
  keeps_seq. keeps_seq. keeps_seq. keeps_seq.
  eapply keeps_bind with (Q := fun _ => True); [|intros; apply keeps_ret].
  destruct (if Qle_bool _ _ then true else cluster o);
    [apply keeps_cluster | apply keeps_skeleton].
Qed.

Lemma keeps_compute_masks E nclasses n0 dP dist bd p o :
  keeps n0 (_compute_masks E nclasses dP dist bd p o) (fun _ => True).
Proof.
  unfold _compute_masks.
  eapply keeps_bind with (Q := fun _ => True).
  - unfold labels_before_cleanup.
    destruct (any _); [|apply keeps_ret].
    eapply keeps_bind with (Q := fun _ => True);
      [|intros; apply keeps_ret].
    destruct (negb (skel o)); [apply keeps_original | apply keeps_new].
  - intros r _. keeps_seq. apply keeps_ret.
Qed.

(** C8: [_compute_masks] never writes to the array [dP] it is given.
    Whatever the inputs and whether the call returns or raises, the array
    at the caller's location holds the same values after the call: the
    original algorithm passes the new array [dP * mask / 5.], and the new
    algorithm masks, normalizes and reweights a copy. *)
Theorem C8_dP_not_mutated E nclasses dP dist bd p o s
    (Hlive : (dP < next_loc s)%nat) :
  heap (snd (_compute_masks E nclasses dP dist bd p o s)) dP = heap s dP.
Proof.
  destruct (keeps_compute_masks E nclasses (next_loc s) dP dist bd p o s
              (le_n _)) as [_ [H _]].
  now apply H.
Qed.

Lemma C8_dP_not_mutated_witness :
  let dP := ([[1; 2; 3]; [4; 5; 6]; [7; 8; 9]]%Q,
             [[1; 0; 0]; [5; 0; 0]; [0; 0; 0]]%Q) in
  let dist := [[1; 1; -1]; [-1; -1; -1]; [2; -1; 3]]%Q in
  heap (snd (_compute_masks still 4 0%nat dist dist None
               (with_skel default_options true) (store_of dP))) 0%nat = dP.
Proof.
  intros dP dist.
  apply (C8_dP_not_mutated still 4 0%nat dist dist None
           (with_skel default_options true) (store_of dP)).
  simpl. lia.
Defined.

(** *** Border correction of the skeleton *)

Lemma get_default_indep {A} (d d' : A) Ly Lx g y x :
  rect Ly Lx g -> inside Ly Lx y x = true -> get d g y x = get d' g y x.
Proof.
  intros [HL HF] H. apply inside_spec in H. unfold get.
  destruct (Z.leb_spec 0 y); [|lia]. destruct (Z.leb_spec 0 x); [|lia].
  simpl. apply nth_indep.
  assert (Hin : In (nth (Z.to_nat y) g []) g) by (apply nth_In; lia).
  rewrite Forall_forall in HF. rewrite (HF _ Hin). lia.
Qed.

Lemma shape_tabulate {A} Ly Lx (f : Z -> Z -> A) :
  (0 < Ly)%nat ->
  nrows (tabulate Ly Lx f) = Ly /\ ncols (tabulate Ly Lx f) = Lx.
Proof.
  intros H. unfold nrows, ncols, tabulate.
  rewrite length_map, length_seq. split; [reflexivity|].
  destruct Ly; [lia|]. simpl. now rewrite length_map, length_seq.
Qed.

Lemma inside_rows Ly Lx y x : inside Ly Lx y x = true -> (0 < Ly)%nat.
Proof. intros H. apply inside_spec in H. lia. Qed.

(** The border band is the set of pixels less than 5 pixels from an edge
    of the image. *)
Lemma border_band_spec Ly Lx (skelmask : grid bool) y x :
  rect Ly Lx skelmask -> inside Ly Lx y x = true ->
  get false (border_band skelmask) y x = (Ndimage.edge_distance Ly Lx y x <? 5).
Proof.
  intros HR Hin. unfold border_band, Ndimage.binary_dilation.
  destruct (Skimage.rect_shape _ _ _ _ _ HR Hin) as [-> ->].
  destruct (Ndimage.shape_zeros false Ly Lx (inside_rows _ _ _ _ Hin))
    as [-> ->].
  rewrite (get_default_indep false true Ly Lx) by
    (auto; apply Ndimage.rect_dilate_iter, Ndimage.rect_zeros).
  rewrite Ndimage.dilate_from_border. unfold Ndimage.near_edge.
  now rewrite Hin.
Qed.

Lemma border_px_spec Ly Lx (skelmask : grid bool) :
  rect Ly Lx skelmask -> (0 < Ly)%nat ->
  assign_where (border_band skelmask) skelmask
               (zeros false (nrows skelmask) (ncols skelmask))
  = band_pixels Ly Lx skelmask.
Proof.
  intros HR HLy.
  assert (Hsh : nrows skelmask = Ly /\ ncols skelmask = Lx).
  { destruct HR as [HL HF]. unfold nrows, ncols. split; [assumption|].
    destruct skelmask as [|r g]; simpl in *; [lia|]. now inversion HF. }
  unfold assign_where, band_pixels.
  destruct Hsh as [Hr Hc].
  rewrite Hr, Hc.
  destruct (Ndimage.shape_zeros false Ly Lx HLy) as [-> ->].
  apply tabulate_ext. intros y x Hin.
  rewrite (border_band_spec Ly Lx) by assumption.
  rewrite (Ndimage.get_zeros false false) by assumption.
  destruct (Ndimage.edge_distance Ly Lx y x <? 5); reflexivity.
Qed.

(** *** Assignment through index arrays *)

Lemma rbind_ok {A B} (r : result A) (k : A -> result B) b :
  rbind r k = Ok b -> exists a, r = Ok a /\ k a = Ok b.
Proof. destruct r as [a|e]; simpl; intros H; [eauto | discriminate]. Qed.

Lemma in_set_nth {A} n (v : A) l r :
  In r (Fancy.set_nth n v l) -> r = v \/ In r l.
Proof.
  revert n. induction l as [|h t IH]; intros [|n]; simpl; intros H; auto.
  - destruct H as [<-|H]; auto.
  - destruct H as [<-|H]; auto. destruct (IH _ H); auto.
Qed.

Lemma put_length {A} (a : list A) i v a' :
  Fancy.put a i v = Ok a' -> length a' = length a.
Proof.
  unfold Fancy.put. destruct (index (length a) i); intros H; inversion H.
  apply Fancy.length_set_nth.
Qed.

Lemma put2_rect {A} Ly Lx (g : grid A) yx v g' :
  rect Ly Lx g -> Fancy.put2 g yx v = Ok g' -> rect Ly Lx g'.
Proof.
  intros [HL HF] H. unfold Fancy.put2 in H.
  destruct (index (length g) (fst yx)) as [n|] eqn:En; [|discriminate].
  apply rbind_ok in H. destruct H as [row [Hrow Hg']]. inversion Hg'; subst.
  apply put_length in Hrow. apply Fancy.index_some in En.
  split; [now rewrite Fancy.length_set_nth|].
  rewrite Forall_forall in *. intros r Hr.
  apply in_set_nth in Hr. destruct Hr as [->|Hr]; [|auto].
  rewrite Hrow. apply HF. apply nth_In. assumption.
Qed.

Lemma scatter2_zip_rect {A} Ly Lx iv : forall (g g' : grid A),
  rect Ly Lx g -> Fancy.scatter2_zip g iv = Ok g' -> rect Ly Lx g'.
Proof.
  induction iv as [|[i v] iv IH]; intros g g' HR H; simpl in H.
  - inversion H; subst. assumption.
  - apply rbind_ok in H. destruct H as [g1 [H1 H2]].
    eapply IH; [|exact H2]. eapply put2_rect; eauto.
Qed.

Lemma scatter2_rect {A} Ly Lx (g g' : grid A) idx vals :
  rect Ly Lx g -> Fancy.scatter2 g idx vals = Ok g' -> rect Ly Lx g'.
Proof.
  intros HR H. unfold Fancy.scatter2 in H.
  apply rbind_ok in H. destruct H as [iv [_ H]].
  eapply scatter2_zip_rect; eauto.
Qed.



Lemma emit_ok e s a s' :
  emit e s = (Ok a, s') ->
  calls s' = calls s ++ [e] /\ heap s' = heap s /\ next_loc s' = next_loc s.
Proof. unfold emit. intros H. inversion H. simpl. auto. Qed.

Lemma rect_zeros_like {A B} (z : B) Ly Lx (g : grid A) :
  rect Ly Lx g -> rect Ly Lx (zeros z (nrows g) (ncols g)).
Proof.
  intros [HL HF]. unfold nrows, ncols.
  destruct g as [|r g]; simpl in *.
  - subst. split; [reflexivity | constructor].
  - inversion HF; subst. apply (Ndimage.rect_zeros z (S (length g))).
Qed.

Lemma border_correct_spec nclasses Ly Lx (bd : grid Q) (skelmask : grid bool)
    y x :
  rect Ly Lx skelmask -> rect Ly Lx bd -> inside Ly Lx y x = true ->
  get false (border_correct nclasses bd skelmask) y x =
  if Ndimage.edge_distance Ly Lx y x <? 5
  then if nclasses =? 4
       then get false skelmask y x && negb (Qgtb (get 0%Q bd y x) (-1))
       else get false (Ndimage.binary_opening (band_pixels Ly Lx skelmask)
                                              false 3) y x
  else get false skelmask y x.
Proof.
  intros HS HB Hin. pose proof (inside_rows _ _ _ _ Hin) as HLy.
  unfold border_correct. fold (border_band skelmask).
  rewrite (border_px_spec Ly Lx) by assumption.
  unfold assign_where at 1.
  destruct (Skimage.rect_shape _ _ _ _ _ HS Hin) as [-> ->].
  rewrite get_tabulate by assumption.
  rewrite (border_band_spec Ly Lx) by assumption.
  destruct (Ndimage.edge_distance Ly Lx y x <? 5) eqn:Hband; [|reflexivity].
  destruct (nclasses =? 4); [|reflexivity].
  unfold assign_const.
  destruct (shape_tabulate Ly Lx
              (fun y x => (Ndimage.edge_distance Ly Lx y x <? 5) &&
                          get false skelmask y x) HLy) as [Hr Hc].
  unfold band_pixels at 1 2. rewrite Hr, Hc.
  rewrite get_tabulate by assumption.
  unfold Skimage.gt_mask. rewrite (Skimage.get_map _ 0%Q false Ly Lx)
    by assumption.
  unfold band_pixels. rewrite get_tabulate by assumption. rewrite Hband.
  cbn [andb].
  destruct (Qgtb (get 0%Q bd y x) (-1)); destruct (get false skelmask y x);
    reflexivity.
Qed.

(** C7: in skeleton mode without density clustering, the rounded
    landing points are written into a skeleton mask, the mask is
    border-corrected, and only then labelled with connectivity 1
    (4-connectivity).  The correction acts on the border band, the pixels
    less than 5 pixels from an image edge (5 binary dilations from the
    edge): with a boundary output ([nclasses = 4]) a band pixel stays in
    the skeleton only where the boundary field does not exceed -1;
    otherwise the band pixels are replaced by their binary opening with 3
    iterations; outside the band the skeleton is unchanged. *)
Theorem C7_border_correction E nclasses (dist bd : grid Q) mask0 inds newinds
    s mask s' Ly Lx
    (Hdist : rect Ly Lx dist) (Hbd : rect Ly Lx bd)
    (Hrun : skeleton_labels E nclasses dist bd mask0 inds newinds s
            = (Ok mask, s')) :
  let rounded := map (fun c => (rint (fst c), rint (snd c))) newinds in
  exists skelmask vals,
    Fancy.scatter2 (zeros false (nrows dist) (ncols dist)) rounded [true]
      = Ok skelmask /\
    Fancy.gather2 0 (label E (border_correct nclasses bd skelmask) 1) rounded
      = Ok vals /\
    Fancy.scatter2 mask0 inds vals = Ok mask /\
    calls s' = calls s ++ [EvLabel 1] /\
    forall y x, inside Ly Lx y x = true ->
      get false (border_band skelmask) y x
        = (Ndimage.edge_distance Ly Lx y x <? 5) /\
      get false (border_correct nclasses bd skelmask) y x =
        if Ndimage.edge_distance Ly Lx y x <? 5
        then if nclasses =? 4
             then get false skelmask y x &&
                  negb (Qgtb (get 0%Q bd y x) (-1))
             else get false (Ndimage.binary_opening
                               (band_pixels Ly Lx skelmask) false 3) y x
        else get false skelmask y x.
Proof.
  intros rounded. unfold skeleton_labels in Hrun. fold rounded in Hrun.
  apply bind_ok in Hrun. destruct Hrun as [skelmask [s1 [H1 Hrun]]].
  apply lift_ok in H1. destruct H1 as [H1 ->].
  apply bind_ok in Hrun. destruct Hrun as [u [s2 [H2 Hrun]]].
  apply emit_ok in H2. destruct H2 as [Hcalls _].
  apply bind_ok in Hrun. destruct Hrun as [vals [s3 [H3 Hrun]]].
  apply lift_ok in H3. destruct H3 as [H3 ->].
  apply lift_ok in Hrun. destruct Hrun as [H4 ->].
  exists skelmask, vals.
  split; [exact H1|]. split; [exact H3|]. split; [exact H4|].
  split; [exact Hcalls|].
  assert (HS : rect Ly Lx skelmask).
  { eapply scatter2_rect; [|exact H1]. now apply rect_zeros_like. }
  intros y x Hin. split.
  - now apply border_band_spec.
  - now apply border_correct_spec.
Qed.

Lemma C7_border_correction_witness :
  let dist := zeros 0%Q 12 12 in
  let bd := zeros 0%Q 12 12 in
  let mask0 := zeros 0 12 12 in
  let inds := [(6, 6); (1, 1)] in
  let newinds := [(6 # 1, 25 # 4); (1 # 1, 5 # 4)]%Q in
  let s := store_of (dist, dist) in
  let mask := tabulate 12 12 (fun y x => if (y =? 6) && (x =? 6) then 1 else 0)
  in
  let run := skeleton_labels still 4 dist bd mask0 inds newinds s in
  let rounded := map (fun c => (rint (fst c), rint (snd c))) newinds in
  exists skelmask vals,
    Fancy.scatter2 (zeros false (nrows dist) (ncols dist)) rounded [true]
      = Ok skelmask /\
    Fancy.gather2 0 (label still (border_correct 4 bd skelmask) 1) rounded
      = Ok vals /\
    Fancy.scatter2 mask0 inds vals = Ok mask /\
    calls (snd run) = calls s ++ [EvLabel 1] /\
    forall y x, inside 12 12 y x = true ->
      get false (border_band skelmask) y x
        = (Ndimage.edge_distance 12 12 y x <? 5) /\
      get false (border_correct 4 bd skelmask) y x =
        if Ndimage.edge_distance 12 12 y x <? 5
        then if 4 =? 4
             then get false skelmask y x &&
                  negb (Qgtb (get 0%Q bd y x) (-1))
             else get false (Ndimage.binary_opening
                               (band_pixels 12 12 skelmask) false 3) y x
        else get false skelmask y x.
Proof.
  intros dist bd mask0 inds newinds s mask run rounded.
  apply (C7_border_correction still 4 dist bd mask0 inds newinds s mask
           (snd run) 12 12).
  - apply Ndimage.rect_zeros.
  - apply Ndimage.rect_zeros.
  - vm_compute. reflexivity.
Defined.

(** *** The new algorithm, step by step *)

Lemma read_ok l s v s' : read l s = (Ok v, s') -> v = heap s l /\ s' = s.
Proof. unfold read. intros H. inversion H. auto. Qed.

Lemma alloc_ok v s l s' : alloc v s = (Ok l, s') -> calls s' = calls s.
Proof. unfold alloc. intros H. inversion H. reflexivity. Qed.

Lemma update_ok l f s u s' :
  update l f s = (Ok u, s') -> calls s' = calls s.
Proof. unfold update. intros H. inversion H. reflexivity. Qed.

Lemma copy_ok l (f : vfield -> vfield) s l' s' :
  (v <- read l ;; alloc (f v)) s = (Ok l', s') -> calls s' = calls s.
Proof.
  intros H. apply bind_ok in H. destruct H as [v [s1 [H1 H2]]].
  apply read_ok in H1. destruct H1 as [_ ->]. now apply alloc_ok in H2.
Qed.

(** A successful run of the new algorithm: the field is conditioned,
    advected once (no iteration budget is passed), the landing
    coordinates of the returned pixels are read off, and the labels come
    from one of the two labelling routines. *)
Lemma new_algorithm_run E nclasses dP dist bd mask o s labels pos tr s' :
  new_algorithm E nclasses dP dist bd mask o s = (Ok (labels, pos, tr), s') ->
  exists v s2 py px,
    let pit := follow_flows E v mask None (interp o) (skel o)
                            (calc_trace o) in
    let inds := snd (fst pit) in
    let mask0 := zeros 0 (nrows (fst pos)) (ncols (fst pos)) in
    pos = fst (fst pit) /\ tr = snd pit /\
    Fancy.gather2 0%Q (fst pos) inds = Ok py /\
    Fancy.gather2 0%Q (snd pos) inds = Ok px /\
    calls s2 = calls s ++ [EvFollowFlows None] /\
    (if clustering_active E nclasses dist mask o
     then cluster_labels E (snd (estimate_diameter E nclasses dist mask
                                                   (skel o)))
                         mask0 inds (combine py px)
     else skeleton_labels E nclasses dist bd mask0 inds (combine py px)) s2
    = (Ok labels, s').
Proof.
  unfold new_algorithm, clustering_active. intros H.
  apply bind_ok in H. destruct H as [dP1 [s1 [H1 H]]].
  apply copy_ok in H1.
  apply bind_ok in H. destruct H as [u1 [s1' [H2 H]]].
  apply update_ok in H2.
  apply bind_ok in H. destruct H as [dP2 [s1'' [H3 H]]].
  apply copy_ok in H3.
  apply bind_ok in H. destruct H as [v0 [s3 [H4 H]]].
  apply read_ok in H4. destruct H4 as [_ ->].
  apply bind_ok in H. destruct H as [div0 [s3 [H5 H]]].
  apply lift_ok in H5. destruct H5 as [_ ->].
  apply bind_ok in H. destruct H as [div [s3 [H6 H]]].
  apply lift_ok in H6. destruct H6 as [_ ->].
  apply bind_ok in H. destruct H as [u2 [s4 [H7 H]]].
  apply update_ok in H7.
  apply bind_ok in H. destruct H as [v [s5 [H8 H]]].
  apply read_ok in H8. destruct H8 as [_ ->].
  apply bind_ok in H. destruct H as [u3 [s6 [H9 H]]].
  apply emit_ok in H9. destruct H9 as [H9 _].
  apply bind_ok in H. destruct H as [py [s7 [H10 H]]].
  apply lift_ok in H10. destruct H10 as [H10 ->].
  apply bind_ok in H. destruct H as [px [s7 [H11 H]]].
  apply lift_ok in H11. destruct H11 as [H11 ->].
  apply bind_ok in H. destruct H as [m [s7 [H12 H]]].
  apply ret_ok in H. destruct H as [H ->]. inversion H; subst.
  exists v, s6, py, px. cbv zeta.
  split; [reflexivity|]. split; [reflexivity|].
  split; [exact H10|]. split; [exact H11|]. split.
  - rewrite H9, H7, H3, H2, H1. reflexivity.
  - exact H12.
Qed.

Lemma cluster_labels_run E eps mask0 inds newinds s labels s' :
  cluster_labels E eps mask0 inds newinds s = (Ok labels, s') ->
  calls s' = calls s ++ [EvDBSCAN eps 3] /\
  Fancy.scatter2 mask0 inds (map (fun k => k + 1) (DBSCAN E eps 3 newinds))
  = Ok labels.
Proof.
  unfold cluster_labels. intros H.
  apply bind_ok in H. destruct H as [u [s1 [H1 H]]].
  apply emit_ok in H1. destruct H1 as [H1 _].
  apply lift_ok in H. destruct H as [H ->]. auto.
Qed.

(** *** Reading and writing at distinct pixels *)









(** *** Density clustering *)

(** C4: in skeleton mode, when the estimated mean diameter is at or below
    [diam_threshold], density clustering is on whatever the caller's
    [cluster] flag, and a call that returns has made exactly two
    collaborator calls, the advection and DBSCAN with [min_samples = 3] and
    [eps = 1 + 1/3] for a 4-class model, [sqrt 2] otherwise; the returned
    labels are the cleaned-up (and, if asked, resized) array of the DBSCAN
    labels plus one. *)
Theorem C4_small_diameter_forces_dbscan E nclasses dP dist bd p o s
    mask pos tr s'
    (Hskel : skel o = true)
    (Hseed : any (seed_mask true dist (dist_threshold o)) = true)
    (Hsmall : (fst (estimate_diameter E nclasses dist
                      (seed_mask true dist (dist_threshold o)) true)
               <= diam_threshold o)%Q)
    (Hrun : _compute_masks E nclasses dP dist bd p o s
            = (Ok (mask, pos, tr), s')) :
  let eps := if nclasses =? 4 then Exact (1 + 1 / 3) else Sqrt 2 in
  clustering_active E nclasses dist (seed_mask true dist (dist_threshold o)) o
    = true /\
  calls s' = calls s ++ [EvFollowFlows None; EvDBSCAN eps 3] /\
  exists mask0 inds newinds labels pos0,
    Fancy.scatter2 mask0 inds
                   (map (fun k => k + 1) (DBSCAN E eps 3 newinds))
      = Ok labels /\
    mask = Matrix (Cleanup.sanitize
                     (fst (resize_outputs E (resize o) labels pos0))
                     (min_size o)).
Proof.
  intros eps.
  assert (Hact : clustering_active E nclasses dist
                   (seed_mask true dist (dist_threshold o)) o = true).
  { unfold clustering_active. rewrite Hskel.
    apply Qle_bool_iff in Hsmall. now rewrite Hsmall. }
  assert (Heps : snd (estimate_diameter E nclasses dist
                        (seed_mask true dist (dist_threshold o)) (skel o))
                 = eps).
  { unfold estimate_diameter, eps. destruct (nclasses =? 4); reflexivity. }
  split; [exact Hact|].
  unfold _compute_masks in Hrun.
  apply bind_ok in Hrun. destruct Hrun as [r [s1 [H1 Hrun]]].
  apply bind_ok in Hrun. destruct Hrun as [m [s2 [H2 Hrun]]].
  apply lift_ok in H2. destruct H2 as [H2 ->].
  apply ret_ok in Hrun. destruct Hrun as [Hr ->]. inversion Hr; subst.
  unfold labels_before_cleanup in H1. rewrite Hskel, Hseed in H1.
  cbn [negb] in H1.
  apply bind_ok in H1. destruct H1 as [[[labels pos0] tr0] [s2 [H1 H3]]].
  apply ret_ok in H3. destruct H3 as [H3 ->]. subst r. cbn [fst snd] in *.
  apply new_algorithm_run in H1.
  destruct H1 as [v [s3 [py [px [_ [_ [_ [_ [Hc1 H1]]]]]]]]].
  rewrite Hact, Heps in H1. apply cluster_labels_run in H1.
  destruct H1 as [Hc2 Hsc]. split.
  - rewrite Hc2, Hc1, <- app_assoc. reflexivity.
  - exists (zeros 0 (nrows (fst pos0)) (ncols (fst pos0))).
    eexists _, _, labels, pos0. split; [exact Hsc|].
    unfold cleanup in H2. now inversion H2.
Qed.

Lemma C4_small_diameter_forces_dbscan_witness :
  let dist := [[1; 1; -1]; [-1; -1; -1]; [2; -1; 3]]%Q in
  let dP := ([[1; 2; 3]; [4; 5; 6]; [7; 8; 9]]%Q,
             [[1; 0; 0]; [5; 0; 0]; [0; 0; 0]]%Q) in
  let o := with_skel (with_min_size default_options (-1)) true in
  let run := _compute_masks still 4 0%nat dist dist None o (store_of dP) in
  clustering_active still 4 dist (seed_mask true dist (dist_threshold o)) o
    = true /\
  calls (snd run) =
    calls (store_of dP) ++ [EvFollowFlows None; EvDBSCAN (Exact (1 + 1 / 3)) 3]
  /\
  exists mask0 inds newinds labels pos0,
    Fancy.scatter2 mask0 inds
      (map (fun k => k + 1) (DBSCAN still (Exact (1 + 1 / 3)) 3 newinds))
      = Ok labels /\
    Matrix [[1; 1; 0]; [0; 0; 0]; [0; 0; 0]] =
    Matrix (Cleanup.sanitize
              (fst (resize_outputs still (resize o) labels pos0))
              (min_size o)).
Proof.
  intros dist dP o run.
  eapply (C4_small_diameter_forces_dbscan still 4 0%nat dist dist None o
            (store_of dP) _ _ _ (snd run)).
  - reflexivity.
  - vm_compute. reflexivity.
  - vm_compute. discriminate.
  - vm_compute. reflexivity.
Defined.




(* ================================================================== *)
(** ** Further properties of the seed mask *)
(* ================================================================== *)

Lemma any_true_iff (m : grid bool) :
  any m = true <->
  exists y x, 0 <= y /\ 0 <= x /\ get false m y x = true.
Proof.
  unfold any. rewrite existsb_exists. split.
  - intros [r [Hr Hb]]. apply existsb_exists in Hb.
    destruct Hb as [b [Hb ->]].
    destruct (In_nth m r [] Hr) as [n [Hn En]].
    destruct (In_nth r true false Hb) as [k [Hk Ek]].
    exists (Z.of_nat n), (Z.of_nat k). split; [lia|]. split; [lia|].
    unfold get. destruct (Z.leb_spec 0 (Z.of_nat n)); [|lia].
    destruct (Z.leb_spec 0 (Z.of_nat k)); [|lia]. simpl.
    now rewrite !Nat2Z.id, En, Ek.
  - intros [y [x [Hy [Hx Hg]]]]. unfold get in Hg.
    destruct (Z.leb_spec 0 y); [|lia]. destruct (Z.leb_spec 0 x); [|lia].
    simpl in Hg.
    destruct (nth_in_or_default (Z.to_nat y) m []) as [Hin | Hd].
    + exists (nth (Z.to_nat y) m []). split; [assumption|].
      apply existsb_exists. exists true. split; [|reflexivity].
      destruct (nth_in_or_default (Z.to_nat x) (nth (Z.to_nat y) m []) false)
        as [Hin' | Hd']; [now rewrite Hg in Hin' | congruence].
    + rewrite Hd in Hg. destruct (Z.to_nat x); discriminate.
Qed.

Lemma rect_map {A B} (f : A -> B) Ly Lx (g : grid A) :
  rect Ly Lx g -> rect Ly Lx (map (map f) g).
Proof.
  intros [HL HF]. split; [now rewrite length_map|].
  apply Forall_forall. intros r Hr. apply in_map_iff in Hr.
  destruct Hr as [r0 [<- Hr0]]. rewrite length_map.
  rewrite Forall_forall in HF. now apply HF.
Qed.

Lemma rect_inside_of_get Ly Lx (m : grid bool) y x :
  rect Ly Lx m -> get false m y x = true -> inside Ly Lx y x = true.
Proof.
  intros HR Hg. destruct (inside Ly Lx y x) eqn:E; [reflexivity|].
  rewrite (Ndimage.get_rect false Ly Lx m y x HR E) in Hg. discriminate.
Qed.

Lemma rect_hysteresis Ly Lx (image : grid Q) low high :
  rect Ly Lx image ->
  rect Ly Lx (Skimage.apply_hysteresis_threshold image low high).
Proof.
  intros HR. unfold Skimage.apply_hysteresis_threshold, Ndimage.flood.
  assert (Hsh : nrows image = Ly /\ ncols image = Lx \/ Ly = 0%nat).
  { destruct HR as [HL HF]. unfold nrows, ncols.
    destruct image as [|r g]; simpl in *; [right; lia|].
    left. split; [assumption | now inversion HF]. }
  destruct Hsh as [[-> ->] | ->].
  - destruct (Ly * Lx)%nat; simpl; apply rect_tabulate.
  - destruct HR as [HL _]. unfold nrows. rewrite HL. simpl.
    split; [reflexivity | constructor].
Qed.

(** Every pixel of a hysteresis region is above the low threshold, and
    the region holds a pixel above the high one. *)
Lemma hysteresis_region_above Ly Lx image low high y x :
  (low <= high)%Q ->
  Skimage.hysteresis_region Ly Lx image low high y x ->
  (low < get 0%Q image y x)%Q /\
  exists y0 x0, inside Ly Lx y0 x0 = true /\
                (high < get 0%Q image y0 x0)%Q.
Proof.
  intros Hle. induction 1 as [y x Hin Hs | y' x' y x _ IH Hadj Hin Ha].
  - split; [eapply Qle_lt_trans; eauto | eauto].
  - split; [assumption | apply IH].
Qed.

Lemma seed_mask_plain_in_skel (dist : grid Q) (t : Q) Ly Lx y x :
  rect Ly Lx dist -> inside Ly Lx y x = true ->
  get false (seed_mask false dist t) y x = true ->
  get false (seed_mask true dist t) y x = true.
Proof.
  unfold seed_mask. intros Hshape Hin H.
  apply (Skimage.hysteresis_refines Ly Lx); auto; [apply threshold_band|].
  apply Skimage.hr_seed; [assumption|].
  apply (Skimage.get_gt_mask Ly Lx) in H; assumption.
Qed.

Lemma seed_mask_skel_region (dist : grid Q) (t : Q) Ly Lx y x :
  rect Ly Lx dist -> inside Ly Lx y x = true ->
  get false (seed_mask true dist t) y x = true ->
  (t - 1 < get 0%Q dist y x)%Q /\
  exists y0 x0, inside Ly Lx y0 x0 = true /\ (t < get 0%Q dist y0 x0)%Q.
Proof.
  unfold seed_mask. intros Hshape Hin H.
  apply (Skimage.hysteresis_refines Ly Lx) in H; auto;
    [|apply threshold_band].
  now apply (hysteresis_region_above _ _ _ _ _ _ _ (threshold_band _)) in H.
Qed.

(** X1: The skeleton-mode seed mask lies between the two plain thresholds: it
    contains every pixel with [dist > dist_threshold] and only pixels
    with [dist > dist_threshold - 1]. *)
Theorem X_seed_mask_between_thresholds (dist : grid Q) (dist_threshold : Q)
    (Ly Lx : nat) (y x : Z)
    (Hshape : rect Ly Lx dist) (Hin : inside Ly Lx y x = true) :
  (get false (seed_mask false dist dist_threshold) y x = true ->
   get false (seed_mask true dist dist_threshold) y x = true) /\
  (get false (seed_mask true dist dist_threshold) y x = true ->
   (dist_threshold - 1 < get 0%Q dist y x)%Q).
Proof.
  split; intros H.
  - now apply (seed_mask_plain_in_skel dist dist_threshold Ly Lx).
  - now apply (seed_mask_skel_region dist dist_threshold Ly Lx) in H.
Qed.

Lemma X_seed_mask_between_thresholds_witness :
  let dist := [[1 # 2; -1 # 2; 3 # 2]; [-2; -1 # 2; -3 # 2]]%Q in
  (get false (seed_mask false dist 0) 0 1 = true ->
   get false (seed_mask true dist 0) 0 1 = true) /\
  (get false (seed_mask true dist 0) 0 1 = true ->
   (0 - 1 < get 0%Q dist 0 1)%Q).
Proof.
  intros dist.
  apply (X_seed_mask_between_thresholds dist 0%Q 2%nat 3%nat 0 1).
  - split; [reflexivity | repeat constructor].
  - reflexivity.
Defined.

(** X2: Whether the seed mask is empty does not depend on [skel]: the
    skeleton-mode mask has a pixel exactly when some pixel exceeds
    [dist_threshold], so both modes take the empty-mask branch on the same
    inputs. *)
Theorem X_empty_mask_same_in_both_modes (dist : grid Q) (dist_threshold : Q)
    (Ly Lx : nat) (Hshape : rect Ly Lx dist) :
  any (seed_mask true dist dist_threshold)
  = any (seed_mask false dist dist_threshold).
Proof.
  apply Bool.eq_iff_eq_true. rewrite !any_true_iff. split.
  - intros [y [x [_ [_ H]]]].
    assert (Hin : inside Ly Lx y x = true).
    { eapply rect_inside_of_get; [|exact H].
      unfold seed_mask. now apply rect_hysteresis. }
    apply (seed_mask_skel_region dist dist_threshold Ly Lx) in H; auto.
    destruct H as [_ [y0 [x0 [Hin0 Hv]]]].
    exists y0, x0. apply inside_spec in Hin0 as Hb.
    split; [lia|]. split; [lia|].
    unfold seed_mask. apply (Skimage.get_gt_mask Ly Lx); assumption.
  - intros [y [x [Hy [Hx H]]]].
    assert (Hin : inside Ly Lx y x = true).
    { eapply rect_inside_of_get; [|exact H].
      unfold seed_mask, Skimage.gt_mask. now apply rect_map. }
    exists y, x. split; [assumption|]. split; [assumption|].
    now apply (seed_mask_plain_in_skel dist dist_threshold Ly Lx).
Qed.

Lemma X_empty_mask_same_in_both_modes_witness :
  let dist := [[1 # 2; -1 # 2; 3 # 2]; [-2; -1 # 2; -3 # 2]]%Q in
  any (seed_mask true dist 0) = any (seed_mask false dist 0).
Proof.
  intros dist.
  apply (X_empty_mask_same_in_both_modes dist 0%Q 2%nat 3%nat).
  split; [reflexivity | repeat constructor].
Defined.

(* ================================================================== *)
(** ** Further properties of [_compute_masks] *)
(* ================================================================== *)

Lemma compute_masks_run E nclasses dP dist bd p o s mask pos tr s' :
  _compute_masks E nclasses dP dist bd p o s = (Ok (mask, pos, tr), s') ->
  exists m0,
    labels_before_cleanup E nclasses dP dist bd p o s
      = (Ok (m0, pos, tr), s') /\
    cleanup m0 (min_size o) = Ok mask.
Proof.
  unfold _compute_masks. intros H.
  apply bind_ok in H. destruct H as [[[m0 pos0] tr0] [s1 [H1 H]]].
  apply bind_ok in H. destruct H as [m [s2 [H2 H]]].
  apply lift_ok in H2. destruct H2 as [H2 ->].
  apply ret_ok in H. destruct H as [Hr ->]. cbn [fst snd] in *.
  inversion Hr; subst. exists m0. auto.
Qed.

Lemma original_algorithm_run E dP mask p o s labels pos tr s' :
  original_algorithm E dP mask p o s = (Ok (labels, pos, tr), s') ->
  let advected :=
    follow_flows E (div_scalar (mul_mask (heap s dP) mask) 5) mask
                 (Some (niter_opt o)) (interp o) (skel o) (calc_trace o) in
  heap s' = heap s /\
  pos = match p with Some p0 => p0 | None => fst (fst advected) end /\
  tr = match p with Some _ => [] | None => snd advected end /\
  labels = get_masks E pos mask (heap s dP)
             (if do_3D o then None else Some (flow_threshold o)) /\
  calls s' = calls s ++
             match p with
             | Some _ => [EvGetMasks]
             | None => [EvFollowFlows (Some (niter_opt o)); EvGetMasks]
             end.
Proof.
  intros H advected. subst advected. unfold original_algorithm in H.
  apply bind_ok in H. destruct H as [[p1 tr1] [s1 [H1 H]]].
  apply bind_ok in H. destruct H as [flows [s2 [H2 H]]].
  apply read_ok in H2. destruct H2 as [-> ->].
  apply bind_ok in H. destruct H as [u [s3 [H3 H]]].
  apply emit_ok in H3. destruct H3 as [Hc [Hh _]].
  apply ret_ok in H. destruct H as [Hr ->]. cbn [fst snd] in Hr.
  inversion Hr; subst; clear Hr.
  destruct p as [p0|].
  - apply ret_ok in H1. destruct H1 as [H1 ->]. inversion H1; subst.
    rewrite Hh, Hc. auto.
  - apply bind_ok in H1. destruct H1 as [v [s4 [H4 H1]]].
    apply read_ok in H4. destruct H4 as [-> ->].
    apply bind_ok in H1. destruct H1 as [u' [s5 [H5 H1]]].
    apply emit_ok in H5. destruct H5 as [Hc5 [Hh5 _]].
    destruct (follow_flows E (div_scalar (mul_mask (heap s dP) mask) 5) mask
                (Some (niter_opt o)) (interp o) (skel o) (calc_trace o))
      as [[p2 i2] tr2] eqn:EF.
    apply ret_ok in H1. destruct H1 as [H1 ->]. inversion H1; subst.
    cbn [fst snd]. rewrite Hh, Hh5, Hc, Hc5, <- app_assoc. auto.
Qed.

Lemma skeleton_labels_calls E nclasses dist bd mask0 inds newinds s labels s' :
  skeleton_labels E nclasses dist bd mask0 inds newinds s = (Ok labels, s') ->
  calls s' = calls s ++ [EvLabel 1].
Proof.
  unfold skeleton_labels. intros H.
  apply bind_ok in H. destruct H as [sk [s1 [H1 H]]].
  apply lift_ok in H1. destruct H1 as [_ ->].
  apply bind_ok in H. destruct H as [u [s2 [H2 H]]].
  apply emit_ok in H2. destruct H2 as [Hc _].
  apply bind_ok in H. destruct H as [vals [s3 [H3 H]]].
  apply lift_ok in H3. destruct H3 as [_ ->].
  apply lift_ok in H. destruct H as [_ ->]. exact Hc.
Qed.

(** X3: Which collaborators a returning call of [_compute_masks] invokes, and
    in which order: none for an empty seed mask; in the original mode
    [get_masks], preceded by one advection with the iteration budget
    [niter] unless positions [p] were supplied; in skeleton mode one
    advection without iteration budget followed by exactly one of DBSCAN
    (clustering active) and [label] with connectivity 1. *)
Theorem X_collaborator_calls E nclasses dP dist bd p o s mask pos tr s'
    (Hrun : _compute_masks E nclasses dP dist bd p o s
            = (Ok (mask, pos, tr), s')) :
  let seed := seed_mask (skel o) dist (dist_threshold o) in
  calls s' = calls s ++
    if any seed then
      if skel o then
        [EvFollowFlows None;
         if clustering_active E nclasses dist seed o
         then EvDBSCAN (if nclasses =? 4 then Exact (1 + 1 / 3) else Sqrt 2) 3
         else EvLabel 1]
      else match p with
           | Some _ => [EvGetMasks]
           | None => [EvFollowFlows (Some (niter_opt o)); EvGetMasks]
           end
    else [].
Proof.
  intros seed. apply compute_masks_run in Hrun.
  destruct Hrun as [m0 [H _]]. unfold labels_before_cleanup in H.
  fold seed in H. destruct (any seed).
  - apply bind_ok in H. destruct H as [[[labels pos0] tr0] [s1 [H1 H]]].
    apply ret_ok in H. destruct H as [_ ->].
    destruct (skel o) eqn:Hskel; cbn [negb] in H1.
    + apply new_algorithm_run in H1.
      destruct H1 as [v [s2 [py [px [_ [_ [_ [_ [Hc H1]]]]]]]]].
      rewrite Hskel in H1.
      destruct (clustering_active E nclasses dist seed o).
      * apply cluster_labels_run in H1. destruct H1 as [Hc2 _].
        rewrite Hc2, Hc, <- app_assoc. unfold estimate_diameter.
        destruct (nclasses =? 4); reflexivity.
      * apply skeleton_labels_calls in H1.
        rewrite H1, Hc, <- app_assoc. reflexivity.
    + apply original_algorithm_run in H1. apply H1.
  - apply ret_ok in H. destruct H as [_ ->]. now rewrite app_nil_r.
Qed.

Lemma X_collaborator_calls_witness :
  let dist := [[1; 1; -1]; [-1; -1; -1]; [2; -1; 3]]%Q in
  let dP := ([[1; 2; 3]; [4; 5; 6]; [7; 8; 9]]%Q,
             [[1; 0; 0]; [5; 0; 0]; [0; 0; 0]]%Q) in
  let o := with_min_size default_options (-1) in
  let run := _compute_masks still 4 0%nat dist dist None o (store_of dP) in
  calls (snd run) =
    calls (store_of dP) ++ [EvFollowFlows (Some 200%Q); EvGetMasks].
Proof.
  intros dist dP o run.
  apply (X_collaborator_calls still 4 0%nat dist dist None o (store_of dP)
           (Matrix [[1; 1; 1]; [0; 0; 0]; [2; 2; 2]])
           (still_positions (seed_mask false dist 0)) (@nil unit) (snd run)).
  vm_compute. reflexivity.
Defined.

(** The keyword arguments that only the original algorithm reads, and
    those that only the new one reads. *)
Definition with_advection (o : options) (n f : Q) (d : bool) : options := {|
  niter_opt := n; dist_threshold := dist_threshold o;
  diam_threshold := diam_threshold o; flow_threshold := f;
  interp := interp o; cluster := cluster o; do_3D := d;
  min_size := min_size o; resize := resize o; skel := skel o;
  calc_trace := calc_trace o
|}.

Definition with_clustering (o : options) (c : bool) (t : Q) : options := {|
  niter_opt := niter_opt o; dist_threshold := dist_threshold o;
  diam_threshold := t; flow_threshold := flow_threshold o;
  interp := interp o; cluster := c; do_3D := do_3D o;
  min_size := min_size o; resize := resize o; skel := skel o;
  calc_trace := calc_trace o
|}.

(** X4: In skeleton mode the iteration budget [niter], [flow_threshold],
    [do_3D] and supplied positions [p] have no effect on the outcome:
    the call returns the same values (or raises the same exception) and
    leaves the same store whatever they are. *)
Theorem X_skeleton_mode_ignores_niter E nclasses dP dist bd p p' o s
    (n f : Q) (d : bool) (Hskel : skel o = true) :
  _compute_masks E nclasses dP dist bd p' (with_advection o n f d) s
  = _compute_masks E nclasses dP dist bd p o s.
Proof.
  unfold _compute_masks, labels_before_cleanup, new_algorithm.
  cbn [with_advection skel dist_threshold resize min_size diam_threshold
       cluster interp calc_trace].
  rewrite Hskel. reflexivity.
Qed.

Lemma X_skeleton_mode_ignores_niter_witness :
  let dist := [[1; 1; -1]; [-1; -1; -1]; [2; -1; 3]]%Q in
  let dP := ([[1; 2; 3]; [4; 5; 6]; [7; 8; 9]]%Q,
             [[1; 0; 0]; [5; 0; 0]; [0; 0; 0]]%Q) in
  let o := with_skel (with_min_size default_options (-1)) true in
  _compute_masks still 4 0%nat dist dist (Some dP)
                 (with_advection o 1 0 true) (store_of dP)
  = _compute_masks still 4 0%nat dist dist None o (store_of dP).
Proof.
  intros dist dP o.
  apply (X_skeleton_mode_ignores_niter still 4 0%nat dist dist None (Some dP)
           o (store_of dP) 1%Q 0%Q true).
  reflexivity.
Defined.

(** X5: Without [skel], the boundary map [bd], [nclasses], the [cluster] flag
    and [diam_threshold] have no effect on the outcome. *)
Theorem X_original_mode_ignores_clustering E nclasses nclasses' dP dist
    bd bd' p o s (c : bool) (t : Q) (Hskel : skel o = false) :
  _compute_masks E nclasses' dP dist bd' p (with_clustering o c t) s
  = _compute_masks E nclasses dP dist bd p o s.
Proof.
  unfold _compute_masks, labels_before_cleanup, original_algorithm.
  cbn [with_clustering skel dist_threshold resize min_size niter_opt
       flow_threshold do_3D interp calc_trace].
  rewrite Hskel. reflexivity.
Qed.

Lemma X_original_mode_ignores_clustering_witness :
  let dist := [[1; 1; -1]; [-1; -1; -1]; [2; -1; 3]]%Q in
  let dP := ([[1; 2; 3]; [4; 5; 6]; [7; 8; 9]]%Q,
             [[1; 0; 0]; [5; 0; 0]; [0; 0; 0]]%Q) in
  let o := with_min_size default_options (-1) in
  _compute_masks still 3 0%nat dist (zeros 0%Q 3 3) None
                 (with_clustering o true 100) (store_of dP)
  = _compute_masks still 4 0%nat dist dist None o (store_of dP).
Proof.
  intros dist dP o.
  apply (X_original_mode_ignores_clustering still 4 3 0%nat dist dist
           (zeros 0%Q 3 3) None o (store_of dP) true 100%Q).
  reflexivity.
Defined.

(** X6: What the original mode returns: the labels are those of [get_masks],
    run on the positions (the supplied [p], or else the result of one
    advection of the masked field divided by 5), the seed mask and the
    flow field exactly as it was passed in, with the flow check disabled
    in 3-D; they are then resized and sanitized.  With supplied positions
    the trace is empty. *)
Theorem X_original_mode_result E nclasses dP dist bd p o s mask pos tr s'
    (Hskel : skel o = false)
    (Hseed : any (seed_mask false dist (dist_threshold o)) = true)
    (Hrun : _compute_masks E nclasses dP dist bd p o s
            = (Ok (mask, pos, tr), s')) :
  let seed := seed_mask false dist (dist_threshold o) in
  let advected :=
    follow_flows E (div_scalar (mul_mask (heap s dP) seed) 5) seed
                 (Some (niter_opt o)) (interp o) false (calc_trace o) in
  let p0 := match p with Some q => q | None => fst (fst advected) end in
  let labels := get_masks E p0 seed (heap s dP)
                  (if do_3D o then None else Some (flow_threshold o)) in
  mask = Matrix (Cleanup.sanitize
                   (fst (resize_outputs E (resize o) labels p0))
                   (min_size o)) /\
  pos = snd (resize_outputs E (resize o) labels p0) /\
  tr = match p with Some _ => [] | None => snd advected end /\
  heap s' = heap s.
Proof.
  intros seed advected p0 labels. apply compute_masks_run in Hrun.
  destruct Hrun as [m0 [H Hc]]. unfold labels_before_cleanup in H.
  rewrite Hskel in H. fold seed in H. unfold seed in H at 1.
  rewrite Hseed in H. cbn [negb] in H.
  apply bind_ok in H. destruct H as [[[l1 pos1] tr1] [s1 [H1 H]]].
  apply ret_ok in H. destruct H as [H ->]. cbn [fst snd] in H.
  inversion H; subst; clear H.
  apply original_algorithm_run in H1. rewrite Hskel in H1.
  fold advected in H1. destruct H1 as [Hh [Hp [Ht [Hl _]]]].
  fold p0 in Hp. subst pos1. fold labels in Hl. subst l1.
  unfold cleanup in Hc. inversion Hc. auto.
Qed.

Lemma X_original_mode_result_witness :
  let dist := [[1; 1; -1]; [-1; -1; -1]; [2; -1; 3]]%Q in
  let dP := ([[1; 2; 3]; [4; 5; 6]; [7; 8; 9]]%Q,
             [[1; 0; 0]; [5; 0; 0]; [0; 0; 0]]%Q) in
  let o := with_min_size default_options (-1) in
  let run := _compute_masks still 4 0%nat dist dist (Some dP) o
                            (store_of dP) in
  let seed := seed_mask false dist 0 in
  let labels := get_masks still dP seed dP (Some (4 # 10)%Q) in
  Matrix [[1; 1; 1]; [0; 0; 0]; [2; 2; 2]] =
    Matrix (Cleanup.sanitize (fst (resize_outputs still None labels dP))
                             (-1)) /\
  dP = snd (resize_outputs still None labels dP) /\
  @nil unit = [] /\
  heap (snd run) = heap (store_of dP).
Proof.
  intros dist dP o run seed labels.
  apply (X_original_mode_result still 4 0%nat dist dist (Some dP) o
           (store_of dP) (Matrix [[1; 1; 1]; [0; 0; 0]; [2; 2; 2]]) dP
           (@nil unit) (snd run)).
  - reflexivity.
  - vm_compute. reflexivity.
  - vm_compute. reflexivity.
Defined.

(* ================================================================== *)
(** ** The divergence, as the code computes it *)
(* ================================================================== *)

(** The flow restricted to the mask, read along the flattened image: the
    value at flat index [i] of the row-major image, zero outside
    [0, Ly*Lx). *)
Definition flat_masked (mask : grid bool) (comp : grid Q) (Ly Lx : nat)
    (i : Z) : Q :=
  if (0 <=? i) && (i <? Z.of_nat Ly * Z.of_nat Lx)
  then masked mask comp (i / Z.of_nat Lx) (i mod Z.of_nat Lx)
  else 0%Q.

(** *** Index arrays on flat buffers *)

Lemma in_combine_seq {A} (d : A) (l : list A) a n v :
  In (n, v) (combine (seq a (length l)) l) <->
  (a <= n < a + length l)%nat /\ nth (n - a) l d = v.
Proof.
  revert a. induction l as [|h t IH]; intros a; simpl.
  - split; [tauto | lia].
  - rewrite IH. split.
    + intros [E | [Hn Hv]].
      * inversion E; subst. rewrite Nat.sub_diag. split; [lia | reflexivity].
      * split; [lia|]. replace (n - a)%nat with (S (n - S a)) by lia.
        exact Hv.
    + intros [Hn Hv]. destruct (Nat.eq_dec n a) as [-> | Hne].
      * left. rewrite Nat.sub_diag in Hv. now subst.
      * right. split; [lia|].
        replace (n - a)%nat with (S (n - S a)) in Hv by lia. exact Hv.
Qed.

Lemma in_nonzero (m : grid bool) y x :
  In (y, x) (nonzero m) <-> 0 <= y /\ 0 <= x /\ get false m y x = true.
Proof.
  unfold nonzero. rewrite in_flat_map. split.
  - intros [[n r] [Hnr Hin]]. cbn [fst snd] in Hin.
    apply (in_combine_seq []) in Hnr. destruct Hnr as [Hn Hr].
    unfold nonzero_row in Hin. apply in_flat_map in Hin.
    destruct Hin as [[k b] [Hkb Hin]]. cbn [fst snd] in Hin.
    apply (in_combine_seq false) in Hkb. destruct Hkb as [Hk Hb].
    destruct b; [|contradiction]. destruct Hin as [E | []].
    inversion E; subst y x. split; [lia|]. split; [lia|].
    unfold get. destruct (Z.leb_spec 0 (Z.of_nat n)); [|lia].
    destruct (Z.leb_spec 0 (Z.of_nat k)); [|lia]. cbn [andb].
    rewrite !Nat2Z.id. rewrite Nat.sub_0_r in Hr, Hb. now rewrite Hr.
  - intros [Hy [Hx Hg]]. unfold get in Hg.
    destruct (Z.leb_spec 0 y); [|lia]. destruct (Z.leb_spec 0 x); [|lia].
    cbn [andb] in Hg.
    assert (Hn : (Z.to_nat y < length m)%nat).
    { destruct (Nat.lt_ge_cases (Z.to_nat y) (length m)); [assumption|].
      rewrite (nth_overflow m []) in Hg by assumption.
      destruct (Z.to_nat x); discriminate. }
    assert (Hk : (Z.to_nat x < length (nth (Z.to_nat y) m []))%nat).
    { destruct (Nat.lt_ge_cases (Z.to_nat x)
                  (length (nth (Z.to_nat y) m []))); [assumption|].
      rewrite (nth_overflow _ false) in Hg by assumption. discriminate. }
    exists (Z.to_nat y, nth (Z.to_nat y) m []). split.
    + apply (in_combine_seq []). rewrite Nat.sub_0_r. split; [lia|reflexivity].
    + cbn [fst snd]. unfold nonzero_row. apply in_flat_map.
      exists (Z.to_nat x, true). split.
      * apply (in_combine_seq false). rewrite Nat.sub_0_r.
        split; [lia | exact Hg].
      * cbn [fst snd]. left. now rewrite !Z2Nat.id by lia.
Qed.

Lemma in_nonzero_rect Ly Lx (m : grid bool) y x :
  rect Ly Lx m ->
  (In (y, x) (nonzero m) <->
   inside Ly Lx y x = true /\ get false m y x = true).
Proof.
  intros HR. rewrite in_nonzero. split.
  - intros [_ [_ H]]. split; [|exact H]. now apply (rect_inside_of_get Ly Lx m).
  - intros [Hin H]. apply inside_spec in Hin. split; [lia|]. split; [lia|].
    exact H.
Qed.

Lemma length_concat_rect {A} Lx (g : grid A) :
  Forall (fun r => length r = Lx) g ->
  length (concat g) = (length g * Lx)%nat.
Proof.
  induction 1 as [|r g Hr _ IH]; simpl; [reflexivity|].
  rewrite length_app, IH, Hr. reflexivity.
Qed.

Lemma nth_concat_rect {A} (d : A) Lx (g : grid A) n k :
  Forall (fun r => length r = Lx) g ->
  (n < length g)%nat -> (k < Lx)%nat ->
  nth (n * Lx + k) (concat g) d = nth k (nth n g []) d.
Proof.
  intros HF. revert n. induction HF as [|r g Hr _ IH]; intros n Hn Hk;
    simpl in *; [lia|].
  destruct n as [|n].
  - simpl. now rewrite app_nth1 by lia.
  - rewrite app_nth2 by (rewrite Hr; simpl; lia).
    replace (S n * Lx + k - length r)%nat with (n * Lx + k)%nat
      by (rewrite Hr; simpl; lia).
    apply IH; [lia | assumption].
Qed.

Lemma take_inside {A} (d : A) a i :
  0 <= i < Z.of_nat (length a) ->
  Fancy.take d a i = Ok (nth (Z.to_nat i) a d).
Proof.
  intros H. unfold Fancy.take. now rewrite Fancy.index_inside.
Qed.

Lemma take_wrap {A} (d : A) a i :
  - Z.of_nat (length a) <= i < 0 ->
  Fancy.take d a i = Ok (nth (Z.to_nat (Z.of_nat (length a) + i)) a d).
Proof.
  intros H. unfold Fancy.take, index.
  destruct (Z.leb_spec 0 i); [lia|]. cbn [andb].
  destruct (Z.leb_spec (- Z.of_nat (length a)) i); [|lia].
  destruct (Z.ltb_spec i 0); [|lia]. reflexivity.
Qed.

Lemma gather_inside {A} (d : A) a idx :
  Forall (fun i => 0 <= i < Z.of_nat (length a)) idx ->
  Fancy.gather d a idx = Ok (map (fun i => nth (Z.to_nat i) a d) idx).
Proof.
  induction 1 as [|i idx Hi _ IH]; [reflexivity|].
  cbn [Fancy.gather map]. rewrite (take_inside d a i Hi). cbn [rbind].
  now rewrite IH.
Qed.

(** Assignments through an index array whose entries lie in the buffer
    and that give one index one value: every assigned index holds its
    value, every other index keeps its old one. *)
Lemma scatter_zip_functional {A} (d : A) (iv : list (Z * A)) (a : list A) :
  Forall (fun p => 0 <= fst p < Z.of_nat (length a)) iv ->
  (forall i v v', In (i, v) iv -> In (i, v') iv -> v = v') ->
  exists a',
    Fancy.scatter_zip a iv = Ok a' /\ length a' = length a /\
    (forall i v, In (i, v) iv -> nth (Z.to_nat i) a' d = v) /\
    (forall k, ~ In (Z.of_nat k) (map fst iv) -> nth k a' d = nth k a d).
Proof.
  revert a. induction iv as [|[i v] iv IH]; intros a Hr Hf.
  - exists a. simpl. repeat split; auto; contradiction.
  - inversion Hr as [|? ? Hi Hr']; subst. cbn [fst] in Hi.
    cbn [Fancy.scatter_zip]. unfold Fancy.put.
    rewrite Fancy.index_inside by assumption. cbn [rbind].
    destruct (IH (Fancy.set_nth (Z.to_nat i) v a)) as [a' [Ha [Hl [Hv Ho]]]].
    + rewrite Fancy.length_set_nth. exact Hr'.
    + intros j w w' H1 H2. apply (Hf j); now right.
    + exists a'. split; [exact Ha|].
      split; [now rewrite Hl, Fancy.length_set_nth|]. split.
      * intros j w [E | Hin]; [|now apply Hv]. inversion E; subst j w.
        destruct (in_dec Z.eq_dec i (map fst iv)) as [Hhit | Hmiss].
        -- apply in_map_iff in Hhit. destruct Hhit as [[j w] [Ej Hin]].
           cbn [fst] in Ej. subst j. rewrite (Hv i w Hin).
           apply (Hf i); [now right | now left].
        -- replace i with (Z.of_nat (Z.to_nat i)) in Hmiss by lia.
           rewrite (Ho _ Hmiss). rewrite Fancy.nth_set_nth by lia.
           now rewrite Nat.eqb_refl.
      * intros k Hk. cbn [map fst] in Hk.
        rewrite Ho by (intros H; apply Hk; now right).
        destruct (Nat.lt_ge_cases (Z.to_nat i) (length a)) as [Hlt | Hge];
          [|lia].
        rewrite Fancy.nth_set_nth by assumption.
        destruct (Nat.eqb_spec k (Z.to_nat i)) as [-> | _]; [|reflexivity].
        exfalso. apply Hk. left. lia.
Qed.

Lemma in_combine_map {A B} (f : A -> B) (l : list A) a b :
  In (a, b) (combine l (map f l)) <-> In a l /\ b = f a.
Proof.
  induction l as [|h t IH]; simpl; [tauto|]. rewrite IH. split.
  - intros [E | [H ->]]; [inversion E; auto | auto].
  - intros [[-> | H] ->]; [now left | right; auto].
Qed.

Lemma map_result_ok {A B I} (f : A -> result B) (h : A -> I) (l : list A) :
  (forall a, In a l -> exists b, f a = Ok b) ->
  exists bs, map_result f l = Ok bs /\ length bs = length l /\
    forall i v,
      In (i, v) (combine (map h l) bs) <->
      exists a, In a l /\ i = h a /\ f a = Ok v.
Proof.
  induction l as [|a l IH]; intros H.
  - exists []. split; [reflexivity|]. split; [reflexivity|].
    intros i v. simpl. split; [tauto | intros [a [[] _]]].
  - destruct (H a (or_introl eq_refl)) as [b Hb].
    destruct IH as [bs [Hbs [Hl Hin]]];
      [intros a' Ha'; apply H; now right|].
    exists (b :: bs). cbn [map_result]. rewrite Hb, Hbs. cbn [rbind].
    split; [reflexivity|]. split; [simpl; now rewrite Hl|].
    intros i v. cbn [map combine In]. rewrite Hin. split.
    + intros [E | [a' [Ha' [Hi Hv]]]].
      * inversion E; subst. exists a. auto.
      * exists a'. auto.
    + intros [a' [[-> | Ha'] [Hi Hv]]].
      * left. rewrite Hb in Hv. inversion Hv. now subst.
      * right. exists a'. auto.
Qed.

Lemma flat_index_inj Ly Lx y x y' x' :
  inside Ly Lx y x = true -> inside Ly Lx y' x' = true ->
  y * Z.of_nat Lx + x = y' * Z.of_nat Lx + x' -> y = y' /\ x = x'.
Proof.
  intros H H' E. apply inside_spec in H, H'.
  assert (y = y') by nia. subst. split; [reflexivity | lia].
Qed.

Lemma flat_index_range Ly Lx y x :
  inside Ly Lx y x = true ->
  0 <= y * Z.of_nat Lx + x < Z.of_nat Ly * Z.of_nat Lx.
Proof. intros H. apply inside_spec in H. nia. Qed.

Lemma nth_flat_get {A} (d : A) Ly Lx (g : grid A) y x :
  rect Ly Lx g -> inside Ly Lx y x = true ->
  nth (Z.to_nat (y * Z.of_nat Lx + x)) (concat g) d = get d g y x.
Proof.
  intros [HL HF] Hin. apply inside_spec in Hin.
  replace (Z.to_nat (y * Z.of_nat Lx + x))
    with (Z.to_nat y * Lx + Z.to_nat x)%nat by nia.
  rewrite (nth_concat_rect d Lx) by (auto; lia).
  unfold get. destruct (Z.leb_spec 0 y); [|lia].
  destruct (Z.leb_spec 0 x); [|lia]. reflexivity.
Qed.

Lemma masked_outside Ly Lx (mask : grid bool) comp y x :
  rect Ly Lx mask -> inside Ly Lx y x = false -> masked mask comp y x = 0%Q.
Proof.
  intros HR H. unfold masked.
  now rewrite (Ndimage.get_rect false Ly Lx mask y x HR H).
Qed.

Lemma flat_masked_pixel Ly Lx (mask : grid bool) comp y x :
  rect Ly Lx mask -> 0 <= x < Z.of_nat Lx ->
  flat_masked mask comp Ly Lx (y * Z.of_nat Lx + x) = masked mask comp y x.
Proof.
  intros HR Hx. unfold flat_masked.
  assert (Hd : (y * Z.of_nat Lx + x) / Z.of_nat Lx = y)
    by (symmetry; apply (Z.div_unique _ _ y x); lia).
  assert (Hm : (y * Z.of_nat Lx + x) mod Z.of_nat Lx = x)
    by (symmetry; apply (Z.mod_unique _ _ y x); lia).
  destruct (Z.leb_spec 0 (y * Z.of_nat Lx + x));
    destruct (Z.ltb_spec (y * Z.of_nat Lx + x) (Z.of_nat Ly * Z.of_nat Lx));
    cbn [andb].
  - now rewrite Hd, Hm.
  - symmetry. apply (masked_outside Ly Lx); [assumption|].
    apply inside_false. right. left. nia.
  - symmetry. apply (masked_outside Ly Lx); [assumption|].
    apply inside_false. left. nia.
  - symmetry. apply (masked_outside Ly Lx); [assumption|].
    apply inside_false. left. nia.
Qed.

(** *** The padded buffers *)

Lemma padded_size_bound Ly Lx :
  Z.of_nat (padded_size (Z.of_nat Ly) (Z.of_nat Lx))
  = Z.of_nat Ly * Z.of_nat Lx + 2 * Z.of_nat Ly + 2 * Z.of_nat Lx + 4.
Proof. unfold padded_size, pad. nia. Qed.

(** [Tx] and [Ty] hold the masked flow at the flat index of each pixel of
    the unpadded image and zero from [Ly*Lx] on. *)
Lemma padded_buffer_spec Ly Lx (mask : grid bool) (comp : grid Q) :
  rect Ly Lx mask -> rect Ly Lx comp ->
  exists T, padded_buffer comp Ly Lx (nonzero mask) = Ok T /\
    length T = padded_size (Z.of_nat Ly) (Z.of_nat Lx) /\
    forall k, nth k T 0%Q = flat_masked mask comp Ly Lx (Z.of_nat k).
Proof.
  intros HM HC. unfold padded_buffer, flatten.
  assert (Hlen : length (concat comp) = (Ly * Lx)%nat).
  { destruct HC as [HL HF]. now rewrite (length_concat_rect Lx), HL. }
  rewrite Hlen, Nat.eqb_refl. cbn [rbind].
  set (idx := map (flat_index (Z.of_nat Lx)) (nonzero mask)).
  assert (Hidx : forall i, In i idx ->
            exists y x, i = y * Z.of_nat Lx + x /\
                        inside Ly Lx y x = true /\
                        get false mask y x = true).
  { intros i Hi. apply in_map_iff in Hi. destruct Hi as [[y x] [<- Hin]].
    apply (in_nonzero_rect Ly Lx) in Hin; [|assumption].
    exists y, x. unfold flat_index. cbn [fst snd]. tauto. }
  assert (Hrange : forall i, In i idx ->
            0 <= i < Z.of_nat Ly * Z.of_nat Lx).
  { intros i Hi. destruct (Hidx i Hi) as [y [x [-> [Hin _]]]].
    now apply flat_index_range. }
  rewrite gather_inside
    by (apply Forall_forall; intros i Hi; apply Hrange in Hi; lia).
  cbn [rbind]. unfold Fancy.scatter, Fancy.broadcast.
  rewrite length_map, Nat.eqb_refl. cbn [rbind].
  pose proof (padded_size_bound Ly Lx) as Hsz.
  destruct (scatter_zip_functional 0%Q
              (combine idx (map (fun i => nth (Z.to_nat i) (concat comp) 0%Q)
                                idx))
              (repeat 0%Q (padded_size (Z.of_nat Ly) (Z.of_nat Lx))))
    as [T [HT [HlT [Hhit Hmiss]]]].
  - apply Forall_forall. intros [i v] Hiv. cbn [fst].
    apply in_combine_map in Hiv. destruct Hiv as [Hi _].
    apply Hrange in Hi. rewrite repeat_length. lia.
  - intros i v v' H1 H2. apply in_combine_map in H1, H2.
    destruct H1 as [_ ->]. destruct H2 as [_ ->]. reflexivity.
  - exists T. split; [exact HT|].
    split; [now rewrite HlT, repeat_length|]. intros k.
    destruct (in_dec Z.eq_dec (Z.of_nat k) idx) as [Hin | Hout].
    + assert (Hv := Hhit (Z.of_nat k) _
                      (proj2 (in_combine_map _ _ _ _) (conj Hin eq_refl))).
      rewrite Nat2Z.id in Hv. rewrite Hv.
      destruct (Hidx _ Hin) as [y [x [E [Hyx Hm]]]]. rewrite E.
      apply inside_spec in Hyx as Hb.
      rewrite (flat_masked_pixel Ly Lx) by (auto; lia).
      replace k with (Z.to_nat (y * Z.of_nat Lx + x)) by lia.
      rewrite (nth_flat_get 0%Q Ly Lx) by assumption.
      unfold masked. now rewrite Hm.
    + rewrite Hmiss.
      2:{ intros H. apply Hout. apply in_map_iff in H.
          destruct H as [[i v] [Ei Hiv]]. cbn [fst] in Ei. subst i.
          now apply in_combine_map in Hiv. }
      rewrite nth_repeat. unfold flat_masked.
      destruct (Z.leb_spec 0 (Z.of_nat k)); [|lia].
      destruct (Z.ltb_spec (Z.of_nat k) (Z.of_nat Ly * Z.of_nat Lx));
        cbn [andb]; [|reflexivity].
      assert (HLx : 0 < Z.of_nat Lx) by nia.
      pose proof (Z.div_mod (Z.of_nat k) (Z.of_nat Lx)) as Hdm.
      pose proof (Z.mod_pos_bound (Z.of_nat k) (Z.of_nat Lx) HLx) as Hmb.
      set (y := Z.of_nat k / Z.of_nat Lx) in *.
      set (x := Z.of_nat k mod Z.of_nat Lx) in *.
      unfold masked. destruct (get false mask y x) eqn:Hm; [|reflexivity].
      exfalso. apply Hout. unfold idx. apply in_map_iff.
      exists (y, x). split.
      * unfold flat_index. cbn [fst snd]. lia.
      * apply in_nonzero. split; [|split; [lia | exact Hm]].
        apply Z.div_pos; lia.
Qed.

(** Reading a padded buffer at a tap of the stencil: numpy accepts the
    index, a negative one wraps into the zero tail. *)
Lemma buffer_take Ly Lx (mask : grid bool) (comp : grid Q) T i :
  length T = padded_size (Z.of_nat Ly) (Z.of_nat Lx) ->
  (forall k, nth k T 0%Q = flat_masked mask comp Ly Lx (Z.of_nat k)) ->
  - (2 * Z.of_nat Ly + 2 * Z.of_nat Lx + 4) <= i
    < Z.of_nat (padded_size (Z.of_nat Ly) (Z.of_nat Lx)) ->
  Fancy.take 0%Q T i = Ok (flat_masked mask comp Ly Lx i).
Proof.
  intros HlT HT Hi. pose proof (padded_size_bound Ly Lx) as Hsz.
  destruct (Z_lt_dec i 0) as [Hneg | Hpos].
  - rewrite take_wrap by (rewrite HlT; nia). rewrite HT, HlT.
    rewrite Z2Nat.id by nia. unfold flat_masked.
    destruct (Z.leb_spec 0 i); [lia|]. cbn [andb].
    destruct (Z.ltb_spec
                (Z.of_nat (padded_size (Z.of_nat Ly) (Z.of_nat Lx)) + i)
                (Z.of_nat Ly * Z.of_nat Lx)); [nia|].
    now rewrite Bool.andb_false_r.
  - rewrite take_inside by (rewrite HlT; lia). rewrite HT.
    now rewrite Z2Nat.id by lia.
Qed.

(** *** The value the code stores in [div]

    The vertical taps are those of the 5-point stencil over the masked
    flow, zero outside the image.  The horizontal taps are taken along
    the flattened image: beyond the end of a row they read the
    neighbouring row. *)
Definition flat_divergence (mask : grid bool) (dP : vfield) (Ly Lx : nat)
    (y x : Z) : Q :=
  let Ty := masked mask (fst dP) in
  let Tx := flat_masked mask (snd dP) Ly Lx in
  let i := y * Z.of_nat Lx + x in
  if get false mask y x
  then (Ty (y + 2)%Z x + 8 * Ty (y + 1)%Z x - 8 * Ty (y - 1)%Z x
        - Ty (y - 2)%Z x
        + Tx (i + 2)%Z + 8 * Tx (i + 1)%Z - 8 * Tx (i - 1)%Z
        - Tx (i - 2)%Z)%Q
  else 0%Q.

Lemma stencil_spec Ly Lx (mask : grid bool) (dP : vfield) Tx Ty Y X :
  rect Ly Lx mask ->
  length Tx = padded_size (Z.of_nat Ly) (Z.of_nat Lx) ->
  (forall k, nth k Tx 0%Q = flat_masked mask (snd dP) Ly Lx (Z.of_nat k)) ->
  length Ty = padded_size (Z.of_nat Ly) (Z.of_nat Lx) ->
  (forall k, nth k Ty 0%Q = flat_masked mask (fst dP) Ly Lx (Z.of_nat k)) ->
  inside Ly Lx Y X = true -> get false mask Y X = true ->
  stencil Tx Ty (Z.of_nat Lx) (Y, X) = Ok (flat_divergence mask dP Ly Lx Y X).
Proof.
  intros HM HlX HX HlY HY Hin Hm. apply inside_spec in Hin as Hb.
  pose proof (padded_size_bound Ly Lx) as Hsz.
  assert (P1 : 0 <= Y * Z.of_nat Lx) by nia.
  assert (P2 : Y * Z.of_nat Lx <= (Z.of_nat Ly - 1) * Z.of_nat Lx) by nia.
  assert (P3 : 0 <= Z.of_nat Ly * Z.of_nat Lx) by nia.
  unfold stencil, stencil_taps_y, stencil_taps_x. cbn [fst snd Fancy.gather].
  rewrite !(buffer_take Ly Lx mask (fst dP) Ty) by (auto; lia).
  rewrite !(buffer_take Ly Lx mask (snd dP) Tx) by (auto; lia).
  cbn [rbind]. unfold flat_divergence. rewrite Hm. cbv zeta.
  rewrite !(flat_masked_pixel Ly Lx mask (fst dP)) by (auto; lia).
  reflexivity.
Qed.

(** For arrays of one shape the divergence is computed without an index
    error; [div] has [Ly*Lx] entries and holds [flat_divergence] at the
    flat index of every pixel. *)
Lemma divergence_spec Ly Lx (mask : grid bool) (dP : vfield) :
  rect Ly Lx mask -> rect Ly Lx (fst dP) -> rect Ly Lx (snd dP) ->
  exists div, divergence mask dP Ly Lx = Ok div /\
    length div = (Ly * Lx)%nat /\
    forall y x, inside Ly Lx y x = true ->
      nth (Z.to_nat (y * Z.of_nat Lx + x)) div 0%Q
      = flat_divergence mask dP Ly Lx y x.
Proof.
  intros HM H0 H1. unfold divergence.
  destruct (padded_buffer_spec Ly Lx mask (snd dP) HM H1)
    as [Tx [ETx [HlX HX]]].
  destruct (padded_buffer_spec Ly Lx mask (fst dP) HM H0)
    as [Ty [ETy [HlY HY]]].
  rewrite ETx, ETy. cbn [rbind].
  assert (Hst : forall p, In p (nonzero mask) ->
            stencil Tx Ty (Z.of_nat Lx) p
            = Ok (flat_divergence mask dP Ly Lx (fst p) (snd p))).
  { intros [y x] Hp. apply (in_nonzero_rect Ly Lx) in Hp; [|assumption].
    destruct Hp as [Hin Hm]. cbn [fst snd].
    now apply (stencil_spec Ly Lx). }
  destruct (map_result_ok (stencil Tx Ty (Z.of_nat Lx))
              (flat_index (Z.of_nat Lx)) (nonzero mask))
    as [vals [Ev [Hlv Hiv]]].
  { intros p Hp. eexists. now apply Hst. }
  rewrite Ev. cbn [rbind]. unfold Fancy.scatter, Fancy.broadcast.
  rewrite Hlv, length_map, Nat.eqb_refl. cbn [rbind].
  assert (Hpix : forall i v,
            In (i, v) (combine (map (flat_index (Z.of_nat Lx)) (nonzero mask))
                               vals) ->
            exists y x, i = y * Z.of_nat Lx + x /\
                        inside Ly Lx y x = true /\
                        get false mask y x = true /\
                        v = flat_divergence mask dP Ly Lx y x).
  { intros i v H. apply Hiv in H. destruct H as [[y x] [Hp [-> Hs]]].
    rewrite (Hst _ Hp) in Hs. inversion Hs.
    apply (in_nonzero_rect Ly Lx) in Hp; [|assumption].
    exists y, x. unfold flat_index. cbn [fst snd]. tauto. }
  destruct (scatter_zip_functional 0%Q
              (combine (map (flat_index (Z.of_nat Lx)) (nonzero mask)) vals)
              (repeat 0%Q (Ly * Lx)))
    as [div [Ed [Hld [Hhit Hmiss]]]].
  - apply Forall_forall. intros [i v] H. cbn [fst].
    destruct (Hpix i v H) as [y [x [-> [Hin _]]]].
    rewrite repeat_length. apply flat_index_range in Hin. lia.
  - intros i v v' Hv Hv'.
    destruct (Hpix i v Hv) as [y [x [E [Hin [_ ->]]]]].
    destruct (Hpix i v' Hv') as [y' [x' [E' [Hin' [_ ->]]]]].
    rewrite E in E'.
    destruct (flat_index_inj Ly Lx y x y' x' Hin Hin' E') as [-> ->].
    reflexivity.
  - exists div. split; [exact Ed|].
    split; [now rewrite Hld, repeat_length|].
    intros y x Hin. destruct (get false mask y x) eqn:Hm.
    + apply Hhit. apply Hiv. exists (y, x).
      split; [now apply (in_nonzero_rect Ly Lx)|].
      split; [reflexivity|]. now apply Hst, (in_nonzero_rect Ly Lx).
    + unfold flat_divergence. rewrite Hm.
      apply flat_index_range in Hin as Hr. rewrite Hmiss.
      * now rewrite nth_repeat.
      * rewrite Z2Nat.id by lia. intros H. apply in_map_iff in H.
        destruct H as [[i v] [Ei Hv]]. cbn [fst] in Ei. subst i.
        destruct (Hpix _ v Hv) as [y' [x' [E [Hin' [Hm' _]]]]].
        destruct (flat_index_inj Ly Lx y x y' x' Hin Hin' E) as [-> ->].
        congruence.
Qed.

(** X7: For a mask and a flow field of one shape the divergence never
    fails on an index, whatever the mask: taps left of the first pixel
    wrap to the zero tail of the buffer, the others stay inside it.  The
    result has [Ly*Lx] entries, is zero off the mask, and on the mask is
    the vertical part of the 5-point stencil over the masked flow plus a
    horizontal part whose taps are read along the flattened image. *)
Theorem X_divergence_total_and_flat (Ly Lx : nat) (mask : grid bool)
    (dP : vfield)
    (Hmask : rect Ly Lx mask)
    (Hy : rect Ly Lx (fst dP)) (Hx : rect Ly Lx (snd dP)) :
  let Ty := masked mask (fst dP) in
  let Tx := flat_masked mask (snd dP) Ly Lx in
  exists div, divergence mask dP Ly Lx = Ok div /\
    length div = (Ly * Lx)%nat /\
    forall y x, inside Ly Lx y x = true ->
      let i := y * Z.of_nat Lx + x in
      nth (Z.to_nat i) div 0%Q
      = if get false mask y x
        then (Ty (y + 2)%Z x + 8 * Ty (y + 1)%Z x - 8 * Ty (y - 1)%Z x
              - Ty (y - 2)%Z x
              + Tx (i + 2)%Z + 8 * Tx (i + 1)%Z - 8 * Tx (i - 1)%Z
              - Tx (i - 2)%Z)%Q
        else 0%Q.
Proof.
  intros Ty Tx.
  destruct (divergence_spec Ly Lx mask dP Hmask Hy Hx) as [div [E [Hl H]]].
  exists div. split; [exact E|]. split; [exact Hl|].
  intros y x Hin i. subst i. rewrite (H y x Hin).
  unfold flat_divergence. reflexivity.
Qed.

Lemma X_divergence_total_and_flat_witness :
  let mask := [[true; true; true]; [true; true; true]] in
  let dP := ([[1; 2; 3]; [4; 5; 6]]%Q, [[1; 10; 100]; [1000; 20; 30]]%Q) in
  let Ty := masked mask (fst dP) in
  let Tx := flat_masked mask (snd dP) 2 3 in
  exists div, divergence mask dP 2 3 = Ok div /\
    length div = (2 * 3)%nat /\
    forall y x, inside 2 3 y x = true ->
      let i := y * Z.of_nat 3 + x in
      nth (Z.to_nat i) div 0%Q
      = if get false mask y x
        then (Ty (y + 2)%Z x + 8 * Ty (y + 1)%Z x - 8 * Ty (y - 1)%Z x
              - Ty (y - 2)%Z x
              + Tx (i + 2)%Z + 8 * Tx (i + 1)%Z - 8 * Tx (i - 1)%Z
              - Tx (i - 2)%Z)%Q
        else 0%Q.
Proof.
  intros mask dP.
  apply (X_divergence_total_and_flat 2 3 mask dP);
    (split; [reflexivity | repeat constructor]).
Defined.

(** X8: Two or more columns away from the left and right edges of the image
    the divergence is the 5-point stencil of the specification, in every
    row: the code departs from it only in the two outermost columns on
    each side. *)
Theorem X_divergence_correct_off_side_columns (Ly Lx : nat)
    (mask : grid bool) (dP : vfield) (div : list Q) (y x : Z)
    (Hmask : rect Ly Lx mask)
    (Hy : rect Ly Lx (fst dP)) (Hx : rect Ly Lx (snd dP))
    (Hdiv : divergence mask dP Ly Lx = Ok div)
    (Hrow : 0 <= y < Z.of_nat Ly)
    (Hcol : 2 <= x < Z.of_nat Lx - 2) :
  nth (Z.to_nat (y * Z.of_nat Lx + x)) div 0%Q
  = get 0%Q (spec_divergence mask dP Ly Lx) y x.
Proof.
  destruct (divergence_spec Ly Lx mask dP Hmask Hy Hx) as [div' [E [_ H]]].
  rewrite Hdiv in E. inversion E; subst div'.
  assert (Hin : inside Ly Lx y x = true) by (apply inside_spec; lia).
  rewrite (H y x Hin). unfold spec_divergence. cbv zeta.
  rewrite get_tabulate by assumption. unfold flat_divergence.
  replace (y * Z.of_nat Lx + x + 2) with (y * Z.of_nat Lx + (x + 2)) by lia.
  replace (y * Z.of_nat Lx + x + 1) with (y * Z.of_nat Lx + (x + 1)) by lia.
  replace (y * Z.of_nat Lx + x - 1) with (y * Z.of_nat Lx + (x - 1)) by lia.
  replace (y * Z.of_nat Lx + x - 2) with (y * Z.of_nat Lx + (x - 2)) by lia.
  rewrite !(flat_masked_pixel Ly Lx mask (snd dP)) by (auto; lia).
  reflexivity.
Qed.

Lemma X_divergence_correct_off_side_columns_witness :
  let mask := [[true; true; true; true; true]; [true; true; true; true; true]]
  in
  let dP := ([[1; 2; 3; 4; 5]; [6; 7; 8; 9; 10]]%Q,
             [[1; 10; 100; 1000; 3]; [7; 20; 30; 40; 50]]%Q) in
  nth (Z.to_nat (1 * Z.of_nat 5 + 2))
      [228; 1848; 7986; -707; -7944; -842; 205; 179; 108; -390]%Q 0%Q
  = get 0%Q (spec_divergence mask dP 2 5) 1 2.
Proof.
  intros mask dP.
  apply (X_divergence_correct_off_side_columns 2 5 mask dP);
    try (split; [reflexivity | repeat constructor]); try lia.
  vm_compute. reflexivity.
Defined.

(* ================================================================== *)
(** ** The evaluation entry points

    [CellposeModel.eval], [SizeModel.eval] and [Cellpose.eval]: how the
    arguments [channels], [rescale] and [diameter] travel from the caller
    to the network runs, on a single image and on lists of images. *)
(* ================================================================== *)

Module Evaluation.

(** *** Floating-point values

    Finite values are idealised as rationals; the two infinities and NaN
    are kept, since the code tests for them. *)
Inductive flt : Type :=
| Num (q : Q)
| Inf (positive : bool)
| NaN.

(** [a > 0], [a == 0] and [np.isnan(a)] *)
Definition fgt0 (a : flt) : bool :=
  match a with Num q => Np.Qgtb q 0 | Inf s => s | NaN => false end.

Definition feq0 (a : flt) : bool :=
  match a with Num q => Qeq_bool q 0 | _ => false end.

Definition fisnan (a : flt) : bool :=
  match a with NaN => true | _ => false end.

(** [a / b] on numpy floats: division by zero gives an infinity or NaN. *)
Definition fdiv (a b : flt) : flt :=
  match a, b with
  | NaN, _ | _, NaN => NaN
  | Inf _, Inf _ => NaN
  | Inf s, Num q => Inf (if Np.Qgtb 0 q then negb s else s)
  | Num _, Inf _ => Num 0
  | Num p, Num q =>
      if Qeq_bool q 0
      then (if Qeq_bool p 0 then NaN else Inf (Np.Qgtb p 0))
      else Num (p / q)
  end.

(** [np.maximum(a, b)]: NaN if either argument is NaN. *)
Definition fmaximum (a b : flt) : flt :=
  match a, b with
  | NaN, _ | _, NaN => NaN
  | Inf true, _ | _, Inf true => Inf true
  | Inf false, c | c, Inf false => c
  | Num p, Num q => Num (if Np.Qgtb p q then p else q)
  end.

(** *** Python values that reach [channels], [rescale] and [diameter] *)
#[warnings="-register-all"] Inductive pyval : Type :=
| PyNone
| PyFloat (f : flt)
| PyList (l : list pyval)
| PyArray (a : list flt).

Inductive pyexn : Type := PyTypeError | PyIndexError | PyValueError.

Inductive outcome (A : Type) : Type :=
| Returns (a : A)
| Raises (e : pyexn).
Arguments Returns {A} a.
Arguments Raises {A} e.

Definition obind {A B} (r : outcome A) (k : A -> outcome B) : outcome B :=
  match r with Returns a => k a | Raises e => Raises e end.

Notation "x <-- c ;; k" := (obind c (fun x => k))
  (at level 61, c at next level, right associativity).

(** [isinstance(v, list)] and [isinstance(v, np.ndarray)] *)
Definition is_list (v : pyval) : bool :=
  match v with PyList _ => true | _ => false end.

Definition is_ndarray (v : pyval) : bool :=
  match v with PyArray _ => true | _ => false end.

(** [len(v)]: [None] and numbers have no length. *)
Definition py_len (v : pyval) : outcome nat :=
  match v with
  | PyList l => Returns (length l)
  | PyArray a => Returns (length a)
  | PyNone | PyFloat _ => Raises PyTypeError
  end.

(** [v[i]] for a loop index [i >= 0]. *)
Definition py_item (v : pyval) (i : nat) : outcome pyval :=
  match v with
  | PyList l =>
      match nth_error l i with
      | Some w => Returns w
      | None => Raises PyIndexError
      end
  | PyArray a =>
      match nth_error a i with
      | Some f => Returns (PyFloat f)
      | None => Raises PyIndexError
      end
  | PyNone | PyFloat _ => Raises PyTypeError
  end.

(** The truth value of a boolean array: that of its element if it has
    one, [False] if it is empty, ambiguous (ValueError) otherwise. *)
Definition array_truth (bs : list bool) : outcome bool :=
  match bs with
  | [] => Returns false
  | [b] => Returns b
  | _ => Raises PyValueError
  end.

(** The truth value of [v > 0] and of [v == 0]; a list cannot be compared
    with a number by [>], and is never equal to one. *)
Definition py_positive (v : pyval) : outcome bool :=
  match v with
  | PyFloat f => Returns (fgt0 f)
  | PyArray a => array_truth (map fgt0 a)
  | PyNone | PyList _ => Raises PyTypeError
  end.

Definition py_is_zero (v : pyval) : outcome bool :=
  match v with
  | PyFloat f => Returns (feq0 f)
  | PyArray a => array_truth (map feq0 a)
  | PyNone | PyList _ => Returns false
  end.

(** [c / v] for a float [c]. *)
Definition py_rdiv (c : flt) (v : pyval) : outcome pyval :=
  match v with
  | PyFloat f => Returns (PyFloat (fdiv c f))
  | PyArray a => Returns (PyArray (map (fdiv c) a))
  | PyNone | PyList _ => Raises PyTypeError
  end.

(** [c / np.array(v)]: a list of numbers becomes an array first. *)
Fixpoint floats_of (l : list pyval) : option (list flt) :=
  match l with
  | [] => Some []
  | PyFloat f :: l' => option_map (cons f) (floats_of l')
  | _ :: _ => None
  end.

Definition py_rdiv_array (c : flt) (v : pyval) : outcome pyval :=
  match v with
  | PyList l =>
      match floats_of l with
      | Some a => Returns (PyArray (map (fdiv c) a))
      | None => Raises PyTypeError
      end
  | _ => py_rdiv c v
  end.

(** *** Inputs and results

    An input is an image (an array that the single-image branch takes)
    or a list of inputs.  The three results of an evaluation are kept
    apart by their constructors, so that the position in which each is
    returned can be followed through the list branch. *)
#[warnings="-register-all"] Inductive input (image : Type) : Type :=
| Image (img : image)
| Batch (xs : list (input image)).
Arguments Image {image} img.
Arguments Batch {image} xs.

#[warnings="-register-all"] Inductive value (mask flows style : Type) : Type :=
| VMask (m : mask)
| VFlows (f : flows)
| VStyle (s : style)
| VList (l : list (value mask flows style)).
Arguments VMask {mask flows style} m.
Arguments VFlows {mask flows style} f.
Arguments VStyle {mask flows style} s.
Arguments VList {mask flows style} l.

Inductive kind : Type := KMask | KFlows | KStyle.

(** The keyword arguments of [CellposeModel.eval] that the entry points
    set themselves; [kw_common] stands for the image handling options
    ([channel_axis], [normalize], [invert], [augment], [tile],
    [batch_size]) and [kw_rest] for the others, which are handed on as
    they are. *)
Record kwargs (common rest : Type) : Type := {
  kw_common : common;
  kw_net_avg : bool;
  kw_compute_masks : bool;
  kw_interp : bool;
  kw_skel : bool;
  kw_rest : rest
}.
Arguments kw_common {common rest} k.
Arguments kw_net_avg {common rest} k.
Arguments kw_compute_masks {common rest} k.
Arguments kw_interp {common rest} k.
Arguments kw_skel {common rest} k.
Arguments kw_rest {common rest} k.

Section Eval.

Variables image mask flows style common rest : Type.
(** [self.diam_mean] of the [CellposeModel]. *)
Variable diam_mean : flt.
(** The single-image run: [convert_image], [_run_cp] at the resolved
    rescale and the assembly of [flows]; it yields masks, flows and
    styles. *)
Variable run_single :
  image -> pyval -> pyval -> kwargs common rest ->
  outcome (mask * flows * style).

Definition val : Type := value mask flows style.

(** Lines 532-533: the rescale handed to [_run_cp]. *)
Definition resolve_rescale (rescale diameter : pyval) : outcome pyval :=
  from_diameter <--
    match rescale, diameter with
    | PyNone, PyNone => Returns false
    | PyNone, _ => py_positive diameter
    | _, _ => Returns false
    end ;;
  rescale <-- (if from_diameter : bool then py_rdiv diam_mean diameter
               else Returns rescale) ;;
  Returns (match rescale with PyNone => PyFloat (Num 1) | _ => rescale end).

(** Lines 493-495: the [channels] argument of the call for image [i]. *)
Definition channels_for (channels : pyval) (nimg i : nat) : outcome pyval :=
  n <-- py_len channels ;;
  if Nat.eqb n nimg then
    ci <-- py_item channels i ;;
    if is_list ci && is_ndarray ci then
      m <-- py_len ci ;;
      Returns (if Nat.eqb m 2 then ci else channels)
    else Returns channels
  else Returns channels.

(** Lines 500-501: [v[i] if isinstance(v, list) or isinstance(v,
    np.ndarray) else v]. *)
Definition item_or_self (v : pyval) (i : nat) : outcome pyval :=
  if is_list v || is_ndarray v then py_item v i else Returns v.

(** Lines 485-524: the loop of the list branch.  [call] is the recursive
    call; its three results are bound to [maski, stylei, flowi] in this
    order. *)
Fixpoint eval_loop
    (call : input image -> pyval -> pyval -> pyval -> outcome (val * val * val))
    (channels rescale diameter : pyval) (nimg : nat)
    (todo : list (input image)) (i : nat) (masks styles flows : list val)
  : outcome (val * val * val) :=
  match todo with
  | [] => Returns (VList masks, VList styles, VList flows)
  | xi :: todo' =>
      ch <-- channels_for channels nimg i ;;
      rs <-- item_or_self rescale i ;;
      dm <-- item_or_self diameter i ;;
      r <-- call xi ch rs dm ;;
      let '(maski, stylei, flowi) := r in
      eval_loop call channels rescale diameter nimg todo' (S i)
                (masks ++ [maski]) (styles ++ [stylei]) (flows ++ [flowi])
  end.

(** [CellposeModel.eval] (lines 375-565) *)
Fixpoint eval (x : input image) (channels rescale diameter : pyval)
    (kw : kwargs common rest) {struct x} : outcome (val * val * val) :=
  match x with
  | Batch xs =>
      eval_loop (fun xi ch rs dm => eval xi ch rs dm kw)
                channels rescale diameter (length xs) xs 0 [] [] []
  | Image img =>
      rescale <-- resolve_rescale rescale diameter ;;
      r <-- run_single img channels rescale kw ;;
      let '(masks, fl, styles) := r in
      Returns (VMask masks, VFlows fl, VStyle styles)
  end.

(** *** [SizeModel] *)

(** [self.diam_mean] of the [SizeModel] (read from the parameter file). *)
Variable sz_diam_mean : flt.
(** [np.exp(A @ (style - smean).T + np.log(diam_mean) + ymean)] *)
Variable regression : val -> flt.
(** [utils.diameters(masks, skel=skel)[0]] *)
Variable diameters : val -> bool -> flt.
(** [x.squeeze().ndim] *)
Variable squeezed_ndim : image -> nat.
(** [hasattr(self, 'model_type') and (self.model_type=='nuclei' or
    self.model_type=='cyto') and not self.torch] *)
Variable legacy_scale : bool.
(** [(np.pi**0.5)/2] *)
Variable sqrt_pi_half : Q.
(** The keyword arguments of [CellposeModel.eval] left at their
    defaults by [SizeModel.eval]. *)
Variable default_rest : rest.

(** [SizeModel._size_estimation] (lines 1090-1100) *)
Definition _size_estimation (styles : val) : flt :=
  fmaximum (Num 5) (regression styles).

(** Lines 1061 and 1083-1087: the guard against a zero or NaN diameter. *)
Definition or_default (d fallback : flt) : flt :=
  if feq0 d || fisnan d then fallback else d.

(** The rescale of the mask pass (line 1072). *)
Definition size_rescale (diam_style : flt) : flt :=
  fdiv sz_diam_mean diam_style.

Fixpoint size_loop
    (call : input image -> pyval -> outcome (pyval * pyval))
    (channels : pyval) (nimg : nat) (todo : list (input image)) (i : nat)
    (diams diams_style : list pyval) : outcome (pyval * pyval) :=
  match todo with
  | [] => Returns (PyList diams, PyList diams_style)
  | xi :: todo' =>
      ch <-- channels_for channels nimg i ;;
      r <-- call xi ch ;;
      size_loop call channels nimg todo' (S i)
                (diams ++ [fst r]) (diams_style ++ [snd r])
  end.

(** [SizeModel.eval] (lines 970-1088) *)
Fixpoint size_eval (x : input image) (channels : pyval) (c : common)
    (skel : bool) {struct x} : outcome (pyval * pyval) :=
  match x with
  | Batch xs =>
      size_loop (fun xi ch => size_eval xi ch c skel)
                channels (length xs) xs 0 [] []
  | Image img =>
      if (3 <? squeezed_ndim img)%nat
      then Returns (PyFloat sz_diam_mean, PyFloat sz_diam_mean)
      else
        r1 <-- eval x channels PyNone PyNone
                 {| kw_common := c; kw_net_avg := false;
                    kw_compute_masks := false; kw_interp := true;
                    kw_skel := false; kw_rest := default_rest |} ;;
        let diam_style := _size_estimation (snd r1) in
        let diam_style := or_default diam_style sz_diam_mean in
        r2 <-- eval x channels (PyFloat (size_rescale diam_style)) PyNone
                 {| kw_common := c; kw_net_avg := false;
                    kw_compute_masks := true; kw_interp := false;
                    kw_skel := skel; kw_rest := default_rest |} ;;
        let diam := diameters (fst (fst r2)) skel in
        if legacy_scale && negb skel
        then Returns
               (PyFloat (or_default diam
                           (fdiv sz_diam_mean (Num sqrt_pi_half))),
                PyFloat (fdiv diam_style (Num sqrt_pi_half)))
        else Returns (PyFloat (or_default diam sz_diam_mean),
                      PyFloat diam_style)
  end.

(** *** [Cellpose.eval] *)

(** [x]: an image or a list of images. *)
Inductive images : Type :=
| One (img : image)
| Many (imgs : list image).

Definition as_input (x : images) : input image :=
  match x with
  | One img => Image img
  | Many imgs => Batch (map Image imgs)
  end.

(** [self.diam_mean] of the [Cellpose] object. *)
Variable top_diam_mean : flt.
(** [self.pretrained_size is not None] *)
Variable has_size_model : bool.
(** [img.ndim], and [img[0].ndim] (an IndexError if there is no first
    slice). *)
Variable image_ndim : image -> nat.
Variable slice_ndim : image -> outcome nat.

(** [x[0].ndim] *)
Definition first_ndim (x : images) : outcome nat :=
  match x with
  | One img => slice_ndim img
  | Many [] => Raises PyIndexError
  | Many (img :: _) => Returns (image_ndim img)
  end.

(** [Cellpose.eval] (lines 123-280); [compute_masks] is not one of its
    parameters, [kw] carries the default. *)
Definition cellpose_eval (x : images) (channels diameter rescale : pyval)
    (do_3D : bool) (kw : kwargs common rest)
  : outcome (val * val * val * pyval) :=
  let channels := match channels with
                  | PyNone => PyList [PyFloat (Num 0); PyFloat (Num 0)]
                  | _ => channels
                  end in
  estimate_size <-- match diameter with
                    | PyNone => Returns true
                    | _ => py_is_zero diameter
                    end ;;
  estimable <-- (if (estimate_size : bool) && has_size_model && negb do_3D
                 then n <-- first_ndim x ;; Returns (n <? 4)%nat
                 else Returns false) ;;
  if estimable : bool then
    sz <-- size_eval (as_input x) channels (kw_common kw) false ;;
    let diams := fst sz in
    rescale <-- py_rdiv_array top_diam_mean diams ;;
    r <-- eval (as_input x) channels rescale PyNone kw ;;
    Returns (r, diams)
  else if estimate_size then
    r <-- eval (as_input x) channels rescale diameter kw ;;
    Returns (r, PyFloat top_diam_mean)
  else
    r <-- eval (as_input x) channels rescale diameter kw ;;
    Returns (r, diameter).

End Eval.

Arguments val : clear implicits.
Arguments eval_loop {image mask flows style} call channels rescale diameter
  nimg todo i masks styles flows.
Arguments eval {image mask flows style common rest} diam_mean run_single
  x channels rescale diameter kw.
Arguments _size_estimation {mask flows style} regression styles.
Arguments size_loop {image} call channels nimg todo i diams diams_style.
Arguments size_eval {image mask flows style common rest} diam_mean run_single
  sz_diam_mean regression diameters squeezed_ndim legacy_scale sqrt_pi_half
  default_rest x channels c skel.
Arguments One {image} img.
Arguments Many {image} imgs.
Arguments as_input {image} x.
Arguments first_ndim {image} image_ndim slice_ndim x.
Arguments cellpose_eval {image mask flows style common rest} diam_mean
  run_single sz_diam_mean regression diameters squeezed_ndim legacy_scale
  sqrt_pi_half default_rest top_diam_mean has_size_model image_ndim
  slice_ndim x channels diameter rescale do_3D kw.

(** *** Notions used to state the properties *)

(** [shaped k x v]: [v] has the nesting of the input [x] and holds a
    result of kind [k] for every image. *)
Fixpoint shaped {image mask flows style} (k : kind) (x : input image)
    (v : value mask flows style) {struct x} : bool :=
  match x, v with
  | Image _, VMask _ => match k with KMask => true | _ => false end
  | Image _, VFlows _ => match k with KFlows => true | _ => false end
  | Image _, VStyle _ => match k with KStyle => true | _ => false end
  | Batch xs, VList vs =>
      (fix all2 (xs : list (input image)) (vs : list (value mask flows style))
         : bool :=
         match xs, vs with
         | [], [] => true
         | x' :: xs', v' :: vs' => shaped k x' v' && all2 xs' vs'
         | _, _ => false
         end) xs vs
  | _, _ => false
  end.

(** A float that is a number other than zero. *)
Definition usable (a : flt) : Prop :=
  exists q, a = Num q /\ ~ (q == 0)%Q.

(** A small network for running the entry points: an image is a number,
    its mask is the image scaled by the rescale it is run at. *)
Definition toy_run (img : Z) (channels rescale : pyval)
    (kw : kwargs unit unit) : outcome (Q * Z * Z) :=
  match rescale with
  | PyFloat (Num r) => Returns ((inject_Z img * r)%Q, img + 1, img + 2)
  | _ => Raises PyTypeError
  end.

Definition toy_kwargs : kwargs unit unit :=
  {| kw_common := tt; kw_net_avg := true; kw_compute_masks := true;
     kw_interp := true; kw_skel := false; kw_rest := tt |}.

Definition toy_diameters (v : val Q Z Z) (skel : bool) : flt :=
  match v with VMask m => Num m | _ => NaN end.

Definition toy_regression (v : val Q Z Z) : flt :=
  match v with VStyle s => Num (inject_Z s) | _ => NaN end.

End Evaluation.

(* ================================================================== *)
(** ** Properties of the evaluation entry points *)
(* ================================================================== *)

Import Evaluation.

Fixpoint input_ind_nested {image} (P : input image -> Prop)
    (HI : forall img, P (Image img))
    (HB : forall xs, Forall P xs -> P (Batch xs))
    (x : input image) {struct x} : P x :=
  match x with
  | Image img => HI img
  | Batch xs =>
      HB xs ((fix go (l : list (input image)) : Forall P l :=
                match l with
                | [] => Forall_nil P
                | x' :: l' =>
                    Forall_cons x' (input_ind_nested P HI HB x') (go l')
                end) xs)
  end.

Fixpoint all_shaped {image mask flows style} (k : kind)
    (xs : list (input image)) (vs : list (value mask flows style)) : bool :=
  match xs, vs with
  | [], [] => true
  | x :: xs', v :: vs' => shaped k x v && all_shaped k xs' vs'
  | _, _ => false
  end.

Lemma shaped_batch {image mask flows style} k (xs : list (input image))
    (vs : list (value mask flows style)) :
  shaped k (Batch xs) (VList vs) = all_shaped k xs vs.
Proof.
  cbn [shaped]. revert vs.
  induction xs as [|x xs IH]; intros [|v vs]; cbn [all_shaped];
    try reflexivity.
  now rewrite IH.
Qed.

Lemma all_shaped_cons_app {image mask flows style} k (x : input image)
    (xs : list (input image)) (v : value mask flows style) vs :
  shaped k x v = true -> all_shaped k xs vs = true ->
  all_shaped k (x :: xs) (v :: vs) = true.
Proof. intros H1 H2. cbn [all_shaped]. now rewrite H1, H2. Qed.

Lemma obind_returns {A B} (r : outcome A) (k : A -> outcome B) b :
  obind r k = Returns b -> exists a, r = Returns a /\ k a = Returns b.
Proof. destruct r as [a|e]; simpl; [eauto | discriminate]. Qed.

(** The list branch appends what the recursive calls return; the lists
    named [styles] and [flows] receive the second and the third result of
    each call. *)
Lemma eval_loop_shaped {image mask flows style}
    (call : input image -> pyval -> pyval -> pyval ->
            outcome (val mask flows style * val mask flows style
                     * val mask flows style))
    channels rescale diameter nimg todo :
  Forall (fun xi => forall c1 r1 d1 a b c,
            call xi c1 r1 d1 = Returns (a, b, c) ->
            shaped KMask xi a = true /\ shaped KFlows xi b = true /\
            shaped KStyle xi c = true) todo ->
  forall i masks styles fls A B C,
    eval_loop call channels rescale diameter nimg todo i masks styles fls
      = Returns (A, B, C) ->
    exists ms ss fs,
      A = VList (masks ++ ms) /\ B = VList (styles ++ ss) /\
      C = VList (fls ++ fs) /\
      all_shaped KMask todo ms = true /\ all_shaped KFlows todo ss = true /\
      all_shaped KStyle todo fs = true.
Proof.
  induction 1 as [|xi todo Hxi _ IH]; intros i masks styles fls A B C H.
  - cbn [eval_loop] in H. inversion H; subst.
    exists [], [], []. rewrite !app_nil_r.
    repeat (split; [reflexivity|]). reflexivity.
  - cbn [eval_loop] in H.
    apply obind_returns in H. destruct H as [ch [_ H]].
    apply obind_returns in H. destruct H as [rs [_ H]].
    apply obind_returns in H. destruct H as [dm [_ H]].
    apply obind_returns in H. destruct H as [[[a b] c] [Hc H]].
    apply Hxi in Hc. destruct Hc as [Ha [Hb Hc]].
    apply IH in H. destruct H as [ms [ss [fs [-> [-> [-> [H1 [H2 H3]]]]]]]].
    exists (a :: ms), (b :: ss), (c :: fs).
    rewrite <- !app_assoc. cbn [app].
    repeat (split; [reflexivity|]).
    split; [now apply all_shaped_cons_app|].
    split; now apply all_shaped_cons_app.
Qed.

(** X9: [CellposeModel.eval] returns its three results in the order masks,
    flows, styles for a single image and for lists nested to any depth:
    the list branch binds the results of the recursive call as [maski,
    stylei, flowi] and returns [masks, styles, flows], and the two
    exchanges cancel.  Each result mirrors the nesting of the input. *)
Theorem X_eval_returns_masks_flows_styles {image mask flows style common rest}
    (diam_mean : flt)
    (run_single : image -> pyval -> pyval -> kwargs common rest ->
                  outcome (mask * flows * style))
    (x : input image) (channels rescale diameter : pyval)
    (kw : kwargs common rest) (a b c : val mask flows style)
    (Hrun : eval diam_mean run_single x channels rescale diameter kw
            = Returns (a, b, c)) :
  shaped KMask x a = true /\ shaped KFlows x b = true /\
  shaped KStyle x c = true.
Proof.
  revert channels rescale diameter a b c Hrun.
  induction x as [img | xs IH] using input_ind_nested;
    intros channels rescale diameter a b c Hrun.
  - cbn [eval] in Hrun.
    apply obind_returns in Hrun. destruct Hrun as [rs [_ H]].
    apply obind_returns in H. destruct H as [[[m f] s] [_ H]].
    inversion H; subst. auto.
  - cbn [eval] in Hrun. apply eval_loop_shaped in Hrun.
    + destruct Hrun as [ms [ss [fs [-> [-> [-> [H1 [H2 H3]]]]]]]].
      cbn [app]. rewrite !shaped_batch. auto.
    + apply Forall_forall. intros xi Hin c1 r1 d1 a' b' c' H.
      rewrite Forall_forall in IH. exact (IH xi Hin c1 r1 d1 a' b' c' H).
Qed.

Lemma X_eval_returns_masks_flows_styles_witness :
  let x := Batch [Image 3; Batch [Image 5; Image 7]] in
  let a : val Q Z Z := VList [VMask (90 # 15)%Q;
           VList [VMask (150 # 15)%Q; VMask (210 # 15)%Q]] in
  let b : val Q Z Z := VList [VFlows 4; VList [VFlows 6; VFlows 8]] in
  let c : val Q Z Z := VList [VStyle 5; VList [VStyle 7; VStyle 9]] in
  shaped KMask x a = true /\ shaped KFlows x b = true /\
  shaped KStyle x c = true.
Proof.
  intros x a b c.
  apply (X_eval_returns_masks_flows_styles (Num 30) toy_run x
           (PyList [PyFloat (Num 0); PyFloat (Num 0)]) PyNone
           (PyFloat (Num 15)) toy_kwargs a b c).
  vm_compute. reflexivity.
Defined.

(** The test that selects [channels[i]] asks for a value that is both a
    list and an array, so the whole [channels] is handed on. *)
Lemma channels_for_whole channels nimg i ch :
  channels_for channels nimg i = Returns ch -> ch = channels.
Proof.
  unfold channels_for. intros H.
  apply obind_returns in H. destruct H as [n [_ H]].
  destruct (Nat.eqb n nimg); [|now inversion H].
  apply obind_returns in H. destruct H as [ci [_ H]].
  assert (E : is_list ci && is_ndarray ci = false) by (destruct ci; reflexivity).
  rewrite E in H. now inversion H.
Qed.

Lemma item_or_self_scalar v i :
  is_list v || is_ndarray v = false -> item_or_self v i = Returns v.
Proof. unfold item_or_self. now intros ->. Qed.

Lemma eval_loop_flat {image mask flows style common rest}
    (diam_mean : flt)
    (run_single : image -> pyval -> pyval -> kwargs common rest ->
                  outcome (mask * flows * style))
    channels rescale diameter kw r nimg imgs :
  is_list rescale || is_ndarray rescale = false ->
  is_list diameter || is_ndarray diameter = false ->
  resolve_rescale diam_mean rescale diameter = Returns r ->
  forall i masks styles fls A B C,
    eval_loop (fun xi ch rs dm => eval diam_mean run_single xi ch rs dm kw)
              channels rescale diameter nimg (map Image imgs) i
              masks styles fls = Returns (A, B, C) ->
    exists results,
      Forall2 (fun img t => run_single img channels r kw = Returns t)
              imgs results /\
      A = VList (masks ++ map (fun t => VMask (fst (fst t))) results) /\
      B = VList (styles ++ map (fun t => VFlows (snd (fst t))) results) /\
      C = VList (fls ++ map (fun t => VStyle (snd t)) results).
Proof.
  intros Hrs Hdm Hres.
  induction imgs as [|img imgs IH]; intros i masks styles fls A B C H.
  - cbn [map eval_loop] in H. inversion H; subst.
    exists []. cbn [map]. rewrite !app_nil_r. auto.
  - cbn [map eval_loop] in H.
    apply obind_returns in H. destruct H as [ch [Hch H]].
    apply channels_for_whole in Hch. subst ch.
    rewrite (item_or_self_scalar rescale i Hrs) in H.
    rewrite (item_or_self_scalar diameter i Hdm) in H.
    cbn [obind eval] in H. rewrite Hres in H. cbn [obind] in H.
    apply obind_returns in H. destruct H as [[[a b] c] [Hc H]].
    apply obind_returns in Hc. destruct Hc as [[[m f] s] [Hrun Hc]].
    inversion Hc; subst a b c.
    apply IH in H. destruct H as [results [HF [-> [-> ->]]]].
    exists ((m, f, s) :: results). cbn [map fst snd].
    rewrite <- !app_assoc. cbn [app].
    split; [constructor; assumption | auto].
Qed.

(** X10: On a list of images with one rescale and one diameter for all, every
    image is run with the whole [channels] argument, also when [channels]
    holds one entry per image, and at the same resolved rescale; the
    results are returned in the order of the images. *)
Theorem X_list_of_images_shares_channels {image mask flows style common rest}
    (diam_mean : flt)
    (run_single : image -> pyval -> pyval -> kwargs common rest ->
                  outcome (mask * flows * style))
    (imgs : list image) (channels rescale diameter r : pyval)
    (kw : kwargs common rest) (A B C : val mask flows style)
    (Hrs : is_list rescale || is_ndarray rescale = false)
    (Hdm : is_list diameter || is_ndarray diameter = false)
    (Hres : resolve_rescale diam_mean rescale diameter = Returns r)
    (Hrun : eval diam_mean run_single (Batch (map Image imgs)) channels
                 rescale diameter kw = Returns (A, B, C)) :
  exists results,
    Forall2 (fun img t => run_single img channels r kw = Returns t)
            imgs results /\
    A = VList (map (fun t => VMask (fst (fst t))) results) /\
    B = VList (map (fun t => VFlows (snd (fst t))) results) /\
    C = VList (map (fun t => VStyle (snd t)) results).
Proof.
  cbn [eval] in Hrun.
  apply (eval_loop_flat diam_mean run_single channels rescale diameter kw r)
    in Hrun; assumption.
Qed.

Lemma X_list_of_images_shares_channels_witness :
  let channels := PyList [PyList [PyFloat (Num 0); PyFloat (Num 0)];
                          PyList [PyFloat (Num 1); PyFloat (Num 2)]] in
  let r := PyFloat (Num (30 / 15)) in
  exists results,
    Forall2 (fun img t => toy_run img channels r toy_kwargs = Returns t)
            [3; 5] results /\
    (VList [VMask (90 # 15)%Q; VMask (150 # 15)%Q] : val Q Z Z)
      = VList (map (fun t => VMask (fst (fst t))) results) /\
    (VList [VFlows 4; VFlows 6] : val Q Z Z)
      = VList (map (fun t => VFlows (snd (fst t))) results) /\
    (VList [VStyle 5; VStyle 7] : val Q Z Z)
      = VList (map (fun t => VStyle (snd t)) results).
Proof.
  intros channels r.
  apply (X_list_of_images_shares_channels (Num 30) toy_run [3; 5] channels
           PyNone (PyFloat (Num 15)) r toy_kwargs).
  - reflexivity.
  - reflexivity.
  - reflexivity.
  - vm_compute. reflexivity.
Defined.

(** X11: An empty list of images is evaluated to three empty lists whatever
    the other arguments are; a non-empty list with the default
    [channels=None] raises a TypeError, since [len(channels)] is taken
    before anything is run. *)
Theorem X_list_needs_channels {image mask flows style common rest}
    (diam_mean : flt)
    (run_single : image -> pyval -> pyval -> kwargs common rest ->
                  outcome (mask * flows * style))
    (x : input image) (xs : list (input image))
    (channels rescale diameter : pyval) (kw : kwargs common rest) :
  eval diam_mean run_single (Batch []) channels rescale diameter kw
    = Returns (VList [], VList [], VList []) /\
  eval diam_mean run_single (Batch (x :: xs)) PyNone rescale diameter kw
    = Raises PyTypeError.
Proof. split; reflexivity. Qed.



(** *** The size model *)

Lemma or_default_ok d fallback :
  feq0 fallback = false -> fisnan fallback = false ->
  feq0 (or_default d fallback) = false /\
  fisnan (or_default d fallback) = false.
Proof.
  intros H1 H2. unfold or_default.
  destruct (feq0 d) eqn:E1; destruct (fisnan d) eqn:E2; cbn [orb]; auto.
Qed.

Lemma Qeq_bool_false_iff (q : Q) : Qeq_bool q 0 = false <-> ~ (q == 0)%Q.
Proof.
  split.
  - intros H E. apply Qeq_bool_iff in E. congruence.
  - intros H. destruct (Qeq_bool q 0) eqn:E; [|reflexivity].
    apply Qeq_bool_iff in E. contradiction.
Qed.

Lemma Qdiv_nonzero (p c : Q) :
  ~ (p == 0)%Q -> ~ (c == 0)%Q -> ~ (p / c == 0)%Q.
Proof.
  intros Hp Hc E. apply Hp.
  assert (H : (p == c * (p / c))%Q) by (symmetry; now apply Qmult_div_r).
  rewrite H, E. ring.
Qed.

Lemma fdiv_positive_ok a (c : Q) :
  (0 < c)%Q -> feq0 a = false -> fisnan a = false ->
  feq0 (fdiv a (Num c)) = false /\ fisnan (fdiv a (Num c)) = false.
Proof.
  intros Hc H1 H2.
  assert (Hc0 : ~ (c == 0)%Q) by (intros E; rewrite E in Hc; discriminate).
  destruct a as [p | s |]; cbn [fdiv]; [| auto | discriminate].
  rewrite (proj2 (Qeq_bool_false_iff c) Hc0). cbn [feq0 fisnan].
  split; [|reflexivity]. apply Qeq_bool_false_iff.
  apply Qdiv_nonzero; [|assumption]. now apply Qeq_bool_false_iff.
Qed.

Lemma eval_image_with_rescale {image mask flows style common rest}
    (diam_mean : flt)
    (run_single : image -> pyval -> pyval -> kwargs common rest ->
                  outcome (mask * flows * style))
    img channels (r : flt) kw :
  eval diam_mean run_single (Image img) channels (PyFloat r) PyNone kw
  = (t <-- run_single img channels (PyFloat r) kw ;;
     Returns (VMask (fst (fst t)), VFlows (snd (fst t)), VStyle (snd t))).
Proof.
  cbn [eval resolve_rescale obind].
  destruct (run_single img channels (PyFloat r) kw) as [[[m f] s]|e];
    reflexivity.
Qed.

(** X13: [SizeModel.eval] on one image never reports a diameter that is zero
    or NaN, provided its own [diam_mean] is a number other than zero:
    both the diameter measured on the masks and the one predicted from
    the style are replaced by [diam_mean] when they are unusable. *)
Theorem X_size_eval_never_zero_or_nan {image mask flows style common rest}
    (diam_mean : flt)
    (run_single : image -> pyval -> pyval -> kwargs common rest ->
                  outcome (mask * flows * style))
    (sz_diam_mean : flt) (regression : val mask flows style -> flt)
    (diameters : val mask flows style -> bool -> flt)
    (squeezed_ndim : image -> nat) (legacy_scale : bool)
    (sqrt_pi_half : Q) (default_rest : rest)
    (img : image) (channels : pyval) (c : common) (skel : bool)
    (d ds : pyval)
    (Hmean : usable sz_diam_mean) (Hpi : (0 < sqrt_pi_half)%Q)
    (Hrun : size_eval diam_mean run_single sz_diam_mean regression diameters
              squeezed_ndim legacy_scale sqrt_pi_half default_rest
              (Image img) channels c skel = Returns (d, ds)) :
  exists fd fds,
    d = PyFloat fd /\ ds = PyFloat fds /\
    feq0 fd = false /\ fisnan fd = false /\
    feq0 fds = false /\ fisnan fds = false.
Proof.
  destruct Hmean as [ms [-> Hms]].
  assert (H0 : feq0 (Num ms) = false)
    by (now apply Qeq_bool_false_iff).
  assert (Hn : fisnan (Num ms) = false) by reflexivity.
  cbn [size_eval] in Hrun.
  destruct (3 <? squeezed_ndim img)%nat.
  { inversion Hrun; subst. exists (Num ms), (Num ms).
    repeat split; assumption. }
  apply obind_returns in Hrun. destruct Hrun as [r1 [_ Hrun]].
  apply obind_returns in Hrun. destruct Hrun as [r2 [_ Hrun]].
  set (ds0 := or_default (_size_estimation regression (snd r1)) (Num ms))
    in Hrun.
  destruct (or_default_ok (_size_estimation regression (snd r1)) (Num ms)
              H0 Hn) as [Hds0 Hdsn]. fold ds0 in Hds0, Hdsn.
  destruct (legacy_scale && negb skel); inversion Hrun; subst d ds.
  - destruct (fdiv_positive_ok (Num ms) sqrt_pi_half Hpi H0 Hn) as [Hf0 Hfn].
    destruct (or_default_ok (diameters (fst (fst r2)) skel)
                (fdiv (Num ms) (Num sqrt_pi_half)) Hf0 Hfn) as [Ha Hb].
    destruct (fdiv_positive_ok ds0 sqrt_pi_half Hpi Hds0 Hdsn) as [Hc Hd].
    eexists _, _. repeat split; assumption.
  - destruct (or_default_ok (diameters (fst (fst r2)) skel) (Num ms) H0 Hn)
      as [Ha Hb].
    eexists _, _. repeat split; assumption.
Qed.

Lemma X_size_eval_never_zero_or_nan_witness :
  exists fd fds,
    PyFloat (Num 30) = PyFloat fd /\ PyFloat (Num 5) = PyFloat fds /\
    feq0 fd = false /\ fisnan fd = false /\
    feq0 fds = false /\ fisnan fds = false.
Proof.
  apply (X_size_eval_never_zero_or_nan (Num 30) toy_run (Num 30)
           toy_regression toy_diameters (fun _ => 2%nat) false (9 # 10) tt
           0 (PyList []) tt false).
  - exists 30%Q. split; [reflexivity | vm_compute; discriminate].
  - reflexivity.
  - vm_compute. reflexivity.
Defined.

Lemma size_rescale_bound (ms : Q) (x : flt) :
  (0 < ms)%Q -> x <> Inf true ->
  exists r,
    size_rescale (Num ms) (or_default (fmaximum (Num 5) x) (Num ms)) = Num r /\
    (0 < r)%Q /\ ((r <= ms / 5)%Q \/ (r == 1)%Q).
Proof.
  intros Hms Hx.
  assert (Hms0 : ~ (ms == 0)%Q) by (intros E; rewrite E in Hms; discriminate).
  assert (Hfloor : forall z, (5 <= z)%Q ->
            exists r, size_rescale (Num ms) (or_default (Num z) (Num ms))
                      = Num r /\
                      (0 < r)%Q /\ ((r <= ms / 5)%Q \/ (r == 1)%Q)).
  { intros z Hz.
    assert (Hz0 : (0 < z)%Q) by (eapply Qlt_le_trans; [|exact Hz]; reflexivity).
    assert (Hzn : ~ (z == 0)%Q) by (intros E; rewrite E in Hz0; discriminate).
    exists (ms / z)%Q. unfold or_default, size_rescale. cbn [feq0 fisnan].
    rewrite (proj2 (Qeq_bool_false_iff z) Hzn). cbn [orb fdiv].
    rewrite (proj2 (Qeq_bool_false_iff z) Hzn).
    split; [reflexivity|]. split.
    - apply Qlt_shift_div_l; [assumption|]. now rewrite Qmult_0_l.
    - left. apply Qle_shift_div_r; [assumption|].
      apply Qle_trans with (ms / 5 * 5)%Q.
      + setoid_replace (ms / 5 * 5)%Q with ms by field. apply Qle_refl.
      + apply Qmult_le_l; [|exact Hz].
        apply Qlt_shift_div_l; [reflexivity|]. now rewrite Qmult_0_l. }
  destruct x as [q | [|] |].
  - cbn [fmaximum]. apply Hfloor.
    unfold Np.Qgtb. destruct (Qle_bool 5 q) eqn:E; cbn [negb].
    + now apply Qle_bool_iff.
    + apply Qle_refl.
  - contradiction.
  - cbn [fmaximum]. apply Hfloor, Qle_refl.
  - exists (ms / ms)%Q. unfold or_default, size_rescale.
    cbn [fmaximum feq0 fisnan orb fdiv].
    rewrite (proj2 (Qeq_bool_false_iff ms) Hms0).
    split; [reflexivity|]. split.
    + apply Qlt_shift_div_l; [assumption|]. now rewrite Qmult_0_l.
    + right. field. assumption.
Qed.

(** X14: The two network runs of [SizeModel.eval] on a 2-D image: the style
    pass at rescale 1 with [compute_masks=False], then the mask pass
    with [interp=False] at the rescale [diam_mean / diam_style].  That
    rescale is a positive number; because the predicted diameter is at
    least 5 it does not exceed [diam_mean / 5], unless the prediction
    was NaN, in which case it is 1. *)
Theorem X_size_mask_pass_rescale {image mask flows style common rest}
    (diam_mean : flt)
    (run_single : image -> pyval -> pyval -> kwargs common rest ->
                  outcome (mask * flows * style))
    (ms : Q) (regression : val mask flows style -> flt)
    (diameters : val mask flows style -> bool -> flt)
    (squeezed_ndim : image -> nat) (legacy_scale : bool)
    (sqrt_pi_half : Q) (default_rest : rest)
    (img : image) (channels : pyval) (c : common) (skel : bool)
    (d ds : pyval)
    (Hmean : (0 < ms)%Q)
    (Hfinite : forall v, regression v <> Inf true)
    (Hndim : (squeezed_ndim img <= 3)%nat)
    (Hrun : size_eval diam_mean run_single (Num ms) regression diameters
              squeezed_ndim legacy_scale sqrt_pi_half default_rest
              (Image img) channels c skel = Returns (d, ds)) :
  exists r t1 t2,
    run_single img channels (PyFloat (Num 1))
      {| kw_common := c; kw_net_avg := false; kw_compute_masks := false;
         kw_interp := true; kw_skel := false; kw_rest := default_rest |}
      = Returns t1 /\
    run_single img channels (PyFloat (Num r))
      {| kw_common := c; kw_net_avg := false; kw_compute_masks := true;
         kw_interp := false; kw_skel := skel; kw_rest := default_rest |}
      = Returns t2 /\
    (0 < r)%Q /\ ((r <= ms / 5)%Q \/ (r == 1)%Q).
Proof.
  cbn [size_eval] in Hrun.
  destruct (Nat.ltb_spec 3 (squeezed_ndim img)) as [Hgt | _]; [lia|].
  apply obind_returns in Hrun. destruct Hrun as [r1 [H1 Hrun]].
  apply obind_returns in Hrun. destruct Hrun as [r2 [H2 _]].
  cbn [eval resolve_rescale obind] in H1.
  apply obind_returns in H1. destruct H1 as [t1 [Ht1 H1]].
  destruct (size_rescale_bound ms (regression (snd r1)) Hmean (Hfinite _))
    as [r [Er [Hpos Hbound]]].
  unfold _size_estimation in H2. rewrite Er in H2.
  rewrite eval_image_with_rescale in H2.
  apply obind_returns in H2. destruct H2 as [t2 [Ht2 _]].
  exists r, t1, t2. auto.
Qed.

Lemma X_size_mask_pass_rescale_witness :
  exists r t1 t2,
    toy_run 0 (PyList []) (PyFloat (Num 1))
      {| kw_common := tt; kw_net_avg := false; kw_compute_masks := false;
         kw_interp := true; kw_skel := false; kw_rest := tt |}
      = Returns t1 /\
    toy_run 0 (PyList []) (PyFloat (Num r))
      {| kw_common := tt; kw_net_avg := false; kw_compute_masks := true;
         kw_interp := false; kw_skel := false; kw_rest := tt |}
      = Returns t2 /\
    (0 < r)%Q /\ ((r <= 30 / 5)%Q \/ (r == 1)%Q).
Proof.
  apply (X_size_mask_pass_rescale (Num 30) toy_run 30 toy_regression
           toy_diameters (fun _ => 2%nat) false (9 # 10) tt 0 (PyList []) tt
           false (PyFloat (Num 30)) (PyFloat (Num 5))).
  - reflexivity.
  - intros [m | f | s | l]; discriminate.
  - simpl. lia.
  - vm_compute. reflexivity.
Defined.

(** *** [Cellpose.eval] *)





(** X16: When [Cellpose.eval] estimates the diameter (diameter missing or
    zero, a size model present, 2-D images), the [rescale] passed by the
    caller is not used: the images are segmented at [diam_mean / diams]
    whatever [rescale] was. *)
Theorem X_estimated_diameter_overrides_rescale
    {image mask flows style common rest}
    (diam_mean : flt)
    (run_single : image -> pyval -> pyval -> kwargs common rest ->
                  outcome (mask * flows * style))
    (sz_diam_mean : flt) (regression : val mask flows style -> flt)
    (diameters : val mask flows style -> bool -> flt)
    (squeezed_ndim : image -> nat) (legacy_scale : bool)
    (sqrt_pi_half : Q) (default_rest : rest) (top_diam_mean : flt)
    (image_ndim : image -> nat) (slice_ndim : image -> outcome nat)
    (x : images image) (channels diameter rescale rescale' : pyval)
    (kw : kwargs common rest) (n : nat)
    (Hdiameter : diameter = PyNone \/ py_is_zero diameter = Returns true)
    (Hfirst : first_ndim image_ndim slice_ndim x = Returns n)
    (Hndim : (n < 4)%nat) :
  cellpose_eval diam_mean run_single sz_diam_mean regression diameters
    squeezed_ndim legacy_scale sqrt_pi_half default_rest top_diam_mean
    true image_ndim slice_ndim x channels diameter rescale false kw
  = cellpose_eval diam_mean run_single sz_diam_mean regression diameters
      squeezed_ndim legacy_scale sqrt_pi_half default_rest top_diam_mean
      true image_ndim slice_ndim x channels diameter rescale' false kw.
Proof.
  unfold cellpose_eval.
  assert (E : match diameter with
              | PyNone => Returns true
              | _ => py_is_zero diameter
              end = Returns true).
  { destruct Hdiameter as [-> | H]; [reflexivity|].
    destruct diameter; auto. }
  rewrite E, Hfirst. cbn [obind andb negb].
  apply Nat.ltb_lt in Hndim. rewrite Hndim. reflexivity.
Qed.

Lemma X_estimated_diameter_overrides_rescale_witness :
  cellpose_eval (Num 30) toy_run (Num 30) toy_regression toy_diameters
    (fun _ => 2%nat) false (9 # 10) tt (Num 30) true (fun _ => 2%nat)
    (fun _ => Returns 1%nat) (Many [3; 0]) PyNone (PyFloat (Num 0))
    (PyFloat (Num 7)) false toy_kwargs
  = cellpose_eval (Num 30) toy_run (Num 30) toy_regression toy_diameters
      (fun _ => 2%nat) false (9 # 10) tt (Num 30) true (fun _ => 2%nat)
      (fun _ => Returns 1%nat) (Many [3; 0]) PyNone (PyFloat (Num 0))
      PyNone false toy_kwargs.
Proof.
  apply (X_estimated_diameter_overrides_rescale (Num 30) toy_run (Num 30)
           toy_regression toy_diameters (fun _ => 2%nat) false (9 # 10) tt
           (Num 30) (fun _ => 2%nat) (fun _ => Returns 1%nat) (Many [3; 0])
           PyNone (PyFloat (Num 0)) (PyFloat (Num 7)) PyNone toy_kwargs 2).
  - right. reflexivity.
  - reflexivity.
  - lia.
Defined.

(** X17: An empty list of images: with a diameter to estimate, [x[0]] is
    evaluated and raises an IndexError; with a non-zero diameter nothing
    is run and empty lists are returned together with that diameter. *)
Theorem X_cellpose_eval_empty_list {image mask flows style common rest}
    (diam_mean : flt)
    (run_single : image -> pyval -> pyval -> kwargs common rest ->
                  outcome (mask * flows * style))
    (sz_diam_mean : flt) (regression : val mask flows style -> flt)
    (diameters : val mask flows style -> bool -> flt)
    (squeezed_ndim : image -> nat) (legacy_scale : bool)
    (sqrt_pi_half : Q) (default_rest : rest) (top_diam_mean : flt)
    (image_ndim : image -> nat) (slice_ndim : image -> outcome nat)
    (channels rescale : pyval) (do_3D : bool) (kw : kwargs common rest)
    (d : Q) (Hd : ~ (d == 0)%Q) :
  cellpose_eval diam_mean run_single sz_diam_mean regression diameters
    squeezed_ndim legacy_scale sqrt_pi_half default_rest top_diam_mean
    true image_ndim slice_ndim (Many []) channels PyNone rescale false kw
  = Raises PyIndexError /\
  cellpose_eval diam_mean run_single sz_diam_mean regression diameters
    squeezed_ndim legacy_scale sqrt_pi_half default_rest top_diam_mean
    true image_ndim slice_ndim (Many []) channels (PyFloat (Num d)) rescale
    do_3D kw
  = Returns (VList [], VList [], VList [], PyFloat (Num d)).
Proof.
  split; [reflexivity|].
  unfold cellpose_eval. cbn [py_is_zero feq0].
  rewrite (proj2 (Qeq_bool_false_iff d) Hd). reflexivity.
Qed.

Lemma X_cellpose_eval_empty_list_witness :
  cellpose_eval (Num 30) toy_run (Num 30) toy_regression toy_diameters
    (fun _ => 2%nat) false (9 # 10) tt (Num 30) true (fun _ => 2%nat)
    (fun _ => Returns 1%nat) (Many []) PyNone PyNone PyNone false toy_kwargs
  = Raises PyIndexError /\
  cellpose_eval (Num 30) toy_run (Num 30) toy_regression toy_diameters
    (fun _ => 2%nat) false (9 # 10) tt (Num 30) true (fun _ => 2%nat)
    (fun _ => Returns 1%nat) (Many []) PyNone (PyFloat (Num 30)) PyNone
    true toy_kwargs
  = Returns (VList [], VList [], VList [], PyFloat (Num 30)).
Proof.
  apply (X_cellpose_eval_empty_list (Num 30) toy_run (Num 30) toy_regression
           toy_diameters (fun _ => 2%nat) false (9 # 10) tt (Num 30)
           (fun _ => 2%nat) (fun _ => Returns 1%nat) PyNone PyNone true
           toy_kwargs 30).
  vm_compute. discriminate.
Defined.

(* ================================================================== *)
(** ** [SizeModel.train]: the bookkeeping before the regression *)
(* ================================================================== *)

Module Training.

(** [int(q)]: truncation towards zero. *)
Definition py_int (q : Q) : Z :=
  if Np.Qgtb 0 q then Qceiling q else Qfloor q.

(** Lines 1136-1137: [batch_size /= 2; batch_size = int(max(1,
    batch_size))]. *)
Definition train_batch_size (batch_size : Q) : Z :=
  let half := (batch_size / 2)%Q in
  py_int (if Np.Qgtb half 1 then half else 1).

(** [del l[i]] for a loop index [i >= 0]. *)
Definition delete_at {A} (i : nat) (l : list A) : list A :=
  firstn i l ++ skipn (S i) l.

Definition py_del {A} (l : list A) (i : nat) : outcome (list A) :=
  if (i <? length l)%nat then Returns (delete_at i l)
  else Raises PyIndexError.

(** Lines 1155-1158: the loop that removes the images without masks; it
    runs over the indices of [diam_train] and deletes from the two lists
    as it goes.  [i] is the loop index on entry, [diam] what is left of
    [diam_train] from [i] on. *)
Fixpoint remove_empty {A B} (diam : list Q) (i : nat)
    (train_data : list A) (train_labels : list B)
  : outcome (list A * list B) :=
  match diam with
  | [] => Returns (train_data, train_labels)
  | d :: diam' =>
      if Qeq_bool d 0 then
        train_data <-- py_del train_data i ;;
        train_labels <-- py_del train_labels i ;;
        remove_empty diam' (S i) train_data train_labels
      else remove_empty diam' (S i) train_data train_labels
  end.

(** [range(0, n, step)] for [step >= 1] (a step of zero is a
    ValueError), and the slice [a[lo:lo+len]]. *)
Definition py_range0 (n step : nat) : outcome (list nat) :=
  match step with
  | O => Raises PyValueError
  | S _ => Returns (map (fun k => k * step)%nat
                        (seq 0 ((n + step - 1) / step)))
  end.

Definition slice {A} (a : list A) (lo len : nat) : list A :=
  firstn len (skipn lo a).

(** Lines 1169-1181: the rows of [styles] and [diams] that are written,
    in the order in which they are written: [inds + nimg*iepoch] for every
    batch [inds = iall[ibatch:ibatch+batch_size]] of every epoch. *)
Definition rows_written (n_epochs nimg batch_size : nat)
  : outcome (list nat) :=
  starts <-- py_range0 nimg batch_size ;;
  Returns
    (flat_map (fun iepoch =>
       flat_map (fun ibatch =>
                   map (fun i => i + nimg * iepoch)%nat
                       (slice (seq 0 nimg) ibatch batch_size))
                starts)
       (seq 0 n_epochs)).

End Training.

Import Training.

Lemma remove_empty_no_zero {A B} (diam : list Q) i (data : list A)
    (labels : list B) :
  Forall (fun d => ~ (d == 0)%Q) diam ->
  remove_empty diam i data labels = Returns (data, labels).
Proof.
  intros H. revert i. induction H as [|d diam Hd _ IH]; intros i;
    cbn [remove_empty]; [reflexivity|].
  now rewrite (proj2 (Qeq_bool_false_iff d) Hd).
Qed.

Lemma remove_empty_app {A B} (d1 d2 : list Q) i (data : list A)
    (labels : list B) :
  remove_empty (d1 ++ d2) i data labels
  = (r <-- remove_empty d1 i data labels ;;
     remove_empty d2 (i + length d1) (fst r) (snd r)).
Proof.
  revert i data labels. induction d1 as [|d d1 IH]; intros i data labels.
  - cbn [app remove_empty obind length fst snd]. now rewrite Nat.add_0_r.
  - cbn [app remove_empty length].
    replace (i + S (length d1))%nat with (S i + length d1)%nat by lia.
    destruct (Qeq_bool d 0); [|apply IH].
    destruct (py_del data i) as [data'|e]; [|reflexivity]. cbn [obind].
    destruct (py_del labels i) as [labels'|e]; [|reflexivity]. cbn [obind].
    apply IH.
Qed.

Lemma py_del_inside {A} (l : list A) i :
  (i < length l)%nat -> py_del l i = Returns (delete_at i l).
Proof.
  intros H. unfold py_del. apply Nat.ltb_lt in H. now rewrite H.
Qed.

Lemma py_del_outside {A} (l : list A) i :
  (length l <= i)%nat -> py_del l i = Raises PyIndexError.
Proof.
  intros H. unfold py_del. apply Nat.ltb_ge in H. now rewrite H.
Qed.

Lemma length_delete_at {A} (l : list A) i :
  (i < length l)%nat -> length (delete_at i l) = (length l - 1)%nat.
Proof.
  intros H. unfold delete_at.
  rewrite length_app, length_firstn, length_skipn. lia.
Qed.

Lemma delete_at_app {A} (a b : list A) j :
  (length a <= j)%nat ->
  delete_at j (a ++ b) = a ++ delete_at (j - length a) b.
Proof.
  intros H. unfold delete_at.
  rewrite firstn_app, skipn_app, (firstn_all2 a) by lia.
  rewrite (skipn_all2 a) by lia. cbn [app].
  replace (S j - length a)%nat with (S (j - length a)) by lia.
  now rewrite app_assoc.
Qed.

Lemma delete_twice {A} (l : list A) k j :
  (k <= j)%nat -> (k <= length l)%nat ->
  delete_at j (delete_at k l)
  = firstn k l ++ firstn (j - k) (skipn (S k) l) ++ skipn (j + 2) l.
Proof.
  intros Hkj Hk. unfold delete_at at 2.
  rewrite delete_at_app by (rewrite length_firstn; lia).
  rewrite length_firstn, Nat.min_l by assumption.
  unfold delete_at. rewrite skipn_skipn.
  now replace (S (j - k) + S k)%nat with (j + 2)%nat by lia.
Qed.

(** X18: When exactly one image has no masks (its diameter is zero), the loop
    removes that image and its labels and nothing else. *)
Theorem X_one_empty_image_is_removed {A B} (d1 d2 : list Q) (z : Q)
    (train_data : list A) (train_labels : list B)
    (Hz : (z == 0)%Q)
    (H1 : Forall (fun d => ~ (d == 0)%Q) d1)
    (H2 : Forall (fun d => ~ (d == 0)%Q) d2)
    (Hdata : length train_data = length (d1 ++ z :: d2))
    (Hlabels : length train_labels = length (d1 ++ z :: d2)) :
  remove_empty (d1 ++ z :: d2) 0 train_data train_labels
  = Returns (delete_at (length d1) train_data,
             delete_at (length d1) train_labels).
Proof.
  rewrite length_app in Hdata, Hlabels. cbn [length] in Hdata, Hlabels.
  rewrite remove_empty_app, (remove_empty_no_zero d1) by assumption.
  cbn [obind fst snd remove_empty Nat.add].
  apply Qeq_bool_iff in Hz. rewrite Hz.
  rewrite !py_del_inside by lia. cbn [obind].
  now apply remove_empty_no_zero.
Qed.

Lemma X_one_empty_image_is_removed_witness :
  remove_empty ([12; 9] ++ 0 :: [15])%Q 0 [1; 2; 3; 4] [10; 20; 30; 40]
  = Returns (delete_at (length [12; 9]%Q) [1; 2; 3; 4],
             delete_at (length [12; 9]%Q) [10; 20; 30; 40]).
Proof.
  apply (X_one_empty_image_is_removed [12; 9]%Q [15]%Q 0%Q [1; 2; 3; 4]
           [10; 20; 30; 40]).
  - reflexivity.
  - repeat constructor; vm_compute; discriminate.
  - repeat constructor; vm_compute; discriminate.
  - reflexivity.
  - reflexivity.
Defined.

(** X19: With two images without masks, at indices [k < j], the second
    deletion is made in the list already shortened by the first.  If
    [j] is the last index the loop raises an IndexError; otherwise it
    removes the image originally at [j + 1] and keeps the empty image
    [j]: the lists returned hold the original entries [0 .. k-1],
    [k+1 .. j] and [j+2 ..]. *)
Theorem X_second_empty_image_off_by_one {A B} (d1 d2 d3 : list Q)
    (z1 z2 : Q) (train_data : list A) (train_labels : list B)
    (Hz1 : (z1 == 0)%Q) (Hz2 : (z2 == 0)%Q)
    (H1 : Forall (fun d => ~ (d == 0)%Q) d1)
    (H2 : Forall (fun d => ~ (d == 0)%Q) d2)
    (H3 : Forall (fun d => ~ (d == 0)%Q) d3)
    (Hdata : length train_data = length (d1 ++ z1 :: d2 ++ z2 :: d3))
    (Hlabels : length train_labels = length (d1 ++ z1 :: d2 ++ z2 :: d3)) :
  let k := length d1 in
  let j := (length d1 + 1 + length d2)%nat in
  let kept {X} (l : list X) :=
    firstn k l ++ firstn (j - k) (skipn (S k) l) ++ skipn (j + 2) l in
  remove_empty (d1 ++ z1 :: d2 ++ z2 :: d3) 0 train_data train_labels
  = match d3 with
    | [] => Raises PyIndexError
    | _ :: _ => Returns (kept train_data, kept train_labels)
    end.
Proof.
  intros k j kept.
  rewrite !length_app in Hdata, Hlabels. cbn [length] in Hdata, Hlabels.
  rewrite length_app in Hdata, Hlabels. cbn [length] in Hdata, Hlabels.
  rewrite remove_empty_app, (remove_empty_no_zero d1) by assumption.
  cbn [obind fst snd remove_empty Nat.add]. fold k.
  apply Qeq_bool_iff in Hz1, Hz2. rewrite Hz1.
  rewrite !py_del_inside by lia. cbn [obind].
  rewrite remove_empty_app, (remove_empty_no_zero d2) by assumption.
  cbn [obind fst snd remove_empty]. rewrite Hz2.
  replace (S k + length d2)%nat with j by (unfold j, k; lia).
  destruct d3 as [|d d3].
  - cbn [length] in Hdata.
    rewrite (py_del_outside (delete_at k train_data))
      by (rewrite length_delete_at; unfold j, k in *; lia).
    reflexivity.
  - cbn [length] in Hdata, Hlabels.
    rewrite !py_del_inside
      by (rewrite length_delete_at; unfold j, k in *; lia).
    cbn [obind]. rewrite remove_empty_no_zero by assumption.
    unfold kept.
    rewrite !delete_twice by (unfold j, k in *; lia). reflexivity.
Qed.

Lemma X_second_empty_image_off_by_one_witness :
  remove_empty ([12] ++ 0 :: [9] ++ 0 :: [15; 7])%Q 0
               [1; 2; 3; 4; 5; 6] [10; 20; 30; 40; 50; 60]
  = Returns ([1; 3; 4; 6], [10; 30; 40; 60]).
Proof.
  apply (X_second_empty_image_off_by_one [12]%Q [9]%Q [15; 7]%Q 0%Q 0%Q
           [1; 2; 3; 4; 5; 6] [10; 20; 30; 40; 50; 60]).
  - reflexivity.
  - reflexivity.
  - repeat constructor; vm_compute; discriminate.
  - repeat constructor; vm_compute; discriminate.
  - repeat constructor; vm_compute; discriminate.
  - reflexivity.
  - reflexivity.
Defined.

Lemma train_batch_size_ge_1 (batch_size : Q) :
  1 <= train_batch_size batch_size.
Proof.
  unfold train_batch_size. cbv zeta.
  destruct (Np.Qgtb (batch_size / 2) 1) eqn:E; [|vm_compute; discriminate].
  unfold Np.Qgtb in E.
  assert (Hlt : (1 < batch_size / 2)%Q).
  { destruct (Qlt_le_dec 1 (batch_size / 2)) as [H | H]; [exact H|].
    apply Qle_bool_iff in H. rewrite H in E. discriminate. }
  unfold py_int, Np.Qgtb.
  assert (Hpos : Qle_bool 0 (batch_size / 2) = true).
  { apply Qle_bool_iff. apply Qlt_le_weak.
    eapply Qlt_trans; [|exact Hlt]. reflexivity. }
  rewrite Hpos. cbn [negb].
  change 1 with (Qfloor 1). apply Qfloor_resp_le. now apply Qlt_le_weak.
Qed.

(** X20: The batch size used for training is half the one asked for, rounded
    down, and never less than 1. *)
Theorem X_train_batch_size (b : Z) :
  train_batch_size (inject_Z b) = Z.max 1 (b / 2).
Proof.
  unfold train_batch_size. cbv zeta.
  assert (Hfloor : Qfloor (inject_Z b / 2) = b / 2).
  { unfold Qfloor, Qdiv, Qmult, Qinv, inject_Z. cbn.
    now rewrite Z.mul_1_r. }
  assert (Hcmp : Qle_bool (inject_Z b / 2) 1 = (b <=? 2)).
  { unfold Qle_bool, Qdiv, Qmult, Qinv, inject_Z. cbn.
    rewrite Z.mul_1_r. apply Bool.eq_iff_eq_true.
    rewrite !Z.leb_le. lia. }
  unfold Np.Qgtb. rewrite Hcmp.
  destruct (Z.leb_spec b 2) as [Hle | Hgt]; cbn [negb].
  - assert (b / 2 <= 1) by (apply Z.div_le_upper_bound; lia).
    vm_compute py_int. lia.
  - unfold py_int, Np.Qgtb.
    assert (Hpos : Qle_bool 0 (inject_Z b / 2) = true).
    { unfold Qle_bool, Qdiv, Qmult, Qinv, inject_Z. cbn.
      apply Z.leb_le. lia. }
    rewrite Hpos. cbn [negb]. rewrite Hfloor.
    assert (1 <= b / 2) by (apply Z.div_le_lower_bound; lia). lia.
Qed.

Lemma firstn_add {A} (l : list A) a b :
  firstn (a + b) l = firstn a l ++ firstn b (skipn a l).
Proof.
  rewrite <- (firstn_skipn a (firstn (a + b) l)) at 1.
  rewrite firstn_firstn, Nat.min_l by lia.
  now rewrite firstn_skipn_comm.
Qed.

Lemma slices_cover {A} (l : list A) step c :
  flat_map (fun ibatch => slice l ibatch step)
           (map (fun k => k * step)%nat (seq 0 c))
  = firstn (c * step) l.
Proof.
  induction c as [|c IH]; [reflexivity|].
  rewrite seq_S, map_app, flat_map_app, IH. cbn [map flat_map Nat.add].
  rewrite app_nil_r. unfold slice.
  replace (S c * step)%nat with (c * step + step)%nat by lia.
  now rewrite firstn_add.
Qed.

Lemma flat_map_map_out {A B C} (f : A -> list B) (g : B -> C) l :
  flat_map (fun x => map g (f x)) l = map g (flat_map f l).
Proof.
  induction l as [|x l IH]; [reflexivity|].
  cbn [flat_map]. now rewrite map_app, IH.
Qed.

Lemma map_shift_seq n k :
  map (fun i => i + k)%nat (seq 0 n) = seq k n.
Proof.
  assert (H : forall s, map (fun i => i + k)%nat (seq s n) = seq (s + k) n).
  { induction n as [|n IH]; intros s; [reflexivity|].
    cbn [seq map]. f_equal. rewrite IH. reflexivity. }
  apply (H 0%nat).
Qed.

Lemma epochs_cover n_epochs nimg :
  flat_map (fun iepoch => seq (nimg * iepoch) nimg) (seq 0 n_epochs)
  = seq 0 (n_epochs * nimg).
Proof.
  induction n_epochs as [|e IH]; [reflexivity|].
  rewrite seq_S, flat_map_app, IH. cbn [flat_map Nat.add].
  rewrite app_nil_r.
  replace (S e * nimg)%nat with (e * nimg + nimg)%nat by lia.
  rewrite seq_app. cbn [Nat.add].
  now replace (nimg * e)%nat with (e * nimg)%nat by lia.
Qed.

(** X21: Whatever batch size is asked for, training visits every image once
    per epoch and writes every row of [styles] and [diams] exactly once,
    in increasing order: the halved batch size is at least 1, so the
    batches [iall[ibatch:ibatch+batch_size]] tile [0 .. nimg-1]. *)
Theorem X_training_rows_written_once (n_epochs nimg : nat) (batch_size : Q) :
  rows_written n_epochs nimg (Z.to_nat (train_batch_size batch_size))
  = Returns (seq 0 (n_epochs * nimg)).
Proof.
  pose proof (train_batch_size_ge_1 batch_size) as Hb.
  destruct (Z.to_nat (train_batch_size batch_size)) as [|b'] eqn:Eb; [lia|].
  unfold rows_written, py_range0. cbn [obind].
  set (b := S b'). f_equal.
  rewrite <- epochs_cover. apply flat_map_ext. intros e.
  rewrite flat_map_map_out, slices_cover.
  rewrite firstn_all2.
  - apply map_shift_seq.
  - rewrite length_seq.
    pose proof (Nat.div_mod_eq (nimg + b - 1) b) as Hdm.
    pose proof (Nat.mod_upper_bound (nimg + b - 1) b) as Hr.
    unfold b in *. nia.
Qed.

(* ================================================================== *)
(** ** [CellposeModel._run_cp]: from the network output to the masks *)
(* ================================================================== *)

Module RunCp.

(** The keyword arguments of [_run_cp] that reach the mask computation
    (lines 567-572). *)
Record run_cp_args : Type := {
  a_compute_masks : bool;
  a_rescale : Q;
  a_resample : bool;
  a_dist_threshold : Q;
  a_diam_threshold : Q;
  a_flow_threshold : Q;
  a_min_size : Z;
  a_interp : bool;
  a_cluster : bool;
  a_do_3D : bool;
  a_stitch_threshold : Q;
  a_skel : bool;
  a_calc_trace : bool
}.

(** One image of the network output: the location of the view
    [dP[:,i]], and the arrays [dist[i]] and [bd[i]]. *)
Definition plane : Type := (nat * grid Q * grid Q)%type.

(** The keyword arguments of the call of [_compute_masks] for a 2-D
    image (lines 640-650); [do_3D] and [min_size] are not passed and keep
    the defaults of [_compute_masks]. *)
Definition plane_options (a : run_cp_args) (shape : nat * nat) : options := {|
  niter_opt := niter (a_do_3D a) (a_rescale a);
  dist_threshold := a_dist_threshold a;
  diam_threshold := a_diam_threshold a;
  flow_threshold := a_flow_threshold a;
  interp := a_interp a;
  cluster := a_cluster a;
  do_3D := false;
  min_size := 15;
  resize := if a_resample a then None else Some shape;
  skel := a_skel a;
  calc_trace := a_calc_trace a
|}.

(** The keyword arguments of the call for a volume (lines 630-633). *)
Definition volume_options (a : run_cp_args) : options := {|
  niter_opt := niter (a_do_3D a) (a_rescale a);
  dist_threshold := a_dist_threshold a;
  diam_threshold := a_diam_threshold a;
  flow_threshold := a_flow_threshold a;
  interp := a_interp a;
  cluster := a_cluster a;
  do_3D := a_do_3D a;
  min_size := a_min_size a;
  resize := None;
  skel := a_skel a;
  calc_trace := a_calc_trace a
|}.

Section MaskStage.
Variable E : collaborators.
Variable nclasses : Z.
(** [_compute_masks] on a volume, and [utils.stitch3D]. *)
Variable volume_result : Type.
Variable compute_volume : options -> M volume_result.
Variable stitch3D : list ndarray -> Q -> list ndarray.

(** Lines 641-650: the loop over the images. *)
Fixpoint compute_planes (o : options) (planes : list plane)
  : M (list (ndarray * vfield * list (step E))) :=
  match planes with
  | [] => ret []
  | (dP, dist, bd) :: planes' =>
      r <- _compute_masks E nclasses dP dist bd None o ;;
      rs <- compute_planes o planes' ;;
      ret (r :: rs)
  end.

(** What the mask stage yields: nothing ([np.zeros(0)]), the result for
    a volume, or the masks, positions and traces of the images.  The
    results are kept as [_compute_masks] returns them; their conversion
    on being stored in the [uint16] arrays is not part of the model. *)
Inductive stage_result : Type :=
| NoMasks
| Volume (r : volume_result)
| Planes (masks : list ndarray) (p : list vfield) (tr : list (list (step E))).

(** Lines 626-660. *)
Definition mask_stage (a : run_cp_args) (shape : nat * nat)
    (planes : list plane) : M stage_result :=
  if a_compute_masks a then
    if a_do_3D a then
      r <- compute_volume (volume_options a) ;;
      ret (Volume r)
    else
      rs <- compute_planes (plane_options a shape) planes ;;
      let masks := map (fun r => fst (fst r)) rs in
      let masks :=
        if Qgtb (a_stitch_threshold a) 0 && (1 <? length planes)%nat
        then stitch3D masks (a_stitch_threshold a) else masks in
      ret (Planes masks (map (fun r => snd (fst r)) rs) (map snd rs))
  else ret NoMasks.

End MaskStage.

Definition with_a_min_size (a : run_cp_args) (m : Z) : run_cp_args := {|
  a_compute_masks := a_compute_masks a; a_rescale := a_rescale a;
  a_resample := a_resample a; a_dist_threshold := a_dist_threshold a;
  a_diam_threshold := a_diam_threshold a;
  a_flow_threshold := a_flow_threshold a; a_min_size := m;
  a_interp := a_interp a; a_cluster := a_cluster a; a_do_3D := a_do_3D a;
  a_stitch_threshold := a_stitch_threshold a; a_skel := a_skel a;
  a_calc_trace := a_calc_trace a
|}.

Definition default_args : run_cp_args := {|
  a_compute_masks := true; a_rescale := 1; a_resample := false;
  a_dist_threshold := 0; a_diam_threshold := 12;
  a_flow_threshold := (4 # 10)%Q; a_min_size := 15; a_interp := false;
  a_cluster := false; a_do_3D := false; a_stitch_threshold := 0;
  a_skel := false; a_calc_trace := false
|}.

End RunCp.

Import RunCp.

(** X22: For 2-D images the [min_size] given to [_run_cp] has no effect:
    [_compute_masks] is called without it and sanitizes every image with
    its default, 15. *)
Theorem X_min_size_not_forwarded_in_2d E nclasses {V}
    (compute_volume : options -> M V)
    (stitch3D : list ndarray -> Q -> list ndarray)
    (a : run_cp_args) (m : Z) (shape : nat * nat) (planes : list plane)
    (s : state) (H2d : a_do_3D a = false) :
  mask_stage E nclasses V compute_volume stitch3D (with_a_min_size a m)
             shape planes s
  = mask_stage E nclasses V compute_volume stitch3D a shape planes s /\
  min_size (plane_options (with_a_min_size a m) shape) = 15.
Proof.
  split; [|reflexivity].
  unfold mask_stage. cbn [with_a_min_size a_compute_masks a_do_3D
                          a_stitch_threshold].
  rewrite H2d. reflexivity.
Qed.

Lemma X_min_size_not_forwarded_in_2d_witness :
  let dist := [[1; 1; -1]; [-1; -1; -1]; [2; -1; 3]]%Q in
  let dP := ([[1; 2; 3]; [4; 5; 6]; [7; 8; 9]]%Q,
             [[1; 0; 0]; [5; 0; 0]; [0; 0; 0]]%Q) in
  mask_stage still 4 unit (fun _ => ret tt) (fun l _ => l)
             (with_a_min_size default_args (-1)) (3%nat, 3%nat)
             [(0%nat, dist, dist)] (store_of dP)
  = mask_stage still 4 unit (fun _ => ret tt) (fun l _ => l)
               default_args (3%nat, 3%nat) [(0%nat, dist, dist)]
               (store_of dP) /\
  min_size (plane_options (with_a_min_size default_args (-1))
                          (3%nat, 3%nat)) = 15.
Proof.
  intros dist dP.
  apply (X_min_size_not_forwarded_in_2d still 4 (fun _ => ret tt)
           (fun l _ => l) default_args (-1) (3%nat, 3%nat)
           [(0%nat, dist, dist)] (store_of dP)).
  reflexivity.
Defined.

Lemma keeps_compute_planes E nclasses n0 o planes :
  keeps n0 (compute_planes E nclasses o planes) (fun _ => True).
Proof.
  induction planes as [|[[dP dist] bd] planes IH]; cbn [compute_planes].
  - apply keeps_ret.
  - eapply keeps_bind with (Q := fun _ => True);
      [apply keeps_compute_masks|].
    intros r _. eapply keeps_bind with (Q := fun _ => True); [exact IH|].
    intros rs _. apply keeps_ret.
Qed.

(** X23: The mask computation of a stack of 2-D images leaves the flow field
    of every image as the network produced it, whether it returns or
    raises: the [dP] that [_run_cp] hands back is not touched by the
    computation of the masks of any image. *)
Theorem X_run_cp_keeps_flows E nclasses {V}
    (compute_volume : options -> M V)
    (stitch3D : list ndarray -> Q -> list ndarray)
    (a : run_cp_args) (shape : nat * nat) (planes : list plane)
    (s : state) (l : nat)
    (H2d : a_do_3D a = false) (Hlive : (l < next_loc s)%nat) :
  heap (snd (mask_stage E nclasses V compute_volume stitch3D a shape
                        planes s)) l
  = heap s l.
Proof.
  assert (K : keeps (next_loc s)
                (mask_stage E nclasses V compute_volume stitch3D a shape
                            planes) (fun _ => True)).
  { unfold mask_stage. rewrite H2d.
    destruct (a_compute_masks a); [|apply keeps_ret].
    eapply keeps_bind with (Q := fun _ => True);
      [apply keeps_compute_planes|].
    intros rs _. apply keeps_ret. }
  destruct (K s (le_n _)) as [_ [H _]]. now apply H.
Qed.

Lemma X_run_cp_keeps_flows_witness :
  let dist := [[1; 1; -1]; [-1; -1; -1]; [2; -1; 3]]%Q in
  let dP := ([[1; 2; 3]; [4; 5; 6]; [7; 8; 9]]%Q,
             [[1; 0; 0]; [5; 0; 0]; [0; 0; 0]]%Q) in
  heap (snd (mask_stage still 4 unit (fun _ => ret tt) (fun l _ => l)
                        default_args (3%nat, 3%nat)
                        [(0%nat, dist, dist); (0%nat, dist, dist)]
                        (store_of dP))) 0%nat
  = heap (store_of dP) 0%nat.
Proof.
  intros dist dP.
  apply (X_run_cp_keeps_flows still 4 (fun _ => ret tt) (fun l _ => l)
           default_args (3%nat, 3%nat)
           [(0%nat, dist, dist); (0%nat, dist, dist)] (store_of dP) 0%nat).
  - reflexivity.
  - simpl. lia.
Defined.

(* ================================================================== *)
(** ** Model files and [CellposeModel.__init__] *)
(* ================================================================== *)

Import String.StringSyntax.
Delimit Scope string_scope with string.

Module Construction.

Definition str : Type := String.string.

Definition cat (a b : str) : str := String.append a b.

(** What the constructor does to the outside world. *)
Inductive action : Type :=
| Mkdir
| LogDownloading (url dest : str)
| Download (url dest : str)
| LogModelUsed (name : str)
| LogWarning (msg : str)
| LoadModel (path : str).

(** The files that exist, and the actions made so far. *)
Record world : Type := {
  files : str -> bool;
  done : list action
}.

Definition act (a : action) (w : world) : world :=
  {| files := files w; done := done w ++ [a] |}.

(** [pretrained_model]: [False], [None], a path, a list of paths or an
    array of paths. *)
Inductive pretrained : Type :=
| PmFalse
| PmNone
| PmStr (s : str)
| PmList (l : list str)
| PmArray (l : list str).

(** The truth value of [pretrained_model], [pretrained_model[0]] and
    [len(pretrained_model)] for the values that reach them (an array has
    been turned into a list before). *)
Definition truthy (pm : pretrained) : bool :=
  match pm with
  | PmFalse | PmNone => false
  | PmStr s => negb (String.eqb s ""%string)
  | PmList l | PmArray l => match l with [] => false | _ :: _ => true end
  end.

Definition first (pm : pretrained) : str :=
  match pm with
  | PmStr s => String.substring 0 1 s
  | PmList (x :: _) | PmArray (x :: _) => x
  | _ => ""%string
  end.

Definition len (pm : pretrained) : nat :=
  match pm with
  | PmStr s => String.length s
  | PmList l | PmArray l => length l
  | PmFalse | PmNone => 0
  end.

Record init_args : Type := {
  i_pretrained_model : pretrained;
  i_model_type : option str;
  i_net_avg : bool;
  i_torch : bool;
  i_diam_mean : Q;
  i_residual_on : bool;
  i_style_on : bool;
  i_concatenation : bool;
  i_nclasses : Z;
  i_skel : bool
}.

(** The attributes of the model; [m_diam_mean], [m_net_avg] and the
    three switches are the values handed to [UnetModel.__init__]. *)
Record cellpose_model : Type := {
  m_torch : bool;
  m_pretrained_model : pretrained;
  m_diam_mean : Q;
  m_net_avg : bool;
  m_residual_on : bool;
  m_style_on : bool;
  m_concatenation : bool;
  m_nclasses : Z;
  m_skel : bool;
  m_net_type : str
}.

Section Init.
(** [os.fspath(MODEL_DIR.joinpath(basename))] *)
Variable joinpath : str -> str.
(** [core.MXNET_ENABLED] and [core.parse_model_string] *)
Variable MXNET_ENABLED : bool.
Variable parse_model_string : str -> option (bool * bool * bool).

Definition _MODEL_URL : str := "https://www.cellpose.org/models"%string.

(** [cache_model_path] (lines 42-49).  [utils.download_url_to_file] is
    taken to return with the file in place. *)
Definition cache_model_path (basename : str) (w : world) : str * world :=
  let w := act Mkdir w in
  let url := cat _MODEL_URL (cat "/"%string basename) in
  let cached_file := joinpath basename in
  if files w cached_file then (cached_file, w)
  else
    let w := act (LogDownloading url cached_file) w in
    (cached_file,
     {| files := fun f => if String.eqb f cached_file then true
                          else files w f;
        done := done w ++ [Download url cached_file] |}).

Definition decimal (n : nat) : str :=
  DecimalString.NilZero.string_of_uint (Nat.to_uint n).

(** [model_path] (lines 32-35) and [size_model_path] (lines 37-40) *)
Definition model_path (model_type : str) (model_index : nat)
    (use_torch : bool) (w : world) : str * world :=
  let torch_str := if use_torch then "torch"%string else ""%string in
  cache_model_path
    (cat model_type (cat torch_str (cat "_"%string (decimal model_index)))) w.

Definition size_model_path (model_type : str) (use_torch : bool)
    (w : world) : str * world :=
  let torch_str := if use_torch then "torch"%string else ""%string in
  cache_model_path
    (cat "size_"%string (cat model_type (cat torch_str "_0.npy"%string))) w.

(** [[model_path(name, j, torch) for j in range(4)]] *)
Fixpoint model_paths (name : str) (torch : bool) (js : list nat) (w : world)
  : list str * world :=
  match js with
  | [] => ([], w)
  | j :: js' =>
      let '(path, w) := model_path name j torch w in
      let '(paths, w) := model_paths name torch js' w in
      (path :: paths, w)
  end.

Definition on_off (b : bool) : str := if b then "on"%string else "off"%string.

(** [CellposeModel.__init__] (lines 318-372) *)
Definition cellpose_model_init (a : init_args) (w : world)
  : cellpose_model * world :=
  let torch := if negb (i_torch a)
               then (if negb MXNET_ENABLED then true else i_torch a)
               else i_torch a in
  let pretrained_model :=
    match i_pretrained_model a with
    | PmArray l => PmList l
    | PmStr s => PmList [s]
    | pm => pm
    end in
  let named := match i_model_type a with Some _ => true | None => false end in
  let '(pretrained_model, diam_mean, switches, w) :=
    if named || (truthy pretrained_model
                 && negb (files w (first pretrained_model)))
    then
      let pretrained_model_string :=
        match i_model_type a with
        | Some t =>
            if negb (String.eqb t "cyto"%string)
               && negb (String.eqb t "nuclei"%string)
               && negb (String.eqb t "cyto2"%string)
               && negb (String.eqb t "skel"%string)
            then "cyto"%string else t
        | None => "cyto"%string
        end in
      let pretrained_model := PmNone in
      let w := if truthy pretrained_model
                  && negb (files w (first pretrained_model))
               then act (LogWarning "pretrained model has incorrect path"
                                    %string) w
               else w in
      let w := act (LogModelUsed pretrained_model_string) w in
      let diam_mean :=
        if negb (String.eqb pretrained_model_string "nuclei"%string)
        then 30%Q else 17%Q in
      let '(paths, w) := model_paths pretrained_model_string torch
                                     [0; 1; 2; 3]%nat w in
      let pretrained_model :=
        if negb (i_net_avg a) then PmStr (hd ""%string paths)
        else PmList paths in
      (pretrained_model, diam_mean, (true, true, false), w)
    else
      let given := (i_residual_on a, i_style_on a, i_concatenation a) in
      let switches :=
        if truthy pretrained_model
        then match parse_model_string (first pretrained_model) with
             | Some params => params
             | None => given
             end
        else given in
      (pretrained_model, i_diam_mean a, switches, w) in
  let '(residual_on, style_on, concatenation) := switches in
  let w := if truthy pretrained_model && Nat.eqb (len pretrained_model) 1
           then act (LoadModel (first pretrained_model)) w
           else w in
  ({| m_torch := torch;
      m_pretrained_model := pretrained_model;
      m_diam_mean := diam_mean;
      m_net_avg := i_net_avg a;
      m_residual_on := residual_on;
      m_style_on := style_on;
      m_concatenation := concatenation;
      m_nclasses := i_nclasses a;
      m_skel := i_skel a;
      m_net_type :=
        cat "cellpose_residual_"%string
          (cat (on_off residual_on)
             (cat "_style_"%string
                (cat (on_off style_on)
                   (cat "_concatenation_"%string (on_off concatenation)))))
   |}, w).

End Init.

(** The arguments with another model type, and with other values for
    the arguments that a model type overrides. *)
Definition with_model_type (a : init_args) (t : option str) : init_args := {|
  i_pretrained_model := i_pretrained_model a; i_model_type := t;
  i_net_avg := i_net_avg a; i_torch := i_torch a;
  i_diam_mean := i_diam_mean a; i_residual_on := i_residual_on a;
  i_style_on := i_style_on a; i_concatenation := i_concatenation a;
  i_nclasses := i_nclasses a; i_skel := i_skel a
|}.

Definition with_overridden (a : init_args) (pm : pretrained) (d : Q)
    (r s c : bool) : init_args := {|
  i_pretrained_model := pm; i_model_type := i_model_type a;
  i_net_avg := i_net_avg a; i_torch := i_torch a;
  i_diam_mean := d; i_residual_on := r;
  i_style_on := s; i_concatenation := c;
  i_nclasses := i_nclasses a; i_skel := i_skel a
|}.

Definition is_warning (x : action) : bool :=
  match x with LogWarning _ => true | _ => false end.

Definition is_download (x : action) : bool :=
  match x with Download _ _ => true | _ => false end.

(** The defaults of the constructor, in a world without files. *)
Definition default_init : init_args := {|
  i_pretrained_model := PmFalse; i_model_type := None;
  i_net_avg := true; i_torch := true; i_diam_mean := 30;
  i_residual_on := true; i_style_on := true; i_concatenation := false;
  i_nclasses := 3; i_skel := false
|}.

Definition empty_world : world := {| files := fun _ => false; done := [] |}.

End Construction.

Import Construction.

Lemma filter_app_nil {A} (f : A -> bool) l extra :
  filter f extra = [] -> filter f (l ++ extra) = filter f l.
Proof. intros H. now rewrite filter_app, H, app_nil_r. Qed.

(** A call of [cache_model_path] appends actions, none of them a
    warning or the loading of weights. *)
Lemma cache_model_path_adds joinpath basename w :
  exists extra,
    done (snd (cache_model_path joinpath basename w)) = done w ++ extra /\
    filter is_warning extra = [].
Proof.
  unfold cache_model_path. cbn [act files done].
  destruct (files w (joinpath basename)); cbn [snd done].
  - exists [Mkdir]. auto.
  - eexists [Mkdir; LogDownloading _ _; Download _ _].
    rewrite <- !app_assoc. cbn [app]. auto.
Qed.

Lemma model_paths_adds joinpath name torch js w :
  exists extra,
    done (snd (model_paths joinpath name torch js w)) = done w ++ extra /\
    filter is_warning extra = [].
Proof.
  revert w. induction js as [|j js IH]; intros w; cbn [model_paths].
  - exists []. now rewrite app_nil_r.
  - unfold model_path.
    destruct (cache_model_path_adds joinpath
                (cat name (cat (if torch then "torch"%string else ""%string)
                               (cat "_"%string (decimal j)))) w)
      as [e1 [H1 F1]].
    destruct (cache_model_path joinpath _ w) as [path w1].
    cbn [snd] in H1.
    destruct (IH w1) as [e2 [H2 F2]].
    destruct (model_paths joinpath name torch js w1) as [paths w2].
    cbn [snd] in *. exists (e1 ++ e2).
    rewrite H2, H1, app_assoc. split; [reflexivity|].
    now rewrite filter_app, F1, F2.
Qed.

(** X24: [CellposeModel.__init__] never logs the warning 'pretrained
    model has incorrect path': the test that guards it is made after
    [pretrained_model] has been set to [None]. *)
Theorem X_init_never_warns (joinpath : str -> str) (MXNET_ENABLED : bool)
    (parse_model_string : str -> option (bool * bool * bool))
    (a : init_args) (w : world) :
  filter is_warning
    (done (snd (cellpose_model_init joinpath MXNET_ENABLED
                  parse_model_string a w)))
  = filter is_warning (done w).
Proof.
  unfold cellpose_model_init. cbv zeta.
  set (pm := match i_pretrained_model a with
             | PmArray l => PmList l
             | PmStr s => PmList [s]
             | pm => pm
             end).
  destruct ((match i_model_type a with Some _ => true | None => false end)
            || (truthy pm && negb (files w (first pm)))).
  - cbn [truthy andb].
    match goal with
    | |- context [model_paths joinpath ?n ?t ?js ?w0] =>
        destruct (model_paths_adds joinpath n t js w0) as [extra [H F]];
        destruct (model_paths joinpath n t js w0) as [paths w1]
    end.
    cbn [snd act done] in H.
    match goal with
    | |- context [if ?c then act ?x w1 else w1] => destruct c
    end; cbn [snd act done]; rewrite H, <- !app_assoc;
      apply filter_app_nil; cbn [app filter is_warning];
      rewrite ?filter_app, F; reflexivity.
  - destruct (if truthy pm
              then match parse_model_string (first pm) with
                   | Some params => params
                   | None => (i_residual_on a, i_style_on a,
                              i_concatenation a)
                   end
              else (i_residual_on a, i_style_on a, i_concatenation a))
      as [[r s] c].
    destruct (truthy pm && Nat.eqb (len pm) 1); cbn [snd act done];
      [|reflexivity].
    now apply filter_app_nil.
Qed.

(** X25: When a model type is given, the arguments [pretrained_model],
    [diam_mean], [residual_on], [style_on] and [concatenation] have no
    effect on the model built nor on what is fetched; the mean diameter
    is 17 for 'nuclei' and 30 for every other name, and the three
    switches are on, on, off. *)
Theorem X_model_type_overrides_arguments (joinpath : str -> str)
    (MXNET_ENABLED : bool)
    (parse_model_string : str -> option (bool * bool * bool))
    (a : init_args) (w : world) (t : str)
    (pm : pretrained) (d : Q) (r s c : bool)
    (Htype : i_model_type a = Some t) :
  let built := cellpose_model_init joinpath MXNET_ENABLED parse_model_string
                                   a w in
  cellpose_model_init joinpath MXNET_ENABLED parse_model_string
                      (with_overridden a pm d r s c) w = built /\
  m_diam_mean (fst built)
    = (if String.eqb t "nuclei"%string then 17%Q else 30%Q) /\
  (m_residual_on (fst built), m_style_on (fst built),
   m_concatenation (fst built)) = (true, true, false).
Proof.
  intros built. subst built. unfold cellpose_model_init. cbv zeta.
  cbn [with_overridden i_model_type i_torch i_net_avg i_nclasses i_skel
       i_pretrained_model i_diam_mean i_residual_on i_style_on
       i_concatenation].
  rewrite Htype. cbn [orb truthy andb].
  match goal with
  | |- context [model_paths joinpath ?n ?tt ?js ?w0] =>
      destruct (model_paths joinpath n tt js w0) as [paths w1]
  end.
  split; [reflexivity|]. cbn [fst m_diam_mean m_residual_on m_style_on
                              m_concatenation].
  split; [|reflexivity].
  destruct (String.eqb_spec t "nuclei"%string) as [-> | Hne];
    [reflexivity|].
  destruct (negb (String.eqb t "cyto") && negb false
            && negb (String.eqb t "cyto2") && negb (String.eqb t "skel"))%string
    eqn:E; [reflexivity|].
  destruct (String.eqb_spec t "nuclei"%string); [contradiction | reflexivity].
Qed.

Lemma X_model_type_overrides_arguments_witness :
  let a := with_model_type default_init (Some "nuclei"%string) in
  let built := cellpose_model_init (cat "/models/"%string) false
                 (fun _ => None) a empty_world in
  cellpose_model_init (cat "/models/"%string) false (fun _ => None)
    (with_overridden a (PmStr "mine"%string) 99 false false true)
    empty_world = built /\
  m_diam_mean (fst built)
    = (if String.eqb "nuclei"%string "nuclei"%string then 17%Q else 30%Q) /\
  (m_residual_on (fst built), m_style_on (fst built),
   m_concatenation (fst built)) = (true, true, false).
Proof.
  intros a.
  apply (X_model_type_overrides_arguments (cat "/models/"%string) false
           (fun _ => None) a empty_world "nuclei"%string
           (PmStr "mine"%string) 99%Q false false true).
  reflexivity.
Defined.

(** X26: A [pretrained_model] path that does not exist is not an error:
    with no model type given, the constructor behaves exactly as if the
    model type 'cyto' had been asked for.  The built-in networks are
    fetched, the mean diameter is 30 and the path given by the caller is
    dropped. *)
Theorem X_missing_path_means_cyto (joinpath : str -> str)
    (MXNET_ENABLED : bool)
    (parse_model_string : str -> option (bool * bool * bool))
    (a : init_args) (w : world) (path : str) (more : list str)
    (Htype : i_model_type a = None)
    (Hpath : i_pretrained_model a = PmStr path \/
             i_pretrained_model a = PmList (path :: more) \/
             i_pretrained_model a = PmArray (path :: more))
    (Hmissing : files w path = false) :
  let built := cellpose_model_init joinpath MXNET_ENABLED parse_model_string
                                   a w in
  built = cellpose_model_init joinpath MXNET_ENABLED parse_model_string
            (with_model_type a (Some "cyto"%string)) w /\
  m_diam_mean (fst built) = 30%Q.
Proof.
  intros built. subst built. unfold cellpose_model_init. cbv zeta.
  cbn [with_model_type i_model_type i_torch i_net_avg i_nclasses i_skel
       i_pretrained_model i_diam_mean i_residual_on i_style_on
       i_concatenation].
  rewrite Htype.
  assert (E : (let pm := match i_pretrained_model a with
                         | PmArray l => PmList l
                         | PmStr s => PmList [s]
                         | pm => pm
                         end in
               truthy pm && negb (files w (first pm))) = true).
  { destruct Hpath as [-> | [-> | ->]]; cbn; now rewrite Hmissing. }
  cbv zeta in E. rewrite E, String.eqb_refl. cbn [orb truthy andb negb].
  match goal with
  | |- context [model_paths joinpath ?n ?tt ?js ?w0] =>
      destruct (model_paths joinpath n tt js w0) as [paths w1]
  end.
  split; reflexivity.
Qed.

Lemma X_missing_path_means_cyto_witness :
  let a := with_overridden default_init (PmStr "nowhere"%string) 17
                           true true false in
  let built := cellpose_model_init (cat "/models/"%string) false
                 (fun _ => None) a empty_world in
  built = cellpose_model_init (cat "/models/"%string) false (fun _ => None)
            (with_model_type a (Some "cyto"%string)) empty_world /\
  m_diam_mean (fst built) = 30%Q.
Proof.
  intros a.
  apply (X_missing_path_means_cyto (cat "/models/"%string) false
           (fun _ => None) a empty_world "nowhere"%string []).
  - reflexivity.
  - left. reflexivity.
  - reflexivity.
Defined.

(** X27: [cache_model_path] downloads a file only when it is absent: a
    file that exists is returned without a download, and (the download
    leaving the file in place) a second call for the same name downloads
    nothing and returns the same path. *)
Theorem X_model_file_downloaded_once (joinpath : str -> str)
    (basename : str) (w : world) :
  let first_call := cache_model_path joinpath basename w in
  let second_call := cache_model_path joinpath basename (snd first_call) in
  fst second_call = fst first_call /\
  files (snd first_call) (fst first_call) = true /\
  filter is_download (done (snd second_call))
    = filter is_download (done (snd first_call)) /\
  (files w (joinpath basename) = true ->
   filter is_download (done (snd first_call)) = filter is_download (done w)).
Proof.
  intros first_call second_call. subst second_call first_call.
  unfold cache_model_path. cbn [act files done].
  destruct (files w (joinpath basename)) eqn:E;
    cbn [fst snd act files done].
  - rewrite E. cbn [fst snd done].
    split; [reflexivity|]. split; [reflexivity|].
    split; [|intros _]; now apply filter_app_nil.
  - rewrite String.eqb_refl. cbn [fst snd done files].
    split; [reflexivity|]. split; [reflexivity|].
    split; [now apply filter_app_nil | discriminate].
Qed.

Definition with_net_avg (a : init_args) (b : bool) : init_args := {|
  i_pretrained_model := i_pretrained_model a;
  i_model_type := i_model_type a;
  i_net_avg := b; i_torch := i_torch a;
  i_diam_mean := i_diam_mean a; i_residual_on := i_residual_on a;
  i_style_on := i_style_on a; i_concatenation := i_concatenation a;
  i_nclasses := i_nclasses a; i_skel := i_skel a
|}.

(** X28: With a model type, all four networks of the ensemble are
    requested whether or not [net_avg] is set: turning the averaging off
    changes which paths the model keeps (the first one instead of the
    list of four) but not what is downloaded nor which files exist
    afterwards. *)
Theorem X_net_avg_does_not_change_downloads (joinpath : str -> str)
    (MXNET_ENABLED : bool)
    (parse_model_string : str -> option (bool * bool * bool))
    (a : init_args) (w : world) (t : str)
    (Htype : i_model_type a = Some t) :
  let single := cellpose_model_init joinpath MXNET_ENABLED
                  parse_model_string (with_net_avg a false) w in
  let averaged := cellpose_model_init joinpath MXNET_ENABLED
                    parse_model_string (with_net_avg a true) w in
  filter is_download (done (snd single))
    = filter is_download (done (snd averaged)) /\
  files (snd single) = files (snd averaged) /\
  (exists paths, m_pretrained_model (fst averaged) = PmList paths /\
                 length paths = 4%nat /\
                 m_pretrained_model (fst single)
                   = PmStr (hd ""%string paths)).
Proof.
  intros single averaged. subst single averaged.
  unfold cellpose_model_init. cbv zeta.
  cbn [with_net_avg i_model_type i_torch i_net_avg i_nclasses i_skel
       i_pretrained_model i_diam_mean i_residual_on i_style_on
       i_concatenation].
  rewrite Htype. cbn [orb truthy andb negb].
  match goal with
  | |- context [model_paths joinpath ?n ?tt ?js ?w0] =>
      assert (Hlen : length (fst (model_paths joinpath n tt js w0)) = 4%nat);
      [ cbn [model_paths]; unfold model_path;
        repeat match goal with
               | |- context [cache_model_path joinpath ?b ?w'] =>
                   destruct (cache_model_path joinpath b w')
               end; reflexivity
      | destruct (model_paths joinpath n tt js w0) as [paths w1] ]
  end.
  cbn [fst] in Hlen. cbn [len].
  rewrite Hlen. cbn [Nat.eqb andb snd fst m_pretrained_model].
  rewrite Bool.andb_false_r. cbn [snd].
  split; [|split].
  - destruct (_ && _); cbn [act done]; [|reflexivity].
    now apply filter_app_nil.
  - destruct (_ && _); reflexivity.
  - exists paths. auto.
Qed.

Lemma X_net_avg_does_not_change_downloads_witness :
  let a := with_model_type default_init (Some "cyto2"%string) in
  let single := cellpose_model_init (cat "/models/"%string) false
                  (fun _ => None) (with_net_avg a false) empty_world in
  let averaged := cellpose_model_init (cat "/models/"%string) false
                    (fun _ => None) (with_net_avg a true) empty_world in
  filter is_download (done (snd single))
    = filter is_download (done (snd averaged)) /\
  files (snd single) = files (snd averaged) /\
  (exists paths, m_pretrained_model (fst averaged) = PmList paths /\
                 length paths = 4%nat /\
                 m_pretrained_model (fst single)
                   = PmStr (hd ""%string paths)).
Proof.
  intros a.
  apply (X_net_avg_does_not_change_downloads (cat "/models/"%string) false
           (fun _ => None) a empty_world "cyto2"%string).
  reflexivity.
Defined.
